(** * The IK rig: kinematics, two-bone IK, locks, pose blending and the
      collapse relaxation, as a shallow embedding

    Conventions of the embedding.

    - A JavaScript [number] is a real number of the Standard Library ([R]);
      [Math.cos], [Math.sin], [Math.acos], [Math.atan], [Math.sqrt],
      [Math.max] and [Math.min] are [cos], [sin], [acos], [atan], [sqrt],
      [Rmax] and [Rmin].  Rounding, NaN and the infinities are outside the
      model.
    - A [Bone] is a finite tree.  A reference to a bone object of a tree is
      the list of child indices leading to it from the root ([ref]); reading
      through a reference is [deref], an assignment to a field of the
      referenced object is [update].
    - [JSON.parse(JSON.stringify(b))] is a structural copy ([deepClone]).
    - The [{x, y}] objects of the lock entries are shared between maps, so
      they live in a store ([Heap]) and the entries hold their addresses.
    - A call returns ([Done]), is left by an uncaught [TypeError], a property
      read on [null] or [undefined] ([Threw], with the objects as mutated so
      far), or does not return ([Hung]). *)

From Stdlib Require Import Reals Lra Lia List String Bool Arith.
From Stdlib Require Import ZArith DecimalString.
Import ListNotations.

#[local] Set Warnings "-register-all".

Open Scope string_scope.
Open Scope list_scope.
Open Scope R_scope.

(** ** kinematics.ts *)

Module Kinematics.

Record Point : Type := mkPoint { x : R; y : R }.

(** [globalPos?: { start; end }]; [end] is a keyword here, hence [end_]. *)
Record GlobalPos : Type := mkGlobalPos { start : Point; end_ : Point }.

Inductive Bone : Type := mkBone {
  name : string;
  length : R;
  angle : R;
  targetAngle : option R;
  mass : R;
  children : list Bone;
  zIndex : option R;
  visible : option bool;
  globalPos : option GlobalPos;
  globalAngle : option R
}.

(** Induction on bone trees: the children of a node satisfy the property. *)
Fixpoint Bone_tree_ind (P : Bone -> Prop)
    (step : forall b, Forall P (children b) -> P b) (b : Bone) : P b :=
  step b
    (match b as b0 return Forall P (children b0) with
     | mkBone _ _ _ _ _ cs _ _ _ _ =>
         (fix all (l : list Bone) : Forall P l :=
            match l with
            | [] => Forall_nil P
            | c :: l' => Forall_cons c (Bone_tree_ind P step c) (all l')
            end) cs
     end).

Definition ANATOMICAL_SCALE : R := 50.

(** A bone literal of the source: [targetAngle], [visible], [globalPos] and
    [globalAngle] are absent. *)
Definition lit (n : string) (len a m : R) (z : option R) (cs : list Bone) : Bone :=
  mkBone n len a None m cs z None None None.

Definition L_ARM : Bone :=
  lit "L_Clavicle" (ANATOMICAL_SCALE * 0.75) (- PI / 2) 0 (Some 3)
    [lit "L_Shoulder" (ANATOMICAL_SCALE * 1.5) 0 6 (Some 3)
      [lit "L_Forearm" (ANATOMICAL_SCALE * 1.25) 0 5 (Some 3)
        [lit "L_Hand" (ANATOMICAL_SCALE * 1.0) 0 2 (Some 3) []]]].

Definition R_ARM : Bone :=
  lit "R_Clavicle" (ANATOMICAL_SCALE * 0.75) (PI / 2) 0 (Some 3)
    [lit "R_Shoulder" (ANATOMICAL_SCALE * 1.5) 0 6 (Some 3)
      [lit "R_Forearm" (ANATOMICAL_SCALE * 1.25) 0 5 (Some 3)
        [lit "R_Hand" (ANATOMICAL_SCALE * 1.0) 0 2 (Some 3) []]]].

Definition L_FOOT_ASSEMBLY : Bone :=
  lit "L_Foot" (ANATOMICAL_SCALE * 1.0) 0 3 (Some 3) [].
Definition L_ANKLE_JOINT : Bone :=
  lit "L_Ankle_Joint" 0 (PI / 2) 0 None [L_FOOT_ASSEMBLY].
Definition L_CALF_ASSEMBLY : Bone :=
  lit "L_Calf" (ANATOMICAL_SCALE * 1.75) 0 8 (Some 3) [L_ANKLE_JOINT].
Definition L_HIP_ASSEMBLY : Bone :=
  lit "L_Hip" (ANATOMICAL_SCALE * 1.75) 0 10 (Some 3) [L_CALF_ASSEMBLY].
Definition L_HIP_BASE_JOINT : Bone :=
  lit "L_Hip_Base_Joint" 0 (- PI / 2) 0 None [L_HIP_ASSEMBLY].
Definition L_LEG : Bone :=
  lit "L_Hip_Joint" (ANATOMICAL_SCALE * 0.5) (PI / 2) 0 (Some 3) [L_HIP_BASE_JOINT].

Definition R_FOOT_ASSEMBLY : Bone :=
  lit "R_Foot" (ANATOMICAL_SCALE * 1.0) 0 3 (Some 3) [].
Definition R_ANKLE_JOINT : Bone :=
  lit "R_Ankle_Joint" 0 (- PI / 2) 0 None [R_FOOT_ASSEMBLY].
Definition R_CALF_ASSEMBLY : Bone :=
  lit "R_Calf" (ANATOMICAL_SCALE * 1.75) 0 8 (Some 3) [R_ANKLE_JOINT].
Definition R_HIP_ASSEMBLY : Bone :=
  lit "R_Hip" (ANATOMICAL_SCALE * 1.75) 0 10 (Some 3) [R_CALF_ASSEMBLY].
Definition R_HIP_BASE_JOINT : Bone :=
  lit "R_Hip_Base_Joint" 0 (PI / 2) 0 None [R_HIP_ASSEMBLY].
Definition R_LEG : Bone :=
  lit "R_Hip_Joint" (ANATOMICAL_SCALE * 0.5) (- PI / 2) 0 (Some 3) [R_HIP_BASE_JOINT].

Definition HEAD_ASSEMBLY : Bone :=
  lit "Head" (ANATOMICAL_SCALE * 1.0) 0 5 (Some 4) [].
Definition NECK_ASSEMBLY : Bone :=
  lit "Neck" (ANATOMICAL_SCALE * 0.5) 0 2 (Some 2) [HEAD_ASSEMBLY].
Definition TORSO_ASSEMBLY : Bone :=
  lit "Torso" (ANATOMICAL_SCALE * 1.5) 0 20 (Some 1) [NECK_ASSEMBLY; L_ARM; R_ARM].
Definition TORSO_BASE_JOINT : Bone :=
  lit "Torso_Base_Joint" 0 (- PI / 2) 0 None [TORSO_ASSEMBLY].
Definition PELVIS_ASSEMBLY : Bone :=
  lit "Pelvis" (ANATOMICAL_SCALE * 1.0) 0 15 (Some 2) [L_LEG; R_LEG].
Definition PELVIS_BASE_JOINT : Bone :=
  lit "Pelvis_Base_Joint" 0 (PI / 2) 0 None [PELVIS_ASSEMBLY].
Definition SPINE_AND_HEAD : list Bone := [TORSO_BASE_JOINT; PELVIS_BASE_JOINT].

Definition SKELETON_TREE : Bone :=
  lit "Navel" 0 0 10 (Some 0) SPINE_AND_HEAD.

(** [computeGlobalPositions] writes [globalAngle] and [globalPos] on the bone
    and on every descendant; the mutated tree is the result. *)
Fixpoint computeGlobalPositions (bone : Bone) (parentX parentY parentAngle : R) : Bone :=
  match bone with
  | mkBone n len a ta m cs z v _ _ =>
      let globalAngle := parentAngle + a in
      let endX := parentX + cos globalAngle * len in
      let endY := parentY + sin globalAngle * len in
      mkBone n len a ta m
        (map (fun child => computeGlobalPositions child endX endY globalAngle) cs)
        z v
        (Some (mkGlobalPos (mkPoint parentX parentY) (mkPoint endX endY)))
        (Some globalAngle)
  end.

End Kinematics.

Import Kinematics.

(** ** JavaScript helpers *)

(** Outcome of a call: it returns ([Done]), an uncaught [TypeError] leaves it
    ([Threw], with the objects as mutated so far), or it never returns
    ([Hung]). *)
Inductive outcome (A : Type) : Type :=
  | Done (a : A)
  | Threw (a : A)
  | Hung.
Arguments Done {A} a.
Arguments Threw {A} a.
Arguments Hung {A}.

Definition andThen {A : Type} (o : outcome A) (k : A -> outcome A) : outcome A :=
  match o with
  | Done a => k a
  | Threw a => Threw a
  | Hung => Hung
  end.

(** [Math.atan2(y, x)] on the reals (ECMAScript 21.3.2.8, without the signed
    zeros). *)
Definition atan2 (dy dx : R) : R :=
  if Rlt_dec 0 dx then atan (dy / dx)
  else if Rlt_dec dx 0 then
    (if Rle_dec 0 dy then atan (dy / dx) + PI else atan (dy / dx) - PI)
  else if Rlt_dec 0 dy then PI / 2
  else if Rlt_dec dy 0 then - PI / 2
  else 0.

(** [a || 0] on an optional number: [undefined] and [0] both give [0]. *)
Definition orZero (a : option R) : R :=
  match a with
  | Some v => v
  | None => 0
  end.

(** [s.endsWith(suffix)]. *)
Definition endsWith (s suffix : string) : bool :=
  let n := String.length s in
  let k := String.length suffix in
  (k <=? n)%nat && String.eqb (String.substring (n - k) k s) suffix.

(** [array.includes(s)] on an array of strings. *)
Definition includes (l : list string) (s : string) : bool :=
  existsb (String.eqb s) l.

(** A [Map<string, V>]: the entries in insertion order, keys distinct. *)
Section JSMap.
Context {V : Type}.

Definition mapGet (m : list (string * V)) (k : string) : option V :=
  option_map snd (find (fun e => String.eqb (fst e) k) m).

Definition mapHas (m : list (string * V)) (k : string) : bool :=
  existsb (fun e => String.eqb (fst e) k) m.

Fixpoint mapSet (m : list (string * V)) (k : string) (v : V) : list (string * V) :=
  match m with
  | [] => [(k, v)]
  | e :: m' => if String.eqb (fst e) k then (k, v) :: m' else e :: mapSet m' k v
  end.

Definition mapDelete (m : list (string * V)) (k : string) : list (string * V) :=
  filter (fun e => negb (String.eqb (fst e) k)) m.
End JSMap.

(** A [Set<string>]: [add] keeps the first occurrence. *)
Definition setAdd (s : list string) (k : string) : list string :=
  if includes s k then s else s ++ [k].

(** ** References into a bone tree *)

Definition ref : Type := list nat.

Fixpoint deref (b : Bone) (r : ref) : Bone :=
  match r with
  | [] => b
  | i :: r' =>
      match nth_error (children b) i with
      | Some c => deref c r'
      | None => b
      end
  end.

Fixpoint updNth {A : Type} (l : list A) (i : nat) (f : A -> A) : list A :=
  match l, i with
  | [], _ => []
  | a :: l', O => f a :: l'
  | a :: l', S i' => a :: updNth l' i' f
  end.

Definition setChildren (b : Bone) (cs : list Bone) : Bone :=
  mkBone (name b) (length b) (angle b) (targetAngle b) (mass b) cs
         (zIndex b) (visible b) (globalPos b) (globalAngle b).

Definition setAngle (a : R) (b : Bone) : Bone :=
  mkBone (name b) (length b) a (targetAngle b) (mass b) (children b)
         (zIndex b) (visible b) (globalPos b) (globalAngle b).

Definition setGlobalPos (gp : option GlobalPos) (b : Bone) : Bone :=
  mkBone (name b) (length b) (angle b) (targetAngle b) (mass b) (children b)
         (zIndex b) (visible b) gp (globalAngle b).

(** The object behind [r] is replaced by [f] of it: an assignment to one of
    its fields. *)
Fixpoint update (b : Bone) (r : ref) (f : Bone -> Bone) : Bone :=
  match r with
  | [] => f b
  | i :: r' => setChildren b (updNth (children b) i (fun c => update c r' f))
  end.

(** The loop [for (const child of children) { const found = f(child);
    if (found) return found; } return null]. *)
Definition firstChild (f : Bone -> option ref) : list Bone -> nat -> option ref :=
  fix go (cs : list Bone) (i : nat) : option ref :=
    match cs with
    | [] => None
    | c :: cs' =>
        match f c with
        | Some r => Some (i :: r)
        | None => go cs' (S i)
        end
    end.

Fixpoint findBone (bone : Bone) (nm : string) : option ref :=
  match bone with
  | mkBone n _ _ _ _ cs _ _ _ _ =>
      if String.eqb n nm then Some []
      else firstChild (fun child => findBone child nm) cs 0%nat
  end.

(** The loop of [findParentBone]'s inner [find]: a child of that name makes
    the bone itself the result. *)
Definition parentScan (childName : string) (f : Bone -> option ref)
  : list Bone -> nat -> option ref :=
  fix go (cs : list Bone) (i : nat) : option ref :=
    match cs with
    | [] => None
    | c :: cs' =>
        if String.eqb (name c) childName then Some []
        else match f c with
             | Some r => Some (i :: r)
             | None => go cs' (S i)
             end
    end.

Fixpoint findParentBone (root : Bone) (childName : string) : option ref :=
  match root with
  | mkBone _ _ _ _ _ cs _ _ _ _ =>
      parentScan childName (fun child => findParentBone child childName) cs 0%nat
  end.

Fixpoint deepClone (b : Bone) : Bone :=
  match b with
  | mkBone n len a ta m cs z v gp ga =>
      mkBone n len a ta m (map deepClone cs) z v gp ga
  end.

Fixpoint boneCount (b : Bone) : nat :=
  match b with
  | mkBone _ _ _ _ _ cs _ _ _ _ => S (list_sum (map boneCount cs))
  end.

(** ** app.component.ts: types and state *)

Inductive MotionMode : Type := T_Pose | Tension | Collapse.

Definition MotionMode_eqb (a b : MotionMode) : bool :=
  match a, b with
  | T_Pose, T_Pose | Tension, Tension | Collapse, Collapse => true
  | _, _ => false
  end.

Module Physics.
(** The point objects live in the [physicsPoints] array; a stick refers to
    its two points by their index in that array. *)
Record PhysicsPoint : Type := mkPhysicsPoint {
  x : R; y : R; oldX : R; oldY : R; isPinned : bool
}.
Record PhysicsStick : Type := mkPhysicsStick {
  p0 : nat; p1 : nat; length : R
}.
End Physics.

Record AnimationState : Type := mkAnimationState {
  active : bool;
  startSkeleton : option Bone;
  targetSkeleton : option Bone;
  startOffsets : Point;
  targetOffsets : Point;
  durationFrames : R;
  currentFrame : R;
  targetMode : option MotionMode
}.

(** The [{x, y}] objects that lock entries point to.  [cells] gives the
    current contents of every object, [next] is the first unused address. *)
Definition loc : Type := nat.
Record Heap : Type := mkHeap { cells : loc -> Point; next : loc }.

Definition alloc (h : Heap) (p : Point) : loc * Heap :=
  (next h, mkHeap (fun l => if Nat.eqb l (next h) then p else cells h l) (S (next h))).

Definition store (h : Heap) (l : loc) (f : Point -> Point) : Heap :=
  mkHeap (fun l' => if Nat.eqb l' l then f (cells h l') else cells h l') (next h).

(** A lock entry [{ position: {x, y} }]: its [position] field is assigned
    once, at creation, and refers to a mutable point object. *)
Record LockEntry : Type := mkLockEntry { position : loc }.

Definition LockMap : Type := list (string * LockEntry).

(** [getBoundingClientRect()] of the canvas parent. *)
Record DOMRect : Type := mkDOMRect { width : R; height : R }.

Module Meta.
Record t : Type := mk { min : R; max : R; step : R }.
End Meta.

Record ControlGroup : Type := mkControlGroup { groupName : string; bones : list string }.

Record AppState : Type := mkAppState {
  skeleton : Bone;
  motionMode : MotionMode;
  navelOffsetX : R;
  navelOffsetY : R;
  lockedBones : LockMap;
  lockedChainCache : list string;
  heap : Heap;
  physicsPoints : list Physics.PhysicsPoint;
  physicsSticks : list Physics.PhysicsStick;
  animationState : AnimationState;
  animationFrameId : option nat;
  lastAdjustedGroup : option string;
  activeControl : option string;
  parentRect : DOMRect;
  ctx : bool;
  boneToPointsMap : list (string * (nat * nat))
}.

Definition set_skeleton (v : Bone) (s : AppState) : AppState :=
  mkAppState v (motionMode s) (navelOffsetX s) (navelOffsetY s) (lockedBones s)
    (lockedChainCache s) (heap s) (physicsPoints s) (physicsSticks s)
    (animationState s) (animationFrameId s) (lastAdjustedGroup s)
    (activeControl s) (parentRect s) (ctx s)
    (boneToPointsMap s).

Definition set_motionMode (v : MotionMode) (s : AppState) : AppState :=
  mkAppState (skeleton s) v (navelOffsetX s) (navelOffsetY s) (lockedBones s)
    (lockedChainCache s) (heap s) (physicsPoints s) (physicsSticks s)
    (animationState s) (animationFrameId s) (lastAdjustedGroup s)
    (activeControl s) (parentRect s) (ctx s)
    (boneToPointsMap s).

Definition set_navelOffsetX (v : R) (s : AppState) : AppState :=
  mkAppState (skeleton s) (motionMode s) v (navelOffsetY s) (lockedBones s)
    (lockedChainCache s) (heap s) (physicsPoints s) (physicsSticks s)
    (animationState s) (animationFrameId s) (lastAdjustedGroup s)
    (activeControl s) (parentRect s) (ctx s)
    (boneToPointsMap s).

Definition set_navelOffsetY (v : R) (s : AppState) : AppState :=
  mkAppState (skeleton s) (motionMode s) (navelOffsetX s) v (lockedBones s)
    (lockedChainCache s) (heap s) (physicsPoints s) (physicsSticks s)
    (animationState s) (animationFrameId s) (lastAdjustedGroup s)
    (activeControl s) (parentRect s) (ctx s)
    (boneToPointsMap s).

Definition set_lockedBones (v : LockMap) (s : AppState) : AppState :=
  mkAppState (skeleton s) (motionMode s) (navelOffsetX s) (navelOffsetY s) v
    (lockedChainCache s) (heap s) (physicsPoints s) (physicsSticks s)
    (animationState s) (animationFrameId s) (lastAdjustedGroup s)
    (activeControl s) (parentRect s) (ctx s)
    (boneToPointsMap s).

Definition set_lockedChainCache (v : list string) (s : AppState) : AppState :=
  mkAppState (skeleton s) (motionMode s) (navelOffsetX s) (navelOffsetY s)
    (lockedBones s) v (heap s) (physicsPoints s) (physicsSticks s)
    (animationState s) (animationFrameId s) (lastAdjustedGroup s)
    (activeControl s) (parentRect s) (ctx s)
    (boneToPointsMap s).

Definition set_heap (v : Heap) (s : AppState) : AppState :=
  mkAppState (skeleton s) (motionMode s) (navelOffsetX s) (navelOffsetY s)
    (lockedBones s) (lockedChainCache s) v (physicsPoints s) (physicsSticks s)
    (animationState s) (animationFrameId s) (lastAdjustedGroup s)
    (activeControl s) (parentRect s) (ctx s)
    (boneToPointsMap s).

Definition set_physicsPoints (v : list Physics.PhysicsPoint) (s : AppState) : AppState :=
  mkAppState (skeleton s) (motionMode s) (navelOffsetX s) (navelOffsetY s)
    (lockedBones s) (lockedChainCache s) (heap s) v (physicsSticks s)
    (animationState s) (animationFrameId s) (lastAdjustedGroup s)
    (activeControl s) (parentRect s) (ctx s)
    (boneToPointsMap s).

Definition set_animationState (v : AnimationState) (s : AppState) : AppState :=
  mkAppState (skeleton s) (motionMode s) (navelOffsetX s) (navelOffsetY s)
    (lockedBones s) (lockedChainCache s) (heap s) (physicsPoints s)
    (physicsSticks s) v (animationFrameId s) (lastAdjustedGroup s)
    (activeControl s) (parentRect s) (ctx s)
    (boneToPointsMap s).

Definition set_animationFrameId (v : option nat) (s : AppState) : AppState :=
  mkAppState (skeleton s) (motionMode s) (navelOffsetX s) (navelOffsetY s)
    (lockedBones s) (lockedChainCache s) (heap s) (physicsPoints s)
    (physicsSticks s) (animationState s) v (lastAdjustedGroup s)
    (activeControl s) (parentRect s) (ctx s)
    (boneToPointsMap s).

Definition set_lastAdjustedGroup (v : option string) (s : AppState) : AppState :=
  mkAppState (skeleton s) (motionMode s) (navelOffsetX s) (navelOffsetY s)
    (lockedBones s) (lockedChainCache s) (heap s) (physicsPoints s)
    (physicsSticks s) (animationState s) (animationFrameId s) v
    (activeControl s) (parentRect s) (ctx s)
    (boneToPointsMap s).

(** ** app.component.ts: constants *)

Definition controlGroups : list ControlGroup :=
  [ mkControlGroup "Core" ["Navel"; "Torso"; "Neck"];
    mkControlGroup "Left Arm" ["L_Shoulder"; "L_Forearm"; "L_Hand"];
    mkControlGroup "Right Arm" ["R_Shoulder"; "R_Forearm"; "R_Hand"];
    mkControlGroup "Left Leg" ["L_Hip"; "L_Calf"; "L_Foot"];
    mkControlGroup "Right Leg" ["R_Hip"; "R_Calf"; "R_Foot"] ].

Definition lockableBones : list string := ["L_Foot"; "R_Foot"; "L_Hand"; "R_Hand"].

Definition controllableBones : list string :=
  [ "Navel"; "Torso"; "Neck"; "L_Shoulder"; "R_Shoulder"; "L_Forearm";
    "R_Forearm"; "L_Hand"; "R_Hand"; "L_Hip"; "R_Hip"; "L_Calf"; "R_Calf";
    "L_Foot"; "R_Foot" ].

(** [boneMetadata.get(name)] after the constructor has filled the map. *)
Definition boneMetadata (nm : string) : option Meta.t :=
  if includes controllableBones nm then Some (Meta.mk (- PI) PI 0.01)
  else if String.eqb nm "Ground X" then Some (Meta.mk (-200) 200 1)
  else if String.eqb nm "Ground Y" then Some (Meta.mk (-200) 200 1)
  else if String.eqb nm "Global Rotation" then Some (Meta.mk (- PI) PI 0.01)
  else None.

Fixpoint createVisibleSkeleton (bone : Bone) : Bone :=
  match bone with
  | mkBone n len a ta m cs z _ gp ga =>
      mkBone n len a ta m (map createVisibleSkeleton cs) z (Some true) gp ga
  end.

Definition initialSkeleton : Bone := createVisibleSkeleton SKELETON_TREE.

(** [this.findBone(pose, nm)!.angle = a]; every name the constructor uses is
    a bone of [initialSkeleton], so no read on [null] happens there. *)
Definition assignAngle (pose : Bone) (nm : string) (a : R) : Bone :=
  match findBone pose nm with
  | Some r => update pose r (setAngle a)
  | None => pose
  end.

Definition createTensionPose : Bone :=
  let pose := deepClone initialSkeleton in
  let pose := assignAngle pose "L_Shoulder" (PI / 2) in
  let pose := assignAngle pose "R_Shoulder" (- PI / 2) in
  let pose := assignAngle pose "L_Forearm" 0 in
  let pose := assignAngle pose "R_Forearm" 0 in
  let legAngle :=
    atan ((ANATOMICAL_SCALE * 0.5) / (ANATOMICAL_SCALE * 1.75 + ANATOMICAL_SCALE * 1.75)) in
  let pose := assignAngle pose "L_Hip" legAngle in
  let pose := assignAngle pose "R_Hip" (- legAngle) in
  let pose := assignAngle pose "L_Calf" 0 in
  let pose := assignAngle pose "R_Calf" 0 in
  let pose := assignAngle pose "L_Foot" (- legAngle) in
  let pose := assignAngle pose "R_Foot" legAngle in
  pose.

Definition tensionPoseSkeleton : Bone := createTensionPose.

(** [findBone(SKELETON_TREE, nm)!.length]. *)
Definition treeLength (nm : string) : R :=
  match findBone SKELETON_TREE nm with
  | Some r => length (deref SKELETON_TREE r)
  | None => 0
  end.

Definition getLegLength : R :=
  treeLength "Pelvis" + treeLength "L_Hip" + treeLength "L_Calf".

(** The lookup in the object literal of [getIKChainNames], for the keys the
    literal defines; [solveAllIK], the only caller of the solver, passes
    these four. *)
Definition getIKChainNames (nm : string) : option (list string) :=
  if String.eqb nm "R_Foot" then Some ["R_Hip"; "R_Calf"]
  else if String.eqb nm "L_Foot" then Some ["L_Hip"; "L_Calf"]
  else if String.eqb nm "R_Hand" then Some ["R_Shoulder"; "R_Forearm"]
  else if String.eqb nm "L_Hand" then Some ["L_Shoulder"; "L_Forearm"]
  else None.

Definition getBonesInGroup (g : string) : list string :=
  match find (fun c => String.eqb (groupName c) g) controlGroups with
  | Some c => bones c
  | None => []
  end.

(** ** Two-bone IK *)

(** The local constant [bendDirection] of [solveTwoBoneIK]. *)
Definition bendDirection (endEffectorName : string) : R :=
  if String.eqb endEffectorName "L_Foot" || String.eqb endEffectorName "L_Hand"
  then -1 else 1.

(** [solveTwoBoneIK(root, endEffectorName, targetPos)].  [bone1], [bone2] and
    [parentOfBone1] are references taken before the pose is resolved; the
    non-null assertions [!] are erased at run time, so a missing bone is a
    [TypeError] at its first property read. *)
Definition solveTwoBoneIK (root : Bone) (endEffectorName : string) (targetPos : Point)
  : outcome Bone :=
  match getIKChainNames endEffectorName with
  | Some [n1; n2] =>
      match findBone root n1 with
      | None => Threw root
      | Some bone1 =>
          let bone2 := findBone root n2 in
          let parentOfBone1 := findParentBone root (name (deref root bone1)) in
          match globalPos root with
          | None => Threw root
          | Some gp =>
              let root := computeGlobalPositions root (x (start gp)) (y (start gp)) 0 in
              let l1 := length (deref root bone1) in
              match bone2 with
              | None => Threw root
              | Some bone2 =>
                  let l2 := length (deref root bone2) in
                  match parentOfBone1 with
                  | None => Threw root
                  | Some parentOfBone1 =>
                      match globalPos (deref root parentOfBone1) with
                      | None => Threw root
                      | Some pgp =>
                          let chainRootPos := end_ pgp in
                          let dx := x targetPos - x chainRootPos in
                          let dy := y targetPos - y chainRootPos in
                          let dist := sqrt (dx * dx + dy * dy) in
                          if Rlt_dec (l1 + l2) dist then
                            let angleToTarget := atan2 dy dx in
                            let root :=
                              update root bone1
                                (setAngle (angleToTarget
                                           - orZero (globalAngle (deref root parentOfBone1)))) in
                            let root := update root bone2 (setAngle 0) in
                            Done root
                          else
                            let distSq := dist * dist in
                            let angle1_num := distSq + l1 * l1 - l2 * l2 in
                            let angle1_den := 2 * dist * l1 in
                            let angle1 := acos (Rmax (-1) (Rmin 1 (angle1_num / angle1_den))) in
                            let angle2_num := l1 * l1 + l2 * l2 - distSq in
                            let angle2_den := 2 * l1 * l2 in
                            let angle2 := acos (Rmax (-1) (Rmin 1 (angle2_num / angle2_den))) in
                            let bend := bendDirection endEffectorName in
                            let angleToTarget := atan2 dy dx in
                            let bone1GlobalAngle := angleToTarget + bend * angle1 in
                            let root :=
                              update root bone1
                                (setAngle (bone1GlobalAngle
                                           - orZero (globalAngle (deref root parentOfBone1)))) in
                            let root := update root bone2 (setAngle (bend * (angle2 - PI))) in
                            Done root
                      end
                  end
              end
          end
      end
  | _ => Done root
  end.

(** [if (targets.has(nm)) this.solveTwoBoneIK(root, nm, targets.get(nm)!.position)]. *)
Definition solveIfTarget (h : Heap) (targets : LockMap) (nm : string) (root : Bone)
  : outcome Bone :=
  match mapGet targets nm with
  | Some e => solveTwoBoneIK root nm (cells h (position e))
  | None => Done root
  end.

Definition solveAllIK (h : Heap) (root : Bone) (targets : LockMap) : outcome Bone :=
  match targets with
  | [] => Done root
  | _ =>
      andThen (andThen (andThen (solveIfTarget h targets "L_Foot" root)
                                (solveIfTarget h targets "R_Foot"))
                       (solveIfTarget h targets "L_Hand"))
              (solveIfTarget h targets "R_Hand")
  end.

(** ** Locks *)

(** The [while] loop of [buildLockedChainCache]: the names from [current] up
    to, and excluding, the bone called Navel.  [fuel] bounds the number of
    bones pushed; [None] is a walk that did not end within it. *)
Fixpoint chainPath (fuel : nat) (root : Bone) (current : option ref) {struct fuel}
  : option (list string) :=
  match current with
  | None => Some []
  | Some r =>
      let nm := name (deref root r) in
      if String.eqb nm "Navel" then Some []
      else match fuel with
           | O => None
           | S fuel' => option_map (cons nm) (chainPath fuel' root (findParentBone root nm))
           end
  end.

(** The cache after [buildLockedChainCache(root)].  A walk over more bones
    than the tree has visits one of them twice and never ends: [None]. *)
Fixpoint buildLockedChainCache (root : Bone) (locks : LockMap) (cache : list string)
  : option (list string) :=
  match locks with
  | [] => Some cache
  | (nm, _) :: locks' =>
      match chainPath (boneCount root) root (findBone root nm) with
      | Some path => buildLockedChainCache root locks' (fold_left setAdd path cache)
      | None => None
      end
  end.

Definition isBoneInLockedChain (s : AppState) (boneName : string) (checkEndEffector : bool)
  : bool :=
  if negb checkEndEffector && mapHas (lockedBones s) boneName then false
  else includes (lockedChainCache s) boneName.

Definition clearAllLocks (s : AppState) : AppState := set_lockedBones [] s.

Definition toggleLock (s : AppState) (boneName : string) : AppState :=
  if negb (includes lockableBones boneName) then s
  else
    let newLocks := lockedBones s in
    if mapHas newLocks boneName then set_lockedBones (mapDelete newLocks boneName) s
    else
      let tempSkel := deepClone (skeleton s) in
      let floorY := height (parentRect s) * 0.85 in
      let navelX := width (parentRect s) / 2 + navelOffsetX s in
      let navelY := floorY - getLegLength - navelOffsetY s in
      let tempSkel := computeGlobalPositions tempSkel navelX navelY 0 in
      match findParentBone tempSkel boneName with
      | Some parentBone =>
          match globalPos (deref tempSkel parentBone) with
          | Some gp =>
              let (l, h) := alloc (heap s) (mkPoint (x (end_ gp)) (y (end_ gp))) in
              set_lockedBones (mapSet newLocks boneName (mkLockEntry l)) (set_heap h s)
          | None => set_lockedBones newLocks s
          end
      | None => set_lockedBones newLocks s
      end.

(** [ikTargets.forEach((target, boneName) => { if (boneName.endsWith('Foot'))
    target.position.y = floorY; })]: the write goes to the point object the
    entry refers to. *)
Definition clampFeet (floorY : R) (ikTargets : LockMap) (h : Heap) : Heap :=
  fold_left
    (fun h e =>
       if endsWith (fst e) "Foot"
       then store h (position (snd e)) (fun p => mkPoint (x p) floorY)
       else h)
    ikTargets h.

(** [drawInteractiveModel()].  The canvas calls are not modelled: the result
    is the state after the call and the skeleton handed to [drawSkeleton]
    (none without a context or after a [TypeError]). *)
Definition drawInteractiveModel (s : AppState) : outcome (AppState * option Bone) :=
  if negb (ctx s) then Done (s, None)
  else
    let floorY := height (parentRect s) * 0.85 in
    let navelX := width (parentRect s) / 2 + navelOffsetX s in
    let initialNavelY := (floorY - getLegLength) - navelOffsetY s in
    let frameSkeleton := deepClone (skeleton s) in
    match buildLockedChainCache frameSkeleton (lockedBones s) [] with
    | None => Hung
    | Some cache =>
        let s := set_lockedChainCache cache s in
        let ikTargets := lockedBones s in
        let s := set_heap (clampFeet floorY ikTargets (heap s)) s in
        let frameSkeleton :=
          setGlobalPos (Some (mkGlobalPos (mkPoint navelX initialNavelY)
                                          (mkPoint navelX initialNavelY)))
                       frameSkeleton in
        match solveAllIK (heap s) frameSkeleton ikTargets with
        | Done frameSkeleton =>
            Done (s, Some (computeGlobalPositions frameSkeleton navelX initialNavelY 0))
        | Threw _ => Threw (s, None)
        | Hung => Hung
        end
    end.

(** ** Manual edits *)

Inductive AngleUnit : Type := rad | deg.

Definition degToRad (d : R) : R := d * (PI / 180).

(** [setBoneAngle(name, event, unit)]; [value] is
    [parseFloat(event.target.value)] and [isSlider] is
    [event.type === 'input']. *)
Definition setBoneAngle (s : AppState) (nm : string) (value : R) (isSlider : bool)
    (unit : AngleUnit) : AppState :=
  let angleInRad := match unit with deg => degToRad value | rad => value end in
  let newSkeleton := deepClone (skeleton s) in
  let newSkeleton :=
    match findBone newSkeleton nm with
    | Some boneToUpdate =>
        match boneMetadata nm, isSlider with
        | Some meta, true =>
            update newSkeleton boneToUpdate
              (setAngle (Rmax (Meta.min meta) (Rmin (Meta.max meta) angleInRad)))
        | _, _ => update newSkeleton boneToUpdate (setAngle angleInRad)
        end
    | None => newSkeleton
    end in
  let s := set_skeleton newSkeleton s in
  match find (fun g => includes (bones g) nm) controlGroups with
  | Some g => set_lastAdjustedGroup (Some (groupName g)) s
  | None =>
      if mapHas (lockedBones s) nm then set_lastAdjustedGroup (Some nm) s else s
  end.

(** [bonesToReset.forEach(...)] of [resetGroup]: the angle of the reference
    pose is copied when the bone is found in both trees. *)
Definition resetBone (targetPose : Bone) (skel : Bone) (boneName : string) : Bone :=
  match findBone skel boneName, findBone targetPose boneName with
  | Some bone, Some targetBone =>
      update skel bone (setAngle (angle (deref targetPose targetBone)))
  | _, _ => skel
  end.

Definition resetGroup (s : AppState) (g : string) : AppState :=
  match find (fun c => String.eqb (groupName c) g) controlGroups with
  | None => s
  | Some group =>
      let newLocks := fold_left mapDelete (getBonesInGroup g) (lockedBones s) in
      let s := set_lockedBones newLocks s in
      let bonesToReset :=
        filter (fun b => match boneMetadata b with Some _ => true | None => false end)
               (bones group) in
      let targetPose :=
        if MotionMode_eqb (motionMode s) Tension then tensionPoseSkeleton
        else initialSkeleton in
      set_skeleton (fold_left (resetBone targetPose) bonesToReset (skeleton s)) s
  end.

(** [b.angle += delta] on the bone called [nm], when there is one. *)
Definition nudge (skel : Bone) (nm : string) (delta : R) : Bone :=
  match findBone skel nm with
  | Some b => update skel b (fun o => setAngle (angle o + delta) o)
  | None => skel
  end.

(** [handleKeyDown(event)], [key] being [event.key].  An empty string is
    falsy, like [null]. *)
Definition handleKeyDown (s : AppState) (key : string) : AppState :=
  if String.eqb key "`" then
    match lastAdjustedGroup s with
    | Some lastGroup => if String.eqb lastGroup "" then s else resetGroup s lastGroup
    | None => s
    end
  else if MotionMode_eqb (motionMode s) Collapse || active (animationState s) then s
  else
    match activeControl s with
    | None => s
    | Some activeCtrl =>
        if String.eqb activeCtrl "" || isBoneInLockedChain s activeCtrl false then s
        else if String.eqb key "ArrowUp" || String.eqb key "ArrowDown" then
          let meta := boneMetadata activeCtrl in
          let isAnchor := includes ["Ground X"; "Ground Y"; "Global Rotation"] activeCtrl in
          let step := match meta with Some m => Meta.step m | None => 1 end in
          let delta :=
            (if String.eqb key "ArrowUp" then step else - step)
            * (if isAnchor then 1 else 0.01) in
          if isAnchor then
            if String.eqb activeCtrl "Ground X" then set_navelOffsetX (navelOffsetX s + delta) s
            else if String.eqb activeCtrl "Ground Y" then
              set_navelOffsetY (navelOffsetY s + delta) s
            else if String.eqb activeCtrl "Global Rotation" then
              set_skeleton (nudge (skeleton s) "Navel" delta) s
            else s
          else set_skeleton (nudge (skeleton s) activeCtrl delta) s
        else s
    end.

(** ** Pose blending *)

Definition lerp (a b amt : R) : R := (1 - amt) * a + amt * b.

(** The loop [for (let i = 0; i < current.children.length; i++)
    f(current.children[i], start.children[i], target.children[i])]; a child
    missing in [start] or [target] is [undefined] there. *)
Definition lerpChildren (f : Bone -> Bone -> Bone -> option Bone)
  : list Bone -> list Bone -> list Bone -> option (list Bone) :=
  fix go (cs ss ts : list Bone) {struct cs} : option (list Bone) :=
    match cs with
    | [] => Some []
    | c :: cs' =>
        match ss, ts with
        | s0 :: ss', t0 :: ts' =>
            match f c s0 t0 with
            | Some c' => option_map (cons c') (go cs' ss' ts')
            | None => None
            end
        | _, _ => None
        end
    end.

(** [lerpSkeleton(current, start, target)] for a given [progress]; [None] is
    the [TypeError] of reading [angle] on [undefined]. *)
Fixpoint lerpSkeleton (progress : R) (current start target : Bone) {struct current}
  : option Bone :=
  match current with
  | mkBone n len _ ta m cs z v gp ga =>
      let a := lerp (angle start) (angle target) progress in
      match lerpChildren (lerpSkeleton progress) cs (children start) (children target) with
      | Some cs' => Some (mkBone n len a ta m cs' z v gp ga)
      | None => None
      end
  end.

(** [updateTransitionAnimation()].  A [TypeError] inside the callback of
    [skeleton.update] leaves every signal as it was.  [startAnimation], the
    only place that activates a transition, always gives it a target mode;
    without one the mode is left as it is. *)
Definition updateTransitionAnimation (s : AppState) : outcome AppState :=
  let state := animationState s in
  if negb (active state) then Done s
  else
    let newFrame := currentFrame state + 1 in
    let progress := newFrame / durationFrames state in
    match startSkeleton state, targetSkeleton state with
    | Some start0, Some target0 =>
        match lerpSkeleton progress (deepClone (skeleton s)) start0 target0 with
        | None => Threw s
        | Some newSkel =>
            let s := set_skeleton newSkel s in
            let s := set_navelOffsetX
                       (lerp (x (startOffsets state)) (x (targetOffsets state)) progress) s in
            let s := set_navelOffsetY
                       (lerp (y (startOffsets state)) (y (targetOffsets state)) progress) s in
            if Rle_dec (durationFrames state) newFrame then
              let s := set_skeleton (deepClone target0) s in
              let s := match targetMode state with
                       | Some m => set_motionMode m s
                       | None => s
                       end in
              let s := set_animationState
                         (mkAnimationState false (startSkeleton state) (targetSkeleton state)
                            (startOffsets state) (targetOffsets state)
                            (durationFrames state) (currentFrame state) (targetMode state)) s in
              Done (set_animationFrameId None s)
            else
              Done (set_animationState
                      (mkAnimationState (active state) (startSkeleton state)
                         (targetSkeleton state) (startOffsets state) (targetOffsets state)
                         (durationFrames state) newFrame (targetMode state)) s)
        end
    | _, _ => Threw s
    end.

(** The world angle of a bone in the ragdoll: [calculateGlobalAngle] of
    [updateSkeletonAnglesFromPhysics].  Its memo table only saves the
    recomputation, the points do not move meanwhile.  The two point
    references of an entry of [boneToPointsMap] are indices into
    [physicsPoints]. *)
Definition calculateGlobalAngle (s : AppState) (boneName : string) : R :=
  match mapGet (boneToPointsMap s) boneName with
  | Some (i0, i1) =>
      match nth_error (physicsPoints s) i0, nth_error (physicsPoints s) i1 with
      | Some q0, Some q1 =>
          atan2 (Physics.y q1 - Physics.y q0) (Physics.x q1 - Physics.x q0)
      | _, _ => 0
      end
  | None => 0
  end.

Fixpoint traverse (calc : string -> R) (bone : Bone) (parentGlobalAngle : R) : Bone :=
  match bone with
  | mkBone n len _ ta m cs z v gp ga =>
      let globalAngle := calc n in
      mkBone n len (globalAngle - parentGlobalAngle) ta m
        (map (fun child => traverse calc child globalAngle) cs) z v gp ga
  end.

Definition updateSkeletonAnglesFromPhysics (s : AppState) : AppState :=
  let navelAngle := calculateGlobalAngle s "Navel" in
  set_skeleton (traverse (calculateGlobalAngle s) (skeleton s) navelAngle) s.

(** [startAnimation(targetSkeleton, targetMode, durationFrames)]; [handle] is
    what [requestAnimationFrame] returns when a loop has to be started. *)
Definition startAnimation (s : AppState) (targetSkeleton0 : Bone) (targetMode0 : MotionMode)
    (durationFrames0 : R) (handle : nat) : AppState :=
  let s :=
    if MotionMode_eqb (motionMode s) Collapse then updateSkeletonAnglesFromPhysics s
    else s in
  let s :=
    set_animationState
      (mkAnimationState true (Some (deepClone (skeleton s))) (Some targetSkeleton0)
         (mkPoint (navelOffsetX s) (navelOffsetY s)) (mkPoint 0 0)
         durationFrames0 0 (Some targetMode0)) s in
  match animationFrameId s with
  | Some _ => s
  | None => set_animationFrameId (Some handle) s
  end.

(** [n] scheduler ticks of the blend. *)
Fixpoint ticks (n : nat) (s : AppState) : outcome AppState :=
  match n with
  | O => Done s
  | S n' => andThen (updateTransitionAnimation s) (ticks n')
  end.

(** ** Collapse: one settle pass *)

Definition verlet (gravity : R) (p : Physics.PhysicsPoint) : Physics.PhysicsPoint :=
  if Physics.isPinned p then p
  else
    let velX := Physics.x p - Physics.oldX p in
    let velY := Physics.y p - Physics.oldY p in
    Physics.mkPhysicsPoint (Physics.x p + velX) (Physics.y p + velY + gravity)
      (Physics.x p) (Physics.y p) (Physics.isPinned p).

(** [p.x += ox; p.y += oy]. *)
Definition shift (ox oy : R) (p : Physics.PhysicsPoint) : Physics.PhysicsPoint :=
  Physics.mkPhysicsPoint (Physics.x p + ox) (Physics.y p + oy)
    (Physics.oldX p) (Physics.oldY p) (Physics.isPinned p).

(** The body of the inner loop, for one stick.  Both point references of a
    stick of [physicsSticks] are elements of [physicsPoints]; a stick whose
    indices are not leaves the points alone. *)
Definition relaxStick (pts : list Physics.PhysicsPoint) (s : Physics.PhysicsStick)
  : list Physics.PhysicsPoint :=
  match nth_error pts (Physics.p0 s), nth_error pts (Physics.p1 s) with
  | Some a, Some b =>
      let dx := Physics.x b - Physics.x a in
      let dy := Physics.y b - Physics.y a in
      let dist := sqrt (dx * dx + dy * dy) in
      if Req_dec_T dist 0 then pts
      else
        let diff := Physics.length s - dist in
        let percent := diff / dist / 2 in
        let offsetX := dx * percent in
        let offsetY := dy * percent in
        let pts :=
          if Physics.isPinned a then pts
          else updNth pts (Physics.p0 s) (shift (- offsetX) (- offsetY)) in
        if Physics.isPinned b then pts
        else updNth pts (Physics.p1 s) (shift offsetX offsetY)
  | _, _ => pts
  end.

(** [for (let i = 0; i < 5; i++) for (const s of this.physicsSticks) ...]. *)
Definition relax (sticks : list Physics.PhysicsStick) (pts : list Physics.PhysicsPoint)
  : list Physics.PhysicsPoint :=
  Nat.iter 5 (fun pts => fold_left relaxStick sticks pts) pts.

Definition floorClamp (floorY : R) (p : Physics.PhysicsPoint) : Physics.PhysicsPoint :=
  if Rlt_dec floorY (Physics.y p)
  then Physics.mkPhysicsPoint (Physics.x p) floorY (Physics.oldX p) (Physics.oldY p)
         (Physics.isPinned p)
  else p.

Definition updateCollapse (s : AppState) (deltaTime : R) : AppState :=
  let gravity := 9.8 * 100 * deltaTime * deltaTime in
  let floorY := height (parentRect s) * 0.85 in
  let pts := map (verlet gravity) (physicsPoints s) in
  let pts := relax (physicsSticks s) pts in
  set_physicsPoints (map (floorClamp floorY) pts) s.

(** Distance between the two end points of a stick. *)
Definition stickDistance (pts : list Physics.PhysicsPoint) (s : Physics.PhysicsStick) : R :=
  match nth_error pts (Physics.p0 s), nth_error pts (Physics.p1 s) with
  | Some a, Some b =>
      sqrt ((Physics.x b - Physics.x a) * (Physics.x b - Physics.x a)
            + (Physics.y b - Physics.y a) * (Physics.y b - Physics.y a))
  | _, _ => 0
  end.

(** ** Auxiliary notions for the statements *)

(** A reference that leads to a bone of the tree. *)
Fixpoint valid (b : Bone) (r : ref) : Prop :=
  match r with
  | [] => True
  | i :: r' =>
      match nth_error (children b) i with
      | Some c => valid c r'
      | None => False
      end
  end.

(** The names of a tree, with its branching: what is fixed at load time. *)
Inductive Topology : Type := TNode (n : string) (cs : list Topology).

Fixpoint topology (b : Bone) : Topology :=
  match b with
  | mkBone n _ _ _ _ cs _ _ _ _ => TNode n (map topology cs)
  end.

(** The fields of a bone that are neither its angle, nor its children, nor
    the two derived ones. *)
Definition static (b : Bone) : string * R * option R * R * option R * option bool * nat :=
  (name b, length b, targetAngle b, mass b, zIndex b, visible b,
   Datatypes.length (children b)).

(** A two-bone leg of lengths [l1] and [l2] hanging from a zero-length Navel
    placed at the origin, already carrying a [globalPos] as
    [drawInteractiveModel] sets it before the solver runs. *)
Definition legRig (l1 l2 : R) : Bone :=
  mkBone "Navel" 0 0 None 10
    [lit "R_Hip" l1 0 10 (Some 3)
       [lit "R_Calf" l2 0 8 (Some 3)
          [lit "R_Foot" 50 0 3 (Some 3) []]]]
    (Some 0) None (Some (mkGlobalPos (mkPoint 0 0) (mkPoint 0 0))) None.

(** What the resolve pass leaves on the Navel of [legRig]. *)
Definition legRigNavelPos : GlobalPos :=
  mkGlobalPos (mkPoint 0 0) (mkPoint (0 + cos (0 + 0) * 0) (0 + sin (0 + 0) * 0)).

(** Assignments to [angle] leave the children of the object alone. *)
Definition keepsChildren (f : Bone -> Bone) : Prop :=
  forall b, children (f b) = children b.

(** The chain from L_Foot up to the Navel on the topology of
    [SKELETON_TREE]. *)
Definition footChain : list string :=
  ["L_Foot"; "L_Ankle_Joint"; "L_Calf"; "L_Hip"; "L_Hip_Base_Joint"; "L_Hip_Joint";
   "Pelvis"; "Pelvis_Base_Joint"].

Definition noAnimation : AnimationState :=
  mkAnimationState false None None (mkPoint 0 0) (mkPoint 0 0) 0 0 None.

(** The component after its constructor, on a canvas parent of the given
    size. *)
Definition initialState (w h : R) : AppState :=
  mkAppState (deepClone tensionPoseSkeleton) Tension 0 0 [] []
    (mkHeap (fun _ => mkPoint 0 0) 0%nat) [] [] noAnimation None None None
    (mkDOMRect w h) true [].

(** The component after its constructor and [toggleLock('L_Foot')], on an
    800 by 600 canvas parent. *)
Definition lockedFootState : AppState := toggleLock (initialState 800 600) "L_Foot".

(** The state component of an outcome that is not [Hung]. *)
Definition stateOf {A B : Type} (o : outcome (A * B)) : option A :=
  match o with
  | Done (a, _) | Threw (a, _) => Some a
  | Hung => None
  end.

(** A transition from [start0] to [target0], [n] frames long, whose current
    frame is [c]. *)
Definition blending (start0 target0 : Bone) (mode : MotionMode) (offsets : Point)
    (n c : nat) (s : AppState) : Prop :=
  animationState s
  = mkAnimationState true (Some start0) (Some target0) offsets (mkPoint 0 0)
      (INR n) (INR c) (Some mode)
  /\ topology (skeleton s) = topology start0.

(** [legRig] as the live skeleton of a component on an 800 by 600 canvas
    parent. *)
Definition rigState : AppState :=
  mkAppState (legRig 100 100) Tension 0 0 [] []
    (mkHeap (fun _ => mkPoint 0 0) 0%nat) [] [] noAnimation None None None
    (mkDOMRect 800 600) true [].

(** ** app.component.ts: reading and setting single values, visibility *)

Definition getBoneAngle (s : AppState) (nm : string) : R :=
  match findBone (skeleton s) nm with
  | Some bone => angle (deref (skeleton s) bone)
  | None => 0
  end.

(** [bone?.visible ?? true]. *)
Definition isBoneVisible (s : AppState) (boneName : string) : bool :=
  match findBone (skeleton s) boneName with
  | Some bone =>
      match visible (deref (skeleton s) bone) with
      | Some v => v
      | None => true
      end
  | None => true
  end.

(** The type ['Ground X' | 'Ground Y' | 'Global Rotation']. *)
Inductive Anchor : Type := GroundX | GroundY | GlobalRotation.

Definition getAnchorValue (s : AppState) (a : Anchor) : R :=
  match a with
  | GroundX => navelOffsetX s
  | GroundY => navelOffsetY s
  | GlobalRotation => getBoneAngle s "Navel"
  end.

(** [setAnchorValue(name, event)]; [value] is [parseFloat(event.target.value)]
    and [isSlider] is [event.type === 'input'], as in [setBoneAngle]. *)
Definition setAnchorValue (s : AppState) (a : Anchor) (value : R) (isSlider : bool)
  : AppState :=
  let s :=
    match a with
    | GroundX => set_navelOffsetX value s
    | GroundY => set_navelOffsetY value s
    | GlobalRotation => setBoneAngle s "Navel" value isSlider rad
    end in
  set_lastAdjustedGroup (Some "Core") s.

Definition anatomicalGroups (g : string) : option (list string) :=
  if String.eqb g "CORE" then Some ["Navel"; "Torso"; "Pelvis"; "Neck"; "Head"]
  else if String.eqb g "L_ARM" then Some ["L_Clavicle"; "L_Shoulder"; "L_Forearm"; "L_Hand"]
  else if String.eqb g "R_ARM" then Some ["R_Clavicle"; "R_Shoulder"; "R_Forearm"; "R_Hand"]
  else if String.eqb g "L_LEG" then Some ["L_Hip_Joint"; "L_Hip"; "L_Calf"; "L_Foot"]
  else if String.eqb g "R_LEG" then Some ["R_Hip_Joint"; "R_Hip"; "L_Calf"; "R_Foot"]
  else None.

Definition boneToGroupMap (nm : string) : option string :=
  if includes ["Torso"; "Neck"; "Head"] nm then Some "CORE"
  else if includes ["L_Shoulder"; "L_Forearm"; "L_Hand"] nm then Some "L_ARM"
  else if includes ["R_Shoulder"; "R_Forearm"; "R_Hand"] nm then Some "R_ARM"
  else if includes ["L_Hip"; "L_Calf"; "L_Foot"] nm then Some "L_LEG"
  else if includes ["R_Hip"; "R_Calf"; "R_Foot"] nm then Some "R_LEG"
  else None.

(** The local [setV] of [toggleBoneVisibility] and of [isolateGroup]:
    [visible] is assigned on the bone and on every descendant, from the
    bone's name. *)
Fixpoint setV (v : string -> bool) (bone : Bone) : Bone :=
  match bone with
  | mkBone n len a ta m cs z _ gp ga =>
      mkBone n len a ta m (map (setV v) cs) z (Some (v n)) gp ga
  end.

(** [!b.visible]: an absent flag is falsy. *)
Definition notVisible (b : Bone) : bool :=
  match visible b with
  | Some v => negb v
  | None => true
  end.

Definition toggleBoneVisibility (s : AppState) (boneName : string) : AppState :=
  let ns := deepClone (skeleton s) in
  match findBone ns boneName with
  | None => set_skeleton ns s
  | Some b =>
      let v := notVisible (deref ns b) in
      set_skeleton (update ns b (setV (fun _ => v))) s
  end.

Definition isolateGroup (s : AppState) (boneName : string) : AppState :=
  match boneToGroupMap boneName with
  | None => s
  | Some g0 =>
      match anatomicalGroups g0 with
      | Some g => set_skeleton (setV (includes g) (deepClone (skeleton s))) s
      | None => s
      end
  end.

(** A leg rig with bones of length 150 as the live skeleton of a component
    on an 800 by 600 canvas parent, with a lock on R_Foot whose point object
    holds (400, 0). *)
Definition pinnedRigState : AppState :=
  mkAppState (legRig 150 150) Tension 0 0 [("R_Foot", mkLockEntry 0%nat)] []
    (mkHeap (fun _ => mkPoint 400 0) 1%nat) [] [] noAnimation None None None
    (mkDOMRect 800 600) true [].

(** ** app.component.ts: building the ragdoll from the pose *)

Definition set_physicsSticks (v : list Physics.PhysicsStick) (s : AppState) : AppState :=
  mkAppState (skeleton s) (motionMode s) (navelOffsetX s) (navelOffsetY s)
    (lockedBones s) (lockedChainCache s) (heap s) (physicsPoints s) v
    (animationState s) (animationFrameId s) (lastAdjustedGroup s)
    (activeControl s) (parentRect s) (ctx s)
    (boneToPointsMap s).

Definition set_boneToPointsMap (v : list (string * (nat * nat))) (s : AppState) : AppState :=
  mkAppState (skeleton s) (motionMode s) (navelOffsetX s) (navelOffsetY s)
    (lockedBones s) (lockedChainCache s) (heap s) (physicsPoints s) (physicsSticks s)
    (animationState s) (animationFrameId s) (lastAdjustedGroup s)
    (activeControl s) (parentRect s) (ctx s)
    v.

(** The names of the bones of a tree, in the order [processBone] visits
    them. *)
Fixpoint names (b : Bone) : list string :=
  match b with
  | mkBone n _ _ _ _ cs _ _ _ _ => n :: List.concat (map names cs)
  end.

Section CollapseInit.

(** [n.toFixed(2)], the decimal rendering of a number: any function from
    numbers to strings. *)
Variable toFixed2 : R -> string.

(** [`${pos.x.toFixed(2)},${pos.y.toFixed(2)}`]. *)
Definition pointKey (pos : Point) : string :=
  String.append (toFixed2 (x pos)) (String.append "," (toFixed2 (y pos))).

(** The key under which a particle at its present position is filed. *)
Definition particleKey (p : Physics.PhysicsPoint) : string :=
  pointKey (mkPoint (Physics.x p) (Physics.y p)).

(** The local [pointMap] of [initializeCollapseFromCurrentPose], its point
    objects as indices into [physicsPoints], next to the component. *)
Definition Builder : Type := (list (string * nat) * AppState)%type.

Definition getOrCreatePoint (initialVelocity pos : Point) (b : Builder) : nat * Builder :=
  let key := pointKey pos in
  match mapGet (fst b) key with
  | Some p => (p, b)
  | None =>
      let newPoint :=
        Physics.mkPhysicsPoint (x pos) (y pos)
          (x pos - x initialVelocity * (1 / 60))
          (y pos - y initialVelocity * (1 / 60))
          false in
      let p := Datatypes.length (physicsPoints (snd b)) in
      (p, (mapSet (fst b) key p,
           set_physicsPoints (physicsPoints (snd b) ++ [newPoint]) (snd b)))
  end.

(** The body of [processBone] before it descends into the children. *)
Definition processOwn (initialVelocity : Point) (n : string) (len : R)
    (gp : option GlobalPos) (b : Builder) : Builder :=
  match gp with
  | Some gp =>
      let (p0, b) := getOrCreatePoint initialVelocity (start gp) b in
      let (p1, b) := getOrCreatePoint initialVelocity (end_ gp) b in
      let s := set_boneToPointsMap (mapSet (boneToPointsMap (snd b)) n (p0, p1)) (snd b) in
      (fst b,
       if Rlt_dec 0 len
       then set_physicsSticks (physicsSticks s ++ [Physics.mkPhysicsStick p0 p1 len]) s
       else s)
  | None => b
  end.

Fixpoint processBone (initialVelocity : Point) (bone : Bone) (b : Builder) {struct bone}
  : Builder :=
  match bone with
  | mkBone n len _ _ _ cs _ _ gp _ =>
      fold_left (fun b child => processBone initialVelocity child b) cs
        (processOwn initialVelocity n len gp b)
  end.

Definition initializeCollapseFromCurrentPose (s : AppState) (initialVelocity : Point)
  : AppState :=
  let s := set_boneToPointsMap [] (set_physicsSticks [] (set_physicsPoints [] s)) in
  let frameSkeleton := deepClone (skeleton s) in
  let floorY := height (parentRect s) * 0.85 in
  let navelX := width (parentRect s) / 2 + navelOffsetX s in
  let initialNavelY := (floorY - getLegLength) - navelOffsetY s in
  let frameSkeleton := computeGlobalPositions frameSkeleton navelX initialNavelY 0 in
  snd (processBone initialVelocity frameSkeleton ([], s)).

(** [setCollapseMode()]; [handle] is what [requestAnimationFrame] returns
    when a loop has to be started ([lastTimestamp] is not part of the
    state). *)
Definition setCollapseMode (s : AppState) (handle : nat) : AppState :=
  let s := set_motionMode Collapse s in
  let s := initializeCollapseFromCurrentPose s (mkPoint 0 0) in
  match animationFrameId s with
  | Some _ => s
  | None => set_animationFrameId (Some handle) s
  end.

(** The point map files every particle of the array, and nothing else,
    under the key of its position. *)
Definition indexed (b : Builder) : Prop :=
  (forall k i, mapGet (fst b) k = Some i ->
               exists p, nth_error (physicsPoints (snd b)) i = Some p /\ particleKey p = k)
  /\ (forall i p, nth_error (physicsPoints (snd b)) i = Some p ->
                  mapGet (fst b) (particleKey p) = Some i).

(** A particle as [getOrCreatePoint] makes it. *)
Definition fresh (initialVelocity : Point) (p : Physics.PhysicsPoint) : Prop :=
  Physics.isPinned p = false
  /\ Physics.oldX p = Physics.x p - x initialVelocity * (1 / 60)
  /\ Physics.oldY p = Physics.y p - y initialVelocity * (1 / 60).

(** A stick of positive length between two particles of the array. *)
Definition joins (pts : list Physics.PhysicsPoint) (st : Physics.PhysicsStick) : Prop :=
  0 < Physics.length st
  /\ (Physics.p0 st < Datatypes.length pts)%nat
  /\ (Physics.p1 st < Datatypes.length pts)%nat.

(** What a stretch of the traversal does to the builder: entries of the
    point map stay, particles and sticks are appended, and the pose, the
    mode and the frame handle are not touched. *)
Definition grows (initialVelocity : Point) (b b' : Builder) : Prop :=
  (forall k i, mapGet (fst b) k = Some i -> mapGet (fst b') k = Some i)
  /\ (exists l, physicsPoints (snd b') = physicsPoints (snd b) ++ l
                /\ Forall (fresh initialVelocity) l)
  /\ (exists l, physicsSticks (snd b') = physicsSticks (snd b) ++ l
                /\ Forall (joins (physicsPoints (snd b'))) l)
  /\ skeleton (snd b') = skeleton (snd b)
  /\ motionMode (snd b') = motionMode (snd b)
  /\ animationFrameId (snd b') = animationFrameId (snd b).

(** Every bone of the tree that carries a [globalPos] has an entry in
    [boneToPointsMap], made of the particles filed under the keys of its two
    end points. *)
Definition entries (b : Builder) (bone : Bone) : Prop :=
  forall q gp,
    valid bone q -> globalPos (deref bone q) = Some gp ->
    exists i0 i1,
      mapGet (boneToPointsMap (snd b)) (name (deref bone q)) = Some (i0, i1)
      /\ mapGet (fst b) (pointKey (start gp)) = Some i0
      /\ mapGet (fst b) (pointKey (end_ gp)) = Some i1.

End CollapseInit.

(** [Number.prototype.toFixed] with two fraction digits (ECMAScript
    21.1.3.3) for a number of magnitude below 10^21: with [n] the integer
    nearest to a hundred times the magnitude (the larger one of two nearest),
    the decimal digits of [n] with a point before the last two, and a minus
    sign in front of a negative number.  (From 10^21 on JavaScript switches
    to the exponent notation of [toString].) *)
Definition digits (n : Z) : string := NilZero.string_of_uint (N.to_uint (Z.to_N n)).

Definition toFixed_two (x : R) : string :=
  let a := if Rlt_dec x 0 then - x else x in
  let n := Int_part (a * 100 + 1 / 2) in
  let m :=
    String.append (digits (n / 100))
      (String.append "."
         (String.append (digits (n mod 100 / 10)) (digits (n mod 10)))) in
  if Rlt_dec x 0 then String.append "-" m else m.

(** * Theorems *)

(** ** Trees and references *)

Lemma deepClone_id (b : Bone) : deepClone b = b.
Proof.
  induction b as [b IH] using Bone_tree_ind.
  destruct b as [n len a ta m cs z v gp ga]; cbn in *.
  f_equal. induction IH as [|c cs' Hc _ IHcs]; cbn; [reflexivity|].
  now rewrite Hc, IHcs.
Qed.

Lemma nth_error_updNth {A : Type} (l : list A) (i j : nat) (f : A -> A) :
  nth_error (updNth l j f) i =
  if Nat.eqb i j then option_map f (nth_error l i) else nth_error l i.
Proof.
  revert i j; induction l as [|a l IH]; intros [|i] [|j]; cbn; try reflexivity.
  - now destruct (Nat.eqb _ _).
  - apply IH.
Qed.

Lemma length_updNth {A : Type} (l : list A) (j : nat) (f : A -> A) :
  Datatypes.length (updNth l j f) = Datatypes.length l.
Proof.
  revert j; induction l as [|a l IH]; intros [|j]; cbn; auto.
Qed.

Lemma children_compute (b : Bone) (px py pa : R) :
  children (computeGlobalPositions b px py pa) =
  map (fun child =>
         computeGlobalPositions child
           (px + cos (pa + angle b) * length b)
           (py + sin (pa + angle b) * length b) (pa + angle b))
      (children b).
Proof. now destruct b. Qed.

(** Reading through a reference commutes with the resolve pass. *)
Lemma deref_compute (r : ref) :
  forall (b : Bone) (px py pa : R),
  exists qx qy qa,
    deref (computeGlobalPositions b px py pa) r =
    computeGlobalPositions (deref b r) qx qy qa.
Proof.
  induction r as [|i r IH]; intros b px py pa; cbn.
  - now exists px, py, pa.
  - rewrite children_compute, nth_error_map.
    destruct (nth_error (children b) i) as [c|]; cbn.
    + apply IH.
    + now exists px, py, pa.
Qed.

Lemma static_compute (b : Bone) (px py pa : R) :
  static (computeGlobalPositions b px py pa) = static b
  /\ angle (computeGlobalPositions b px py pa) = angle b.
Proof.
  destruct b; unfold static; cbn. now rewrite length_map.
Qed.

Lemma resolved_everywhere (r : ref) (b : Bone) (px py pa : R) :
  exists gp ga,
    globalPos (deref (computeGlobalPositions b px py pa) r) = Some gp
    /\ globalAngle (deref (computeGlobalPositions b px py pa) r) = Some ga.
Proof.
  destruct (deref_compute r b px py pa) as (qx & qy & qa & E).
  rewrite E. destruct (deref b r); cbn. eauto.
Qed.

Lemma valid_compute (r : ref) :
  forall (b : Bone) (px py pa : R),
  valid b r -> valid (computeGlobalPositions b px py pa) r.
Proof.
  induction r as [|i r IH]; intros b px py pa; cbn; [trivial|].
  rewrite children_compute, nth_error_map.
  destruct (nth_error (children b) i) as [c|]; cbn; [apply IH | trivial].
Qed.

Lemma setAngle_keepsChildren (a : R) : keepsChildren (setAngle a).
Proof. now intros b. Qed.

Lemma valid_update (f : Bone -> Bone) (Hf : keepsChildren f) (q : ref) :
  forall (r : ref) (b : Bone), valid b q -> valid (update b r f) q.
Proof.
  induction q as [|i q IH]; intros r b; cbn; [trivial|].
  destruct r as [|j r]; cbn.
  - now rewrite Hf.
  - rewrite nth_error_updNth.
    destruct (Nat.eqb i j); destruct (nth_error (children b) i); cbn; auto.
Qed.

(** Reading back the object that was assigned to. *)
Lemma deref_update_same (f : Bone -> Bone) (r : ref) :
  forall b : Bone, valid b r -> deref (update b r f) r = f (deref b r).
Proof.
  induction r as [|i r IH]; intros b; cbn; [reflexivity|].
  rewrite nth_error_updNth, Nat.eqb_refl.
  destruct (nth_error (children b) i) as [c|]; cbn; [apply IH | contradiction].
Qed.

(** An assignment to [angle] through [r] is invisible, as far as [static],
    [globalPos] and [globalAngle] go, through every reference, and as far
    as [angle] goes through every other reference to a bone. *)
Lemma deref_update_setAngle (a : R) (q : ref) :
  forall (r : ref) (b : Bone),
    static (deref (update b r (setAngle a)) q) = static (deref b q)
    /\ globalPos (deref (update b r (setAngle a)) q) = globalPos (deref b q)
    /\ globalAngle (deref (update b r (setAngle a)) q) = globalAngle (deref b q)
    /\ (valid b q -> q <> r ->
        angle (deref (update b r (setAngle a)) q) = angle (deref b q)).
Proof.
  induction q as [|i q IH]; intros r b.
  - destruct r as [|j r]; cbn.
    + repeat split; try reflexivity. intros _ H; now elim H.
    + unfold static; cbn. rewrite length_updNth. repeat split; reflexivity.
  - destruct r as [|j r].
    + cbn. destruct (nth_error (children b) i) as [c|]; repeat split;
        try reflexivity; contradiction.
    + cbn [update deref valid]. cbn [children setChildren].
      rewrite nth_error_updNth.
      destruct (Nat.eqb_spec i j) as [->|Hij].
      * destruct (nth_error (children b) j) as [c|]; cbn [option_map].
        -- destruct (IH r c) as (H1 & H2 & H3 & H4).
           repeat split; auto. intros Hv Hne. apply H4; congruence.
        -- unfold static; cbn. rewrite length_updNth. repeat split; reflexivity.
      * destruct (nth_error (children b) i) as [c|].
        -- repeat split; reflexivity.
        -- unfold static; cbn. rewrite length_updNth. repeat split; reflexivity.
Qed.

Lemma firstChild_spec (f : Bone -> option ref) (cs : list Bone) :
  forall (k : nat) (r : ref),
    firstChild f cs k = Some r ->
    exists i c r', r = (k + i)%nat :: r' /\ nth_error cs i = Some c /\ f c = Some r'.
Proof.
  induction cs as [|c cs IH]; intros k r; cbn; [discriminate|].
  destruct (f c) as [r0|] eqn:E.
  - intros [= <-]. exists 0%nat, c, r0. now rewrite Nat.add_0_r.
  - intros H. apply IH in H as (i & c' & r' & -> & Hn & Hf).
    exists (S i), c', r'. repeat split; auto. f_equal; lia.
Qed.

(** [findBone] returns a reference to a bone of that name. *)
Lemma findBone_spec (nm : string) (b : Bone) :
  forall r : ref, findBone b nm = Some r -> valid b r /\ name (deref b r) = nm.
Proof.
  induction b as [b IH] using Bone_tree_ind.
  destruct b as [n len a ta m cs z v gp ga]; cbn in *.
  intros r. destruct (String.eqb_spec n nm) as [->|_].
  - intros [= <-]; cbn; auto.
  - intros H. apply firstChild_spec in H as (i & c & r' & -> & Hn & Hf).
    cbn. rewrite Hn.
    rewrite Forall_forall in IH. apply IH; [|exact Hf].
    eapply nth_error_In; eauto.
Qed.

Lemma parentScan_spec (nm : string) (f : Bone -> option ref) (cs : list Bone) :
  forall (k : nat) (r : ref),
    parentScan nm f cs k = Some r ->
    r = [] \/ exists i c r', r = (k + i)%nat :: r' /\ nth_error cs i = Some c /\ f c = Some r'.
Proof.
  induction cs as [|c cs IH]; intros k r; cbn; [discriminate|].
  destruct (String.eqb (name c) nm).
  - intros [= <-]; now left.
  - destruct (f c) as [r0|] eqn:E.
    + intros [= <-]. right. exists 0%nat, c, r0. now rewrite Nat.add_0_r.
    + intros H. apply IH in H as [->|(i & c' & r' & -> & Hn & Hf)]; [now left|].
      right. exists (S i), c', r'. repeat split; auto. f_equal; lia.
Qed.

Lemma findParentBone_valid (nm : string) (b : Bone) :
  forall r : ref, findParentBone b nm = Some r -> valid b r.
Proof.
  induction b as [b IH] using Bone_tree_ind.
  destruct b as [n len a ta m cs z v gp ga]; cbn in *.
  intros r H. apply parentScan_spec in H as [->|(i & c & r' & -> & Hn & Hf)]; cbn; auto.
  rewrite Hn. rewrite Forall_forall in IH. apply IH; [|exact Hf].
  eapply nth_error_In; eauto.
Qed.

Lemma topology_children (b c : Bone) :
  topology b = topology c ->
  name b = name c /\ map topology (children b) = map topology (children c).
Proof. destruct b, c; cbn. now intros [= -> ->]. Qed.

Lemma topology_compute (b : Bone) :
  forall px py pa : R, topology (computeGlobalPositions b px py pa) = topology b.
Proof.
  induction b as [b IH] using Bone_tree_ind.
  destruct b as [n len a ta m cs z v gp ga]; cbn in *. intros px py pa. f_equal.
  rewrite map_map. induction IH as [|c cs Hc _ IHcs]; cbn; [reflexivity|].
  now rewrite Hc, IHcs.
Qed.

Lemma map_updNth_same {A B : Type} (g : A -> B) (f : A -> A) (l : list A) :
  (forall a, g (f a) = g a) -> forall i, map g (updNth l i f) = map g l.
Proof.
  intros H. induction l as [|a l IH]; intros [|i]; cbn; try reflexivity.
  - now rewrite H.
  - now rewrite IH.
Qed.

Lemma topology_update_setAngle (a : R) (r : ref) :
  forall b : Bone, topology (update b r (setAngle a)) = topology b.
Proof.
  induction r as [|i r IH]; intros b.
  - now destruct b.
  - destruct b as [n len an ta m cs z v gp ga]; cbn.
    f_equal. now apply map_updNth_same.
Qed.

Lemma length_deref_compute (r : ref) (b : Bone) (px py pa : R) :
  length (deref (computeGlobalPositions b px py pa) r) = length (deref b r).
Proof.
  destruct (deref_compute r b px py pa) as (qx & qy & qa & ->).
  now destruct (deref b r).
Qed.

Lemma getIKChainNames_distinct (e n1 n2 : string) :
  getIKChainNames e = Some [n1; n2] -> n1 <> n2.
Proof.
  unfold getIKChainNames.
  repeat match goal with |- context [String.eqb ?a ?b] => destruct (String.eqb a b) end;
    intros [= <- <-] || intros [=]; discriminate.
Qed.

(** Two assignments to [angle] through distinct references are both read
    back. *)
Lemma angles_after (t : Bone) (r1 r2 : ref) (a1 a2 : R) :
  valid t r1 -> valid t r2 -> r1 <> r2 ->
  angle (deref (update (update t r1 (setAngle a1)) r2 (setAngle a2)) r1) = a1
  /\ angle (deref (update (update t r1 (setAngle a1)) r2 (setAngle a2)) r2) = a2.
Proof.
  intros V1 V2 Hne. split.
  - destruct (deref_update_setAngle a2 r1 r2 (update t r1 (setAngle a1)))
      as (_ & _ & _ & H).
    rewrite H; auto using valid_update, setAngle_keepsChildren.
    now rewrite deref_update_same.
  - rewrite deref_update_same; auto using valid_update, setAngle_keepsChildren.
Qed.

(** ** Two-bone IK: what the solver computes on a chain that is there *)

Section Chain.
Variables (root : Bone) (endEffectorName : string) (targetPos : Point).
Variables (n1 n2 : string) (bone1 bone2 parentOfBone1 : ref).
Variables (gp pgp : GlobalPos) (parentWorldAngle : R).

Hypothesis Hchain : getIKChainNames endEffectorName = Some [n1; n2].
Hypothesis Hbone1 : findBone root n1 = Some bone1.
Hypothesis Hbone2 : findBone root n2 = Some bone2.
Hypothesis Hparent : findParentBone root n1 = Some parentOfBone1.
Hypothesis Hroot : globalPos root = Some gp.
Hypothesis Hpgp :
  globalPos (deref (computeGlobalPositions root (x (start gp)) (y (start gp)) 0)
                   parentOfBone1) = Some pgp.
Hypothesis Hpwa :
  globalAngle (deref (computeGlobalPositions root (x (start gp)) (y (start gp)) 0)
                     parentOfBone1) = Some parentWorldAngle.

Lemma solveTwoBoneIK_chain :
  let resolved := computeGlobalPositions root (x (start gp)) (y (start gp)) 0 in
  let l1 := length (deref root bone1) in
  let l2 := length (deref root bone2) in
  let dx := x targetPos - x (end_ pgp) in
  let dy := y targetPos - y (end_ pgp) in
  let d := sqrt (dx * dx + dy * dy) in
  solveTwoBoneIK root endEffectorName targetPos =
  if Rlt_dec (l1 + l2) d then
    Done (update (update resolved bone1 (setAngle (atan2 dy dx - parentWorldAngle)))
                 bone2 (setAngle 0))
  else
    Done (update
            (update resolved bone1
               (setAngle
                  (atan2 dy dx
                   + bendDirection endEffectorName
                     * acos (Rmax (-1) (Rmin 1 ((d * d + l1 * l1 - l2 * l2) / (2 * d * l1))))
                   - parentWorldAngle)))
            bone2
            (setAngle
               (bendDirection endEffectorName
                * (acos (Rmax (-1) (Rmin 1 ((l1 * l1 + l2 * l2 - d * d) / (2 * l1 * l2))))
                   - PI)))).
Proof.
  intros resolved l1 l2 dx dy d.
  unfold solveTwoBoneIK. rewrite Hchain, Hbone1, Hbone2.
  destruct (findBone_spec _ _ _ Hbone1) as [_ ->].
  rewrite Hparent, Hroot, Hpgp, Hpwa.
  rewrite !length_deref_compute.
  reflexivity.
Qed.

Lemma chain_refs :
  let resolved := computeGlobalPositions root (x (start gp)) (y (start gp)) 0 in
  valid resolved bone1 /\ valid resolved bone2 /\ bone1 <> bone2.
Proof.
  intros resolved.
  destruct (findBone_spec _ _ _ Hbone1) as [V1 N1].
  destruct (findBone_spec _ _ _ Hbone2) as [V2 N2].
  repeat split; try now apply valid_compute.
  intros ->. apply (getIKChainNames_distinct _ _ _ Hchain). congruence.
Qed.
End Chain.

(** ** Kinematics: the global pose resolver *)

(** C1.  The resolver sets [globalAngle] to [parentWorldAngle + angle], the
    start point to the origin, the end point to the origin plus
    [length * (cos globalAngle, sin globalAngle)], keeps every other field,
    and resolves each child from this bone's end point and [globalAngle]; a
    bone at local angle [theta] resolved from the origin with parent angle 0
    ends at [(length * cos theta, length * sin theta)]. *)
Theorem computeGlobalPositions_spec :
  (forall (bone : Bone) (originX originY parentWorldAngle : R),
     let r := computeGlobalPositions bone originX originY parentWorldAngle in
     let ga := parentWorldAngle + angle bone in
     let ex := originX + length bone * cos ga in
     let ey := originY + length bone * sin ga in
     globalAngle r = Some ga /\
     globalPos r = Some (mkGlobalPos (mkPoint originX originY) (mkPoint ex ey)) /\
     children r = map (fun child => computeGlobalPositions child ex ey ga) (children bone) /\
     static r = static bone /\ angle r = angle bone) /\
  (forall (bone : Bone) (theta : R),
     let r := computeGlobalPositions (setAngle theta bone) 0 0 0 in
     option_map end_ (globalPos r) =
       Some (mkPoint (length bone * cos theta) (length bone * sin theta))).
Proof.
  split.
  - intros [n len a ta m cs z v gp ga0] ox oy pa; cbn.
    replace (ox + cos (pa + a) * len) with (ox + len * cos (pa + a)) by ring.
    replace (oy + sin (pa + a) * len) with (oy + len * sin (pa + a)) by ring.
    unfold static; cbn. rewrite length_map. repeat split; reflexivity.
  - intros [n len a ta m cs z v gp ga0] theta; cbn.
    replace (0 + theta) with theta by ring.
    do 2 f_equal; ring.
Qed.

(** ** Two-bone IK *)

(** The reachable branch, for a chain that is there. *)
Lemma reachable_angles :
  forall (root : Bone) (endEffectorName : string) (targetPos : Point)
         (n1 n2 : string) (bone1 bone2 parentOfBone1 : ref)
         (gp pgp : GlobalPos) (parentWorldAngle : R),
    getIKChainNames endEffectorName = Some [n1; n2] ->
    findBone root n1 = Some bone1 ->
    findBone root n2 = Some bone2 ->
    findParentBone root n1 = Some parentOfBone1 ->
    globalPos root = Some gp ->
    let resolved := computeGlobalPositions root (x (start gp)) (y (start gp)) 0 in
    globalPos (deref resolved parentOfBone1) = Some pgp ->
    globalAngle (deref resolved parentOfBone1) = Some parentWorldAngle ->
    let l1 := length (deref root bone1) in
    let l2 := length (deref root bone2) in
    let dx := x targetPos - x (end_ pgp) in
    let dy := y targetPos - y (end_ pgp) in
    let d := sqrt (dx * dx + dy * dy) in
    d <= l1 + l2 ->
    let angle1 := acos (Rmax (-1) (Rmin 1 ((d * d + l1 * l1 - l2 * l2) / (2 * d * l1)))) in
    let angle2 := acos (Rmax (-1) (Rmin 1 ((l1 * l1 + l2 * l2 - d * d) / (2 * l1 * l2)))) in
    exists root',
      solveTwoBoneIK root endEffectorName targetPos = Done root'
      /\ angle (deref root' bone1)
         = atan2 dy dx + bendDirection endEffectorName * angle1 - parentWorldAngle
      /\ angle (deref root' bone2) = bendDirection endEffectorName * (angle2 - PI).
Proof.
  intros root e target n1 n2 b1 b2 par gp pgp pwa Hc H1 H2 Hp Hr resolved Hg Ha
         l1 l2 dx dy d Hreach angle1 angle2.
  rewrite (solveTwoBoneIK_chain root e target n1 n2 b1 b2 par gp pgp pwa Hc H1 H2 Hp Hr Hg Ha).
  fold l1 l2 dx dy d.
  destruct (Rlt_dec (l1 + l2) d) as [Hlt|_]; [lra|].
  destruct (chain_refs root e n1 n2 b1 b2 gp Hc H1 H2) as (V1 & V2 & Hne).
  eexists; split; [reflexivity|].
  exact (angles_after _ b1 b2
           (atan2 dy dx + bendDirection e * angle1 - pwa)
           (bendDirection e * (angle2 - PI)) V1 V2 Hne).
Qed.

Lemma acos_half : acos (1 / 2) = PI / 3.
Proof.
  rewrite <- cos_PI3. apply acos_cos.
  pose proof PI_RGT_0. lra.
Qed.

Lemma sqrt_of_square (a c : R) : 0 <= c -> a = c * c -> sqrt a = c.
Proof. intros Hc ->. now apply sqrt_square. Qed.

Lemma atan2_on_axis (dx : R) : 0 < dx -> atan2 0 dx = 0.
Proof.
  intros H. unfold atan2. destruct (Rlt_dec 0 dx); [|contradiction].
  replace (0 / dx) with 0 by (field; lra). apply atan_0.
Qed.

(** C2.  On a reachable target ([d <= l1 + l2], with [l1], [l2], [d]
    positive) the solver sets [bone1.angle] to
    [atan2(target - chainRoot) + bendDirection * angle1] minus the world angle
    of the chain root, and [bone2.angle] to [bendDirection * (angle2 - PI)],
    where [angle1] and [angle2] are the clamped law-of-cosines angles and
    [bendDirection] is -1 exactly for L_Foot and L_Hand and +1 otherwise. *)
Theorem solveTwoBoneIK_reachable :
  forall (root : Bone) (endEffectorName : string) (targetPos : Point)
         (n1 n2 : string) (bone1 bone2 parentOfBone1 : ref)
         (gp pgp : GlobalPos) (parentWorldAngle : R),
    getIKChainNames endEffectorName = Some [n1; n2] ->
    findBone root n1 = Some bone1 ->
    findBone root n2 = Some bone2 ->
    findParentBone root n1 = Some parentOfBone1 ->
    globalPos root = Some gp ->
    let resolved := computeGlobalPositions root (x (start gp)) (y (start gp)) 0 in
    globalPos (deref resolved parentOfBone1) = Some pgp ->
    globalAngle (deref resolved parentOfBone1) = Some parentWorldAngle ->
    let l1 := length (deref root bone1) in
    let l2 := length (deref root bone2) in
    let dx := x targetPos - x (end_ pgp) in
    let dy := y targetPos - y (end_ pgp) in
    let d := sqrt (dx * dx + dy * dy) in
    0 < l1 -> 0 < l2 -> 0 < d -> d <= l1 + l2 ->
    let angle1 := acos (Rmax (-1) (Rmin 1 ((d * d + l1 * l1 - l2 * l2) / (2 * d * l1)))) in
    let angle2 := acos (Rmax (-1) (Rmin 1 ((l1 * l1 + l2 * l2 - d * d) / (2 * l1 * l2)))) in
    exists root',
      solveTwoBoneIK root endEffectorName targetPos = Done root'
      /\ angle (deref root' bone1)
         = atan2 dy dx + bendDirection endEffectorName * angle1 - parentWorldAngle
      /\ angle (deref root' bone2) = bendDirection endEffectorName * (angle2 - PI)
      /\ (endEffectorName = "L_Foot" \/ endEffectorName = "L_Hand"
          -> bendDirection endEffectorName = -1)
      /\ (endEffectorName <> "L_Foot" -> endEffectorName <> "L_Hand"
          -> bendDirection endEffectorName = 1).
Proof.
  intros root e target n1 n2 b1 b2 par gp pgp pwa Hc H1 H2 Hp Hr resolved Hg Ha
         l1 l2 dx dy d _ _ _ Hreach angle1 angle2.
  destruct (reachable_angles root e target n1 n2 b1 b2 par gp pgp pwa
              Hc H1 H2 Hp Hr Hg Ha Hreach) as (root' & E & A1 & A2).
  exists root'. repeat split.
  - exact E.
  - exact A1.
  - exact A2.
  - unfold bendDirection. intros [-> | ->]; reflexivity.
  - unfold bendDirection. intros N1 N2.
    destruct (String.eqb_spec e "L_Foot"); [contradiction|].
    destruct (String.eqb_spec e "L_Hand"); [contradiction|]. reflexivity.
Qed.

(** C3.  On a target farther from the chain root than [l1 + l2] the solver
    returns without error, [bone1.angle] is [atan2(target - chainRoot)] minus
    the world angle of the chain root, and [bone2.angle] is 0. *)
Theorem solveTwoBoneIK_unreachable :
  forall (root : Bone) (endEffectorName : string) (targetPos : Point)
         (n1 n2 : string) (bone1 bone2 parentOfBone1 : ref)
         (gp pgp : GlobalPos) (parentWorldAngle : R),
    getIKChainNames endEffectorName = Some [n1; n2] ->
    findBone root n1 = Some bone1 ->
    findBone root n2 = Some bone2 ->
    findParentBone root n1 = Some parentOfBone1 ->
    globalPos root = Some gp ->
    let resolved := computeGlobalPositions root (x (start gp)) (y (start gp)) 0 in
    globalPos (deref resolved parentOfBone1) = Some pgp ->
    globalAngle (deref resolved parentOfBone1) = Some parentWorldAngle ->
    let l1 := length (deref root bone1) in
    let l2 := length (deref root bone2) in
    let dx := x targetPos - x (end_ pgp) in
    let dy := y targetPos - y (end_ pgp) in
    let d := sqrt (dx * dx + dy * dy) in
    l1 + l2 < d ->
    exists root',
      solveTwoBoneIK root endEffectorName targetPos = Done root'
      /\ angle (deref root' bone1) = atan2 dy dx - parentWorldAngle
      /\ angle (deref root' bone2) = 0.
Proof.
  intros root e target n1 n2 b1 b2 par gp pgp pwa Hc H1 H2 Hp Hr resolved Hg Ha
         l1 l2 dx dy d Hfar.
  rewrite (solveTwoBoneIK_chain root e target n1 n2 b1 b2 par gp pgp pwa Hc H1 H2 Hp Hr Hg Ha).
  fold l1 l2 dx dy d.
  destruct (Rlt_dec (l1 + l2) d) as [_|Hn]; [|contradiction].
  destruct (chain_refs root e n1 n2 b1 b2 gp Hc H1 H2) as (V1 & V2 & Hne).
  eexists; split; [reflexivity|].
  exact (angles_after _ b1 b2 (atan2 dy dx - pwa) 0 V1 V2 Hne).
Qed.

(** C7 (as the code has it).  With [l1 = l2 = 100] and a target at distance
    100 from the chain root, [angle2] is [acos (1/2) = PI/3], so the solver
    sets [bone2.angle] to [bendDirection * (PI/3 - PI)]. *)
Theorem solveTwoBoneIK_fold :
  forall (root : Bone) (endEffectorName : string) (targetPos : Point)
         (n1 n2 : string) (bone1 bone2 parentOfBone1 : ref)
         (gp pgp : GlobalPos) (parentWorldAngle : R),
    getIKChainNames endEffectorName = Some [n1; n2] ->
    findBone root n1 = Some bone1 ->
    findBone root n2 = Some bone2 ->
    findParentBone root n1 = Some parentOfBone1 ->
    globalPos root = Some gp ->
    let resolved := computeGlobalPositions root (x (start gp)) (y (start gp)) 0 in
    globalPos (deref resolved parentOfBone1) = Some pgp ->
    globalAngle (deref resolved parentOfBone1) = Some parentWorldAngle ->
    let dx := x targetPos - x (end_ pgp) in
    let dy := y targetPos - y (end_ pgp) in
    length (deref root bone1) = 100 ->
    length (deref root bone2) = 100 ->
    sqrt (dx * dx + dy * dy) = 100 ->
    exists root',
      solveTwoBoneIK root endEffectorName targetPos = Done root'
      /\ angle (deref root' bone2) = bendDirection endEffectorName * (PI / 3 - PI).
Proof.
  intros root e target n1 n2 b1 b2 par gp pgp pwa Hc H1 H2 Hp Hr resolved Hg Ha
         dx dy Hl1 Hl2 Hd.
  destruct (reachable_angles root e target n1 n2 b1 b2 par gp pgp pwa
              Hc H1 H2 Hp Hr Hg Ha) as (root' & E & _ & A2).
  - fold dx dy. rewrite Hl1, Hl2, Hd. lra.
  - exists root'. split; [exact E|].
    rewrite A2. fold dx dy. rewrite Hl1, Hl2, Hd.
    replace ((100 * 100 + 100 * 100 - 100 * 100) / (2 * 100 * 100)) with (1 / 2) by field.
    rewrite Rmin_right by lra. rewrite Rmax_right by lra.
    now rewrite acos_half.
Qed.

Lemma legRig_distance (tx : R) :
  0 <= tx ->
  sqrt ((tx - (0 + cos (0 + 0) * 0)) * (tx - (0 + cos (0 + 0) * 0))
        + (0 - (0 + sin (0 + 0) * 0)) * (0 - (0 + sin (0 + 0) * 0))) = tx.
Proof. intros H. apply sqrt_of_square; [exact H | ring]. Qed.

Lemma solveTwoBoneIK_reachable_witness :
  exists root',
    solveTwoBoneIK (legRig 100 100) "R_Foot" (mkPoint 120 0) = Done root'
    /\ angle (deref root' [0%nat; 0%nat])
       = 1 * (acos (Rmax (-1) (Rmin 1 ((100 * 100 + 100 * 100 - 120 * 120) / (2 * 100 * 100))))
              - PI).
Proof.
  destruct (solveTwoBoneIK_reachable (legRig 100 100) "R_Foot" (mkPoint 120 0)
              "R_Hip" "R_Calf" [0%nat] [0%nat; 0%nat] []
              (mkGlobalPos (mkPoint 0 0) (mkPoint 0 0)) legRigNavelPos (0 + 0)
              eq_refl eq_refl eq_refl eq_refl eq_refl eq_refl eq_refl)
    as (root' & E & _ & A2 & _).
  - cbn. lra.
  - cbn. lra.
  - cbn. rewrite legRig_distance; lra.
  - cbn. rewrite legRig_distance; lra.
  - exists root'. split; [exact E|].
    rewrite A2. cbn. rewrite legRig_distance by lra. reflexivity.
Defined.

Lemma solveTwoBoneIK_unreachable_witness :
  exists root',
    solveTwoBoneIK (legRig 100 100) "R_Foot" (mkPoint 250 0) = Done root'
    /\ angle (deref root' [0%nat]) = 0
    /\ angle (deref root' [0%nat; 0%nat]) = 0.
Proof.
  destruct (solveTwoBoneIK_unreachable (legRig 100 100) "R_Foot" (mkPoint 250 0)
              "R_Hip" "R_Calf" [0%nat] [0%nat; 0%nat] []
              (mkGlobalPos (mkPoint 0 0) (mkPoint 0 0)) legRigNavelPos (0 + 0)
              eq_refl eq_refl eq_refl eq_refl eq_refl eq_refl eq_refl)
    as (root' & E & A1 & A2).
  - cbn. rewrite legRig_distance; lra.
  - exists root'. repeat split; [exact E | | exact A2].
    rewrite A1. cbn.
    replace (0 - (0 + sin (0 + 0) * 0)) with 0 by ring.
    replace (250 - (0 + cos (0 + 0) * 0)) with 250 by ring.
    rewrite atan2_on_axis by lra. ring.
Defined.

Lemma solveTwoBoneIK_fold_witness :
  exists root',
    solveTwoBoneIK (legRig 100 100) "R_Foot" (mkPoint 100 0) = Done root'
    /\ angle (deref root' [0%nat; 0%nat]) = - (2 * PI / 3).
Proof.
  destruct (solveTwoBoneIK_fold (legRig 100 100) "R_Foot" (mkPoint 100 0)
              "R_Hip" "R_Calf" [0%nat] [0%nat; 0%nat] []
              (mkGlobalPos (mkPoint 0 0) (mkPoint 0 0)) legRigNavelPos (0 + 0)
              eq_refl eq_refl eq_refl eq_refl eq_refl eq_refl eq_refl
              eq_refl eq_refl)
    as (root' & E & A2).
  - cbn. rewrite legRig_distance; lra.
  - exists root'. split; [exact E|].
    rewrite A2. unfold bendDirection; cbn. field.
Defined.

(** C7 as the spec words it fails: with [l1 = l2 = 100] and the target at
    distance 100, [bone2.angle] is not [bendDirection * (0 - PI)]. *)
Lemma solveTwoBoneIK_fold_not_extreme :
  exists root',
    solveTwoBoneIK (legRig 100 100) "R_Foot" (mkPoint 100 0) = Done root'
    /\ angle (deref root' [0%nat; 0%nat]) <> bendDirection "R_Foot" * (acos 1 - PI).
Proof.
  destruct (reachable_angles (legRig 100 100) "R_Foot" (mkPoint 100 0)
              "R_Hip" "R_Calf" [0%nat] [0%nat; 0%nat] []
              (mkGlobalPos (mkPoint 0 0) (mkPoint 0 0)) legRigNavelPos (0 + 0)
              eq_refl eq_refl eq_refl eq_refl eq_refl eq_refl eq_refl)
    as (root' & E & _ & A2).
  - cbn. rewrite legRig_distance; lra.
  - exists root'. split; [exact E|].
    rewrite A2. cbn. rewrite legRig_distance by lra.
    replace ((100 * 100 + 100 * 100 - 100 * 100) / (2 * 100 * 100)) with (1 / 2) by field.
    rewrite Rmin_right by lra. rewrite Rmax_right by lra.
    rewrite acos_half, acos_1. unfold bendDirection; cbn.
    pose proof PI_RGT_0. lra.
Qed.

(** ** Two-bone IK: what the solver leaves alone *)

(** The trees the solver can end on: the one it was given, that tree
    resolved, or the resolved tree with two angles assigned. *)
Lemma solveTwoBoneIK_cases (root : Bone) (e : string) (target : Point) :
  let out := solveTwoBoneIK root e target in
  (out = Done root \/ out = Threw root)
  \/ (exists gp,
        globalPos root = Some gp
        /\ out = Threw (computeGlobalPositions root (x (start gp)) (y (start gp)) 0))
  \/ (exists n1 n2 b1 b2 gp a1 a2,
        getIKChainNames e = Some [n1; n2]
        /\ findBone root n1 = Some b1 /\ findBone root n2 = Some b2
        /\ globalPos root = Some gp
        /\ out = Done (update
                         (update (computeGlobalPositions root (x (start gp)) (y (start gp)) 0)
                                 b1 (setAngle a1))
                         b2 (setAngle a2))).
Proof.
  unfold solveTwoBoneIK.
  destruct (getIKChainNames e) as [[|n1 [|n2 [|n3 l]]]|] eqn:Hc; auto.
  destruct (findBone root n1) as [b1|] eqn:H1; auto.
  destruct (globalPos root) as [gp|] eqn:Hr; auto.
  destruct (findBone root n2) as [b2|] eqn:H2; [|right; left; eauto].
  destruct (findParentBone root (name (deref root b1))) as [par|]; [|right; left; eauto].
  destruct (globalPos (deref _ par)); [|right; left; eauto].
  destruct (Rlt_dec _ _); right; right; repeat eexists; eauto.
Qed.

Lemma static_deref_compute (q : ref) (b : Bone) (px py pa : R) :
  static (deref (computeGlobalPositions b px py pa) q) = static (deref b q)
  /\ angle (deref (computeGlobalPositions b px py pa) q) = angle (deref b q).
Proof.
  destruct (deref_compute q b px py pa) as (qx & qy & qa & ->).
  apply static_compute.
Qed.

(** C9 (as the code has it).  Whether the solver returns or throws, the tree
    keeps its topology, every bone keeps its name, length, target angle,
    mass, z-index, visible flag and number of children, and every bone other
    than [bone1] and [bone2] keeps its angle.  (The resolve pass inside the
    solver rewrites [globalPos] and [globalAngle] on every bone.) *)
Theorem solveTwoBoneIK_frame :
  forall (root : Bone) (endEffectorName : string) (targetPos : Point) (t : Bone),
    solveTwoBoneIK root endEffectorName targetPos = Done t
    \/ solveTwoBoneIK root endEffectorName targetPos = Threw t ->
    topology t = topology root
    /\ forall q : ref,
      valid root q ->
      (name (deref t q) = name (deref root q)
       /\ length (deref t q) = length (deref root q)
       /\ targetAngle (deref t q) = targetAngle (deref root q)
       /\ mass (deref t q) = mass (deref root q)
       /\ zIndex (deref t q) = zIndex (deref root q)
       /\ visible (deref t q) = visible (deref root q)
       /\ Datatypes.length (children (deref t q))
          = Datatypes.length (children (deref root q)))
      /\ ((forall n1 n2,
             getIKChainNames endEffectorName = Some [n1; n2] ->
             findBone root n1 <> Some q /\ findBone root n2 <> Some q) ->
          angle (deref t q) = angle (deref root q)).
Proof.
  intros root e target t Hout.
  assert (T : topology t = topology root).
  { destruct (solveTwoBoneIK_cases root e target)
      as [[E|E] | [(gp & _ & E) | (n1 & n2 & b1 & b2 & gp & a1 & a2 & _ & _ & _ & _ & E)]];
      rewrite E in Hout; destruct Hout as [[= <-] | [= <-]]; auto;
      rewrite ?topology_update_setAngle; apply topology_compute. }
  split; [exact T|]. intros q Vq.
  assert (G : static (deref t q) = static (deref root q)
              /\ ((forall n1 n2,
                     getIKChainNames e = Some [n1; n2] ->
                     findBone root n1 <> Some q /\ findBone root n2 <> Some q) ->
                  angle (deref t q) = angle (deref root q))).
  { destruct (solveTwoBoneIK_cases root e target)
      as [[E|E] | [(gp & _ & E) | (n1 & n2 & b1 & b2 & gp & a1 & a2 & Hc & H1 & H2 & _ & E)]];
      rewrite E in Hout; destruct Hout as [[= <-] | [= <-]]; auto.
    - split; [apply static_deref_compute | intros _; apply static_deref_compute].
    - set (res := computeGlobalPositions root (x (start gp)) (y (start gp)) 0).
      destruct (deref_update_setAngle a2 q b2 (update res b1 (setAngle a1)))
        as (S2 & _ & _ & A2).
      destruct (deref_update_setAngle a1 q b1 res) as (S1 & _ & _ & A1).
      destruct (static_deref_compute q root (x (start gp)) (y (start gp)) 0) as [S0 A0].
      fold res in S0, A0.
      split; [congruence|].
      intros Hother. destruct (Hother n1 n2 Hc) as [N1 N2].
      assert (Vres : valid res q) by now apply valid_compute.
      rewrite A2, A1, A0; auto using valid_update, setAngle_keepsChildren; congruence. }
  destruct G as [S A]. split; [|exact A].
  unfold static in S. injection S as -> -> -> -> -> -> ->. repeat split; reflexivity.
Qed.

(** Running the solver on the leg rig, whatever the target on the axis. *)
Lemma legRig_solved (tx : R) :
  exists a1 a2,
    solveTwoBoneIK (legRig 100 100) "R_Foot" (mkPoint tx 0) =
    Done (update (update (computeGlobalPositions (legRig 100 100) 0 0 0)
                         [0%nat] (setAngle a1))
                 [0%nat; 0%nat] (setAngle a2)).
Proof.
  rewrite (solveTwoBoneIK_chain (legRig 100 100) "R_Foot" (mkPoint tx 0)
             "R_Hip" "R_Calf" [0%nat] [0%nat; 0%nat] []
             (mkGlobalPos (mkPoint 0 0) (mkPoint 0 0)) legRigNavelPos (0 + 0)
             eq_refl eq_refl eq_refl eq_refl eq_refl eq_refl eq_refl).
  destruct (Rlt_dec _ _); eauto.
Qed.

Lemma solveTwoBoneIK_frame_witness :
  exists t,
    solveTwoBoneIK (legRig 100 100) "R_Foot" (mkPoint 250 0) = Done t
    /\ visible (deref t [0%nat; 0%nat; 0%nat]) = None
    /\ angle (deref t [0%nat; 0%nat; 0%nat]) = 0.
Proof.
  destruct (legRig_solved 250) as (a1 & a2 & E).
  eexists. split; [exact E|].
  destruct (proj2 (solveTwoBoneIK_frame (legRig 100 100) "R_Foot" (mkPoint 250 0) _
                     (or_introl E)) [0%nat; 0%nat; 0%nat] I)
    as [(_ & _ & _ & _ & _ & V & _) A].
  split; [exact V|].
  apply A. intros n1 n2 [= <- <-]. split; discriminate.
Defined.

(** C9 as the spec words it fails: the solver does write a field other than
    the two angles, here [globalAngle] of the foot bone. *)
Lemma solveTwoBoneIK_writes_globalAngle :
  exists t,
    solveTwoBoneIK (legRig 100 100) "R_Foot" (mkPoint 250 0) = Done t
    /\ globalAngle (deref (legRig 100 100) [0%nat; 0%nat; 0%nat]) = None
    /\ globalAngle (deref t [0%nat; 0%nat; 0%nat]) <> None.
Proof.
  destruct (legRig_solved 250) as (a1 & a2 & E).
  eexists. split; [exact E|]. split; [reflexivity|].
  set (res := computeGlobalPositions (legRig 100 100) 0 0 0).
  destruct (deref_update_setAngle a2 [0%nat; 0%nat; 0%nat] [0%nat; 0%nat]
              (update res [0%nat] (setAngle a1))) as (_ & _ & -> & _).
  destruct (deref_update_setAngle a1 [0%nat; 0%nat; 0%nat] [0%nat] res)
    as (_ & _ & -> & _).
  subst res.
  destruct (resolved_everywhere [0%nat; 0%nat; 0%nat] (legRig 100 100) 0 0 0)
    as (gp & ga & _ & ->).
  discriminate.
Qed.

(** ** Collapse: relaxation of a single stick *)

(** One relaxation of a stick between two distinct unpinned points brings
    them to the rest length. *)
Lemma relaxStick_exact (a b : Physics.PhysicsPoint) (L : R) :
  Physics.isPinned a = false -> Physics.isPinned b = false ->
  0 <= L ->
  let s := Physics.mkPhysicsStick 0 1 L in
  0 < stickDistance [a; b] s ->
  exists a' b',
    relaxStick [a; b] s = [a'; b']
    /\ Physics.isPinned a' = false /\ Physics.isPinned b' = false
    /\ stickDistance [a'; b'] s = L.
Proof.
  intros Pa Pb HL s Hd.
  unfold stickDistance in Hd; cbn in Hd.
  unfold relaxStick; cbn. rewrite Pa, Pb.
  set (dx := Physics.x b - Physics.x a) in *.
  set (dy := Physics.y b - Physics.y a) in *.
  set (D := sqrt (dx * dx + dy * dy)) in *.
  assert (HD : D * D = dx * dx + dy * dy) by (apply sqrt_sqrt; nra).
  destruct (Req_dec_T D 0) as [E|NE]; [lra|].
  cbn. do 2 eexists. split; [reflexivity|]. cbn. rewrite Pa, Pb.
  repeat split. unfold stickDistance; cbn.
  apply sqrt_of_square; [exact HL|].
  fold dx dy.
  replace (Physics.x b + dx * ((L - D) / D / 2)
           - (Physics.x a + - (dx * ((L - D) / D / 2))))
    with (dx * (L / D)) by (unfold dx; field; exact NE).
  replace (Physics.y b + dy * ((L - D) / D / 2)
           - (Physics.y a + - (dy * ((L - D) / D / 2))))
    with (dy * (L / D)) by (unfold dy; field; exact NE).
  replace (dx * (L / D) * (dx * (L / D)) + dy * (L / D) * (dy * (L / D)))
    with ((dx * dx + dy * dy) * (L / D) * (L / D)) by ring.
  rewrite <- HD. field. exact NE.
Qed.

(** C8.  A single stick of rest length [L > 0] between two unpinned points
    that are [2 L] apart: after the five relaxation iterations of a settle
    pass the end points are strictly closer to [L] apart than before. *)
Theorem relax_single_stick :
  forall (a b : Physics.PhysicsPoint) (L : R),
    Physics.isPinned a = false -> Physics.isPinned b = false ->
    0 < L ->
    let s := Physics.mkPhysicsStick 0 1 L in
    stickDistance [a; b] s = 2 * L ->
    Rabs (stickDistance (relax [s] [a; b]) s - L)
    < Rabs (stickDistance [a; b] s - L).
Proof.
  intros a b L Pa Pb HL s Hd.
  assert (Step : forall p q,
             Physics.isPinned p = false -> Physics.isPinned q = false ->
             0 < stickDistance [p; q] s ->
             exists p' q',
               fold_left relaxStick [s] [p; q] = [p'; q']
               /\ Physics.isPinned p' = false /\ Physics.isPinned q' = false
               /\ stickDistance [p'; q'] s = L).
  { intros p q Pp Pq H. cbn [fold_left]. apply relaxStick_exact; auto; lra. }
  unfold relax, Nat.iter; cbn [nat_rect].
  destruct (Step a b Pa Pb) as (a1 & b1 & -> & Pa1 & Pb1 & D1); [lra|].
  destruct (Step a1 b1 Pa1 Pb1) as (a2 & b2 & -> & Pa2 & Pb2 & D2); [lra|].
  destruct (Step a2 b2 Pa2 Pb2) as (a3 & b3 & -> & Pa3 & Pb3 & D3); [lra|].
  destruct (Step a3 b3 Pa3 Pb3) as (a4 & b4 & -> & Pa4 & Pb4 & D4); [lra|].
  destruct (Step a4 b4 Pa4 Pb4) as (a5 & b5 & -> & Pa5 & Pb5 & D5); [lra|].
  rewrite D5, Hd.
  replace (L - L) with 0 by ring. rewrite Rabs_R0.
  rewrite Rabs_pos_eq; lra.
Qed.

Lemma relax_single_stick_witness :
  let a := Physics.mkPhysicsPoint 0 0 0 0 false in
  let b := Physics.mkPhysicsPoint 200 0 200 0 false in
  let s := Physics.mkPhysicsStick 0 1 100 in
  Rabs (stickDistance (relax [s] [a; b]) s - 100) < Rabs (stickDistance [a; b] s - 100).
Proof.
  intros a b s.
  apply (relax_single_stick a b 100 eq_refl eq_refl).
  - lra.
  - unfold stickDistance; cbn. apply sqrt_of_square; [lra | ring].
Defined.

(** ** Pose blending *)

(** On trees of one topology the interpolation goes through and keeps the
    topology. *)
Lemma lerpSkeleton_topology (progress : R) (current : Bone) :
  forall start0 target0 : Bone,
    topology current = topology start0 ->
    topology current = topology target0 ->
    exists r, lerpSkeleton progress current start0 target0 = Some r
              /\ topology r = topology current.
Proof.
  induction current as [current IH] using Bone_tree_ind.
  intros start0 target0 Hs Ht.
  apply topology_children in Hs as [_ Hs]. apply topology_children in Ht as [_ Ht].
  destruct current as [n len a ta m cs z v gp ga]; cbn in *.
  assert (G : exists cs', lerpChildren (lerpSkeleton progress) cs
                            (children start0) (children target0) = Some cs'
                          /\ map topology cs' = map topology cs).
  { revert Hs Ht. generalize (children start0) (children target0).
    induction IH as [|c cs Hc _ IHcs]; intros ss ts Hs Ht; cbn.
    - now exists [].
    - destruct ss as [|s0 ss]; [discriminate|]. destruct ts as [|t0 ts]; [discriminate|].
      cbn in Hs, Ht. injection Hs as Hs0 Hs. injection Ht as Ht0 Ht.
      destruct (Hc s0 t0 Hs0 Ht0) as (c' & -> & Tc).
      destruct (IHcs ss ts Hs Ht) as (cs' & -> & Tcs).
      exists (c' :: cs'); cbn. split; [reflexivity | congruence]. }
  destruct G as (cs' & -> & Tcs).
  eexists; split; [reflexivity|]. cbn. now rewrite Tcs.
Qed.

(** A transition that is [k + 1] ticks away from its last frame. *)
Lemma ticks_to_target (k : nat) :
  forall (s : AppState) (c n : nat) (start0 target0 : Bone) (mode : MotionMode),
    (c + S k = n)%nat ->
    active (animationState s) = true ->
    currentFrame (animationState s) = INR c ->
    durationFrames (animationState s) = INR n ->
    startSkeleton (animationState s) = Some start0 ->
    targetSkeleton (animationState s) = Some target0 ->
    targetMode (animationState s) = Some mode ->
    topology (skeleton s) = topology start0 ->
    topology start0 = topology target0 ->
    exists s',
      ticks (S k) s = Done s'
      /\ skeleton s' = target0
      /\ motionMode s' = mode
      /\ active (animationState s') = false.
Proof.
  induction k as [|k IH]; intros s c n start0 target0 mode Hn Ha Hc Hd Hs Ht Hm Ts Tt.
  - cbn [ticks]. unfold updateTransitionAnimation.
    rewrite Ha, Hs, Ht, Hc, Hd, Hm; cbn [negb].
    rewrite deepClone_id.
    destruct (lerpSkeleton_topology (((INR c + 1) / INR n)) (skeleton s) start0 target0)
      as (r & -> & _); [exact Ts | congruence |].
    destruct (Rle_dec (INR n) (INR c + 1)) as [_|N].
    + cbn. eexists; split; [reflexivity|]. cbn. rewrite deepClone_id. auto.
    + exfalso. apply N. rewrite <- Hn, plus_INR. cbn. lra.
  - cbn [ticks]. unfold updateTransitionAnimation at 1.
    rewrite Ha, Hs, Ht, Hc, Hd, Hm; cbn [negb].
    rewrite deepClone_id.
    destruct (lerpSkeleton_topology (((INR c + 1) / INR n)) (skeleton s) start0 target0)
      as (r & -> & Tr); [exact Ts | congruence |].
    destruct (Rle_dec (INR n) (INR c + 1)) as [Y|_].
    + exfalso. rewrite <- S_INR in Y. apply INR_le in Y. lia.
    + cbn [andThen].
      apply (IH _ (S c) n start0 target0 mode);
        cbn [skeleton animationState set_animationState set_navelOffsetX set_navelOffsetY
             set_skeleton active currentFrame durationFrames startSkeleton targetSkeleton
             targetMode]; auto; try lia.
      * now rewrite S_INR.
      * congruence.
Qed.

Lemma traverse_topology (calc : string -> R) (b : Bone) :
  forall a : R, topology (traverse calc b a) = topology b.
Proof.
  induction b as [b IH] using Bone_tree_ind.
  destruct b as [n len a0 ta m cs z v gp ga]; cbn in *. intros a. f_equal.
  rewrite map_map. induction IH as [|c cs Hc _ IHcs]; cbn; [reflexivity|].
  now rewrite Hc, IHcs.
Qed.

(** C4.  A transition of [n >= 1] frames started by [startAnimation] towards
    a skeleton of the topology of the live one: after exactly [n] ticks the
    live skeleton is the target skeleton, so every bone has the target's
    angle, the mode is the target mode and the transition is inactive. *)
Theorem blend_reaches_target :
  forall (s : AppState) (target0 : Bone) (mode : MotionMode) (n handle : nat),
    (1 <= n)%nat ->
    topology (skeleton s) = topology target0 ->
    exists s',
      ticks n (startAnimation s target0 mode (INR n) handle) = Done s'
      /\ skeleton s' = target0
      /\ (forall q : ref, angle (deref (skeleton s') q) = angle (deref target0 q))
      /\ motionMode s' = mode
      /\ active (animationState s') = false.
Proof.
  intros s target0 mode n handle Hn Tt.
  destruct n as [|k]; [lia|].
  set (s1 := startAnimation s target0 mode (INR (S k)) handle).
  assert (T1 : topology (skeleton s1) = topology target0
               /\ animationState s1
                  = mkAnimationState true (Some (skeleton s1)) (Some target0)
                      (startOffsets (animationState s1)) (mkPoint 0 0)
                      (INR (S k)) 0 (Some mode)).
  { unfold s1, startAnimation, updateSkeletonAnglesFromPhysics.
    destruct (MotionMode_eqb (motionMode s) Collapse); cbn -[INR];
      destruct (animationFrameId s); cbn -[INR]; rewrite deepClone_id;
      rewrite ?traverse_topology; auto. }
  destruct T1 as [T1 A1].
  destruct (ticks_to_target k s1 0 (S k) (skeleton s1) target0 mode)
    as (s' & E & Sk & M & A); auto; try (rewrite A1; reflexivity).
  exists s'. repeat split; auto. intros q. now rewrite Sk.
Qed.

Lemma blend_reaches_target_witness :
  exists s',
    ticks 30 (startAnimation (initialState 800 600) initialSkeleton T_Pose (INR 30) 1) = Done s'
    /\ skeleton s' = initialSkeleton
    /\ motionMode s' = T_Pose
    /\ active (animationState s') = false.
Proof.
  destruct (blend_reaches_target (initialState 800 600) initialSkeleton T_Pose 30 1)
    as (s' & E & Sk & _ & M & A).
  - lia.
  - reflexivity.
  - exists s'. auto.
Defined.

(** ** Locks *)

Section MapFacts.
Context {V : Type}.
Implicit Types (m : list (string * V)) (k : string) (v : V).

Lemma mapHas_mapGet m k : mapHas m k = true <-> exists v, mapGet m k = Some v.
Proof.
  unfold mapHas, mapGet. induction m as [|[k0 v0] m IH]; cbn.
  - split; [discriminate | intros [v [=]]].
  - destruct (String.eqb k0 k); cbn; [split; eauto|exact IH].
Qed.

Lemma mapGet_mapSet_same m k v : mapGet (mapSet m k v) k = Some v.
Proof.
  unfold mapGet. induction m as [|[k0 v0] m IH]; cbn.
  - now rewrite String.eqb_refl.
  - destruct (String.eqb k0 k) eqn:E; cbn.
    + now rewrite String.eqb_refl.
    + now rewrite E.
Qed.

Lemma mapGet_mapSet_other m k k' v : k' <> k -> mapGet (mapSet m k v) k' = mapGet m k'.
Proof.
  intros Hne. unfold mapGet. induction m as [|[k0 v0] m IH]; cbn.
  - destruct (String.eqb_spec k k'); [congruence | reflexivity].
  - destruct (String.eqb_spec k0 k) as [->|N]; cbn.
    + destruct (String.eqb_spec k k'); [congruence|].
      destruct (String.eqb_spec k k'); [congruence | reflexivity].
    + destruct (String.eqb k0 k'); [reflexivity | exact IH].
Qed.

Lemma mapHas_mapDelete m k : mapHas (mapDelete m k) k = false.
Proof.
  unfold mapHas, mapDelete. induction m as [|[k0 v0] m IH]; cbn; [reflexivity|].
  destruct (String.eqb k0 k) eqn:E; cbn; [exact IH|]. now rewrite E.
Qed.

Lemma mapGet_mapDelete_other m k k' : k' <> k -> mapGet (mapDelete m k) k' = mapGet m k'.
Proof.
  intros Hne. unfold mapGet, mapDelete. induction m as [|[k0 v0] m IH]; cbn; [reflexivity|].
  destruct (String.eqb_spec k0 k) as [->|N]; cbn.
  - destruct (String.eqb_spec k k'); [congruence | exact IH].
  - destruct (String.eqb k0 k'); [reflexivity | exact IH].
Qed.
End MapFacts.

(** The searches by name see the topology only. *)
Lemma findParentBone_topology (nm : string) (a : Bone) :
  forall b : Bone, topology a = topology b -> findParentBone a nm = findParentBone b nm.
Proof.
  induction a as [a IH] using Bone_tree_ind.
  intros b H. apply topology_children in H as [_ H].
  destruct a as [n len an ta m cs z v gp ga], b as [n' len' an' ta' m' cs' z' v' gp' ga'].
  cbn in *. generalize 0%nat. revert cs' H.
  induction IH as [|c cs Hc _ IHcs]; intros [|c' cs'] H k; try discriminate; cbn;
    [reflexivity|].
  cbn in H. injection H as Hc' Hcs'.
  destruct (topology_children _ _ Hc') as [-> _].
  rewrite (Hc c' Hc'), (IHcs cs' Hcs'). reflexivity.
Qed.

Lemma findBone_topology (nm : string) (a : Bone) :
  forall b : Bone, topology a = topology b -> findBone a nm = findBone b nm.
Proof.
  induction a as [a IH] using Bone_tree_ind.
  intros b H. destruct (topology_children _ _ H) as [Hn Hcs].
  destruct a as [n len an ta m cs z v gp ga], b as [n' len' an' ta' m' cs' z' v' gp' ga'].
  cbn in *. subst n'. clear H. destruct (String.eqb n nm); [reflexivity|].
  generalize 0%nat. revert cs' Hcs.
  induction IH as [|c cs Hc _ IHcs]; intros [|c' cs'] Hcs k; try discriminate; cbn;
    [reflexivity|].
  cbn in Hcs. injection Hcs as Hc' Hcs'.
  rewrite (Hc c' Hc'), (IHcs cs' Hcs'). reflexivity.
Qed.

Lemma includes_lockable (nm : string) :
  includes lockableBones nm = true ->
  nm = "L_Foot" \/ nm = "R_Foot" \/ nm = "L_Hand" \/ nm = "R_Hand".
Proof.
  unfold includes, lockableBones; cbn.
  destruct (String.eqb_spec nm "L_Foot"); auto.
  destruct (String.eqb_spec nm "R_Foot"); auto.
  destruct (String.eqb_spec nm "L_Hand"); auto.
  destruct (String.eqb_spec nm "R_Hand"); auto.
  discriminate.
Qed.

(** On the topology of [SKELETON_TREE] every lockable effector has a parent
    bone. *)
Lemma lockable_has_parent (skel : Bone) (nm : string) :
  topology skel = topology SKELETON_TREE ->
  includes lockableBones nm = true ->
  exists parentBone, findParentBone skel nm = Some parentBone.
Proof.
  intros T H. rewrite (findParentBone_topology nm _ _ T).
  destruct (includes_lockable nm H) as [-> | [-> | [-> | ->]]]; eexists; reflexivity.
Qed.

(** C6.  [toggleLock(nm)] leaves the state alone when [nm] is not lockable;
    removes the entry of a locked [nm]; and otherwise, the effector having a
    parent bone in the live skeleton (as it has on the topology of
    [SKELETON_TREE]), adds an entry whose position is a fresh copy of the end
    point of that parent in the live skeleton resolved from the navel
    anchor. *)
Theorem toggleLock_spec :
  forall (s : AppState) (nm : string),
    (includes lockableBones nm = false -> toggleLock s nm = s)
    /\ (includes lockableBones nm = true ->
        mapHas (lockedBones s) nm = true ->
        toggleLock s nm = set_lockedBones (mapDelete (lockedBones s) nm) s
        /\ mapHas (lockedBones (toggleLock s nm)) nm = false
        /\ forall k, k <> nm ->
             mapGet (lockedBones (toggleLock s nm)) k = mapGet (lockedBones s) k)
    /\ (includes lockableBones nm = true ->
        mapHas (lockedBones s) nm = false ->
        forall parentBone : ref,
          findParentBone (skeleton s) nm = Some parentBone ->
          let floorY := height (parentRect s) * 0.85 in
          let navelX := width (parentRect s) / 2 + navelOffsetX s in
          let navelY := floorY - getLegLength - navelOffsetY s in
          let resolved := computeGlobalPositions (skeleton s) navelX navelY 0 in
          exists pgp e,
            globalPos (deref resolved parentBone) = Some pgp
            /\ mapGet (lockedBones (toggleLock s nm)) nm = Some e
            /\ position e = next (heap s)
            /\ cells (heap (toggleLock s nm)) (position e) = end_ pgp
            /\ forall k, k <> nm ->
                 mapGet (lockedBones (toggleLock s nm)) k = mapGet (lockedBones s) k)
    /\ (includes lockableBones nm = true ->
        topology (skeleton s) = topology SKELETON_TREE ->
        exists parentBone, findParentBone (skeleton s) nm = Some parentBone).
Proof.
  intros s nm. split; [|split; [|split]].
  - unfold toggleLock. now intros ->.
  - intros Hl Hh. unfold toggleLock. rewrite Hl, Hh. cbn. repeat split.
    + apply mapHas_mapDelete.
    + intros k Hk. now apply mapGet_mapDelete_other.
  - intros Hl Hh par Hp floorY navelX navelY resolved.
    unfold toggleLock. rewrite Hl, Hh. cbn [negb]. rewrite deepClone_id. fold floorY navelX navelY resolved.
    assert (Hp' : findParentBone resolved nm = Some par).
    { rewrite <- Hp. apply findParentBone_topology, topology_compute. }
    rewrite Hp'.
    destruct (resolved_everywhere par (skeleton s) navelX navelY 0) as (pgp & ga & Hg & _).
    fold resolved in Hg. rewrite Hg. cbn.
    exists pgp, (mkLockEntry (next (heap s))). split; [reflexivity|].
    rewrite mapGet_mapSet_same. repeat split.
    + cbn. rewrite Nat.eqb_refl. now destruct (end_ pgp).
    + intros k Hk. now apply mapGet_mapSet_other.
  - intros Hl T. now apply lockable_has_parent.
Qed.

Lemma toggleLock_spec_witness :
  toggleLock (initialState 800 600) "Head" = initialState 800 600
  /\ (exists e,
        mapGet (lockedBones (toggleLock (initialState 800 600) "L_Foot")) "L_Foot" = Some e
        /\ position e = 0%nat)
  /\ mapHas (lockedBones (toggleLock (toggleLock (initialState 800 600) "L_Foot") "L_Foot"))
            "L_Foot" = false.
Proof.
  split; [|split].
  - apply (proj1 (toggleLock_spec (initialState 800 600) "Head")). reflexivity.
  - destruct (proj1 (proj2 (proj2 (toggleLock_spec (initialState 800 600) "L_Foot")))
                eq_refl eq_refl [1; 0; 0; 0; 0; 0; 0]%nat eq_refl)
      as (pgp & e & _ & G & P & _).
    exists e. split; [exact G | exact P].
  - apply (proj1 (proj2 (toggleLock_spec (toggleLock (initialState 800 600) "L_Foot")
                           "L_Foot")));
      reflexivity.
Defined.

(** ** The interactive render and the lock entries *)

Lemma solveTwoBoneIK_returns_or_throws (root : Bone) (e : string) (target : Point) :
  exists t, solveTwoBoneIK root e target = Done t \/ solveTwoBoneIK root e target = Threw t.
Proof.
  destruct (solveTwoBoneIK_cases root e target)
    as [[E|E] | [(gp & _ & E) | (n1 & n2 & b1 & b2 & gp & a1 & a2 & _ & _ & _ & _ & E)]];
    rewrite E; eauto.
Qed.

Lemma solveAllIK_returns_or_throws (h : Heap) (root : Bone) (targets : LockMap) :
  exists t, solveAllIK h root targets = Done t \/ solveAllIK h root targets = Threw t.
Proof.
  assert (Step : forall nm r,
             exists t, solveIfTarget h targets nm r = Done t
                       \/ solveIfTarget h targets nm r = Threw t).
  { intros nm r. unfold solveIfTarget. destruct (mapGet targets nm); eauto.
    apply solveTwoBoneIK_returns_or_throws. }
  assert (Seq : forall (o : outcome Bone) nm,
             (exists t, o = Done t \/ o = Threw t) ->
             exists t, andThen o (solveIfTarget h targets nm) = Done t
                       \/ andThen o (solveIfTarget h targets nm) = Threw t).
  { intros o nm (t & [-> | ->]); cbn; eauto. }
  unfold solveAllIK. destruct targets as [|e0 targets0]; eauto.
Qed.

(** The foot clamp writes [floorY] into the point object of every entry
    whose key ends in Foot, and nothing else. *)
Lemma clampFeet_spec (floorY : R) (targets : LockMap) :
  forall h : Heap,
    (forall l, cells (clampFeet floorY targets h) l = cells h l
               \/ cells (clampFeet floorY targets h) l = mkPoint (x (cells h l)) floorY)
    /\ (forall nm e,
          In (nm, e) targets -> endsWith nm "Foot" = true ->
          cells (clampFeet floorY targets h) (position e)
          = mkPoint (x (cells h (position e))) floorY).
Proof.
  unfold clampFeet. induction targets as [|[k0 e0] targets IH]; intros h; cbn.
  - split; [auto | contradiction].
  - set (h1 := if endsWith k0 "Foot"
               then store h (position e0) (fun p => mkPoint (x p) floorY) else h).
    assert (H1 : forall l, cells h1 l = cells h l
                           \/ cells h1 l = mkPoint (x (cells h l)) floorY).
    { intros l. unfold h1. destruct (endsWith k0 "Foot"); cbn; auto.
      destruct (Nat.eqb l (position e0)); auto. }
    destruct (IH h1) as [A B]. split.
    + intros l. destruct (A l) as [-> | ->]; destruct (H1 l) as [E | E];
        rewrite E; cbn; auto.
    + intros nm e [[= <- <-] | Hin] Hfoot.
      * assert (W : cells h1 (position e0) = mkPoint (x (cells h (position e0))) floorY).
        { unfold h1. rewrite Hfoot. cbn. now rewrite Nat.eqb_refl. }
        destruct (A (position e0)) as [-> | ->]; rewrite W; reflexivity.
      * rewrite (B nm e Hin Hfoot).
        destruct (H1 (position e)) as [-> | ->]; reflexivity.
Qed.

(** The state an interactive render that gets past the chain walk ends in,
    whether the solver returns or throws. *)
Lemma drawInteractiveModel_state (s : AppState) (cache : list string) :
  ctx s = true ->
  buildLockedChainCache (deepClone (skeleton s)) (lockedBones s) [] = Some cache ->
  stateOf (drawInteractiveModel s)
  = Some (set_heap (clampFeet (height (parentRect s) * 0.85) (lockedBones s) (heap s))
                   (set_lockedChainCache cache s)).
Proof.
  intros Hctx Hcache.
  unfold drawInteractiveModel. rewrite Hctx, Hcache. cbn [negb].
  match goal with
  | |- context [solveAllIK ?h ?r ?t] =>
      destruct (solveAllIK_returns_or_throws h r t) as (t' & [-> | ->])
  end; reflexivity.
Qed.

Lemma parentScan_none (nm : string) (f : Bone -> option ref) (cs : list Bone) :
  forall k : nat,
    parentScan nm f cs k = None ->
    forall c, In c cs -> name c <> nm /\ f c = None.
Proof.
  induction cs as [|c0 cs IH]; intros k H c Hin; [contradiction|].
  cbn in H. destruct (String.eqb_spec (name c0) nm) as [|Hn]; [discriminate|].
  destruct (f c0) eqn:E; [discriminate|].
  destruct Hin as [<- | Hin]; [auto | eapply IH; eauto].
Qed.

Lemma parentScan_hit (nm : string) (f : Bone -> option ref) (cs : list Bone) :
  forall k : nat,
    parentScan nm f cs k = Some [] ->
    exists i c, nth_error cs i = Some c /\ name c = nm.
Proof.
  induction cs as [|c0 cs IH]; intros k; cbn; [discriminate|].
  destruct (String.eqb_spec (name c0) nm) as [E|_].
  - intros _. now exists 0%nat, c0.
  - destruct (f c0); [discriminate|].
    intros H. destruct (IH _ H) as (i & c & Hc & Hn). now exists (S i), c.
Qed.

Lemma findParentBone_child (nm : string) (b : Bone) :
  forall p : ref,
    findParentBone b nm = Some p ->
    exists i c, nth_error (children (deref b p)) i = Some c /\ name c = nm.
Proof.
  induction b as [b IH] using Bone_tree_ind.
  destruct b as [n len a ta m cs z v gp ga]; cbn in *.
  intros p H.
  destruct (parentScan_spec _ _ _ _ _ H) as [-> | (i & c & r' & -> & Hc & Hf)].
  - cbn. eapply parentScan_hit; eauto.
  - cbn. rewrite Hc. rewrite Forall_forall in IH.
    apply (IH c); [eapply nth_error_In; eauto | exact Hf].
Qed.

Lemma findParentBone_none (nm : string) (b : Bone) :
  findParentBone b nm = None ->
  forall (q : ref) (i : nat) (c : Bone),
    valid b q -> nth_error (children (deref b q)) i = Some c -> name c <> nm.
Proof.
  induction b as [b IH] using Bone_tree_ind.
  destruct b as [n len a ta m cs z v gp ga]; cbn in *.
  intros H [|j q] i c; cbn.
  - intros _ Hc. apply nth_error_In in Hc.
    exact (proj1 (parentScan_none _ _ _ _ H c Hc)).
  - destruct (nth_error cs j) as [cj|] eqn:Hj; [|contradiction].
    intros Vq Hc. rewrite Forall_forall in IH.
    apply nth_error_In in Hj as Hin.
    apply (IH cj Hin) with (q := q) (i := i); auto.
    exact (proj2 (parentScan_none _ _ _ _ H cj Hin)).
Qed.

Lemma valid_app (r : ref) (i : nat) :
  forall t : Bone,
    valid t (r ++ [i]) ->
    valid t r /\ nth_error (children (deref t r)) i = Some (deref t (r ++ [i])).
Proof.
  induction r as [|j r IH]; intros t; cbn.
  - destruct (nth_error (children t) i); [auto | contradiction].
  - destruct (nth_error (children t) j) as [c|]; [apply IH | contradiction].
Qed.

Lemma name_in_names (q : ref) : forall b : Bone, valid b q -> In (name (deref b q)) (names b).
Proof.
  induction q as [|i q IH]; intros b V.
  - destruct b; cbn; auto.
  - cbn in *. destruct (nth_error (children b) i) as [c|] eqn:Hc; [|contradiction].
    destruct b as [n len a ta m cs z vis gp ga]; cbn in *. right.
    apply in_concat. exists (names c). split; [|now apply IH].
    apply in_map. eapply nth_error_In; eauto.
Qed.

(** ** The chain walk ends when no two bones share a name *)

Lemma valid_snoc (p : ref) (j : nat) (c : Bone) :
  forall b : Bone,
    valid b p -> nth_error (children (deref b p)) j = Some c ->
    valid b (p ++ [j]) /\ deref b (p ++ [j]) = c.
Proof.
  induction p as [|i p IH]; intros b; cbn.
  - intros _ ->. auto.
  - destruct (nth_error (children b) i) as [ci|]; [apply IH | contradiction].
Qed.

Lemma NoDup_concat_part {A : Type} (ls : list (list A)) (l : list A) :
  NoDup (List.concat ls) -> In l ls -> NoDup l.
Proof.
  induction ls as [|l0 ls IH]; cbn; [contradiction|].
  intros Hnd [<-|Hin].
  - eapply NoDup_app_remove_r. exact Hnd.
  - apply IH; [|exact Hin]. eapply NoDup_app_remove_l. exact Hnd.
Qed.

Lemma NoDup_concat_apart {A : Type} (ls : list (list A)) :
  NoDup (List.concat ls) ->
  forall (i j : nat) (l l' : list A) (a : A),
    nth_error ls i = Some l -> nth_error ls j = Some l' ->
    In a l -> In a l' -> i = j.
Proof.
  assert (Clash : forall (l : list A) (rest : list (list A)) (l' : list A) (a : A),
             NoDup (l ++ List.concat rest) -> In l' rest -> In a l -> In a l' -> False).
  { intros l rest l' a Hnd Hin Ha Ha'.
    assert (Hc : In a (List.concat rest)) by (apply in_concat; eauto).
    revert Hnd Ha Hc. clear. generalize (List.concat rest).
    induction l as [|x l IH]; intros r Hnd Ha Hc; [contradiction|].
    cbn in Hnd. inversion Hnd as [|? ? Hx Hnd']; subst.
    destruct Ha as [<-|Ha]; [|eauto].
    apply Hx. apply in_app_iff. now right. }
  induction ls as [|l0 ls IH]; intros Hnd i j l l' a Hi Hj Ha Ha'.
  - now destruct i.
  - cbn in Hnd. destruct i as [|i], j as [|j]; cbn in Hi, Hj.
    + reflexivity.
    + injection Hi as <-. exfalso.
      eapply (Clash l0 ls l' a); eauto. eapply nth_error_In; eauto.
    + injection Hj as <-. exfalso.
      eapply (Clash l0 ls l a); eauto. eapply nth_error_In; eauto.
    + f_equal. apply (IH (NoDup_app_remove_l _ _ Hnd) i j l l' a); auto.
Qed.

(** With pairwise distinct names a bone is determined by its name. *)
Lemma name_injective (b : Bone) :
  NoDup (names b) ->
  forall r r' : ref,
    valid b r -> valid b r' -> name (deref b r) = name (deref b r') -> r = r'.
Proof.
  induction b as [b IH] using Bone_tree_ind.
  destruct b as [n len a ta m cs z vis gp ga]. cbn [children] in IH.
  rewrite Forall_forall in IH.
  intros Hnd. cbn [names] in Hnd. inversion Hnd as [|? ? Hn Hcs]; subst.
  assert (Below : forall i c q, nth_error cs i = Some c -> valid c q ->
                                In (name (deref c q)) (List.concat (map names cs))).
  { intros i c q Hc Vq. apply in_concat. exists (names c).
    split; [apply in_map; eapply nth_error_In; eauto | now apply name_in_names]. }
  intros [|i q] [|j q']; cbn.
  - reflexivity.
  - destruct (nth_error cs j) as [c'|] eqn:Hc'; [|contradiction].
    intros _ Vq' E. exfalso. apply Hn. rewrite E. eapply Below; eauto.
  - destruct (nth_error cs i) as [c|] eqn:Hc; [|contradiction].
    intros Vq _ E. exfalso. apply Hn. rewrite <- E. eapply Below; eauto.
  - destruct (nth_error cs i) as [c|] eqn:Hc; [|contradiction].
    destruct (nth_error cs j) as [c'|] eqn:Hc'; [|contradiction].
    intros Vq Vq' E.
    assert (i = j).
    { apply (NoDup_concat_apart (map names cs) Hcs i j (names c) (names c')
               (name (deref c q))).
      - rewrite nth_error_map, Hc. reflexivity.
      - rewrite nth_error_map, Hc'. reflexivity.
      - now apply name_in_names.
      - rewrite E. now apply name_in_names. }
    subst j. rewrite Hc in Hc'. injection Hc' as <-. f_equal.
    apply (IH c); auto.
    + eapply nth_error_In; eauto.
    + apply (NoDup_concat_part (map names cs)); [exact Hcs|].
      apply in_map. eapply nth_error_In; eauto.
Qed.

(** With pairwise distinct names [findParentBone], asked for the name of a
    bone, finds the parent of that bone, and nothing for the root. *)
Lemma findParentBone_of_name (b : Bone) :
  NoDup (names b) ->
  findParentBone b (name b) = None
  /\ forall (p : ref) (i : nat),
       valid b (p ++ [i]) -> findParentBone b (name (deref b (p ++ [i]))) = Some p.
Proof.
  intros Hnd.
  assert (Hit : forall nm p', findParentBone b nm = Some p' ->
                              exists j, valid b (p' ++ [j])
                                        /\ name (deref b (p' ++ [j])) = nm).
  { intros nm p' H.
    destruct (findParentBone_child nm b p' H) as (j & c & Hc & Hnm).
    destruct (valid_snoc p' j c b (findParentBone_valid nm b p' H) Hc) as [V D].
    exists j. split; [exact V | now rewrite D]. }
  split.
  - destruct (findParentBone b (name b)) as [p'|] eqn:H; [|reflexivity].
    destruct (Hit _ _ H) as (j & V & E).
    assert (C : [] = p' ++ [j]) by (apply (name_injective b Hnd); cbn; auto).
    now destruct p'.
  - intros p i V.
    destruct (findParentBone b (name (deref b (p ++ [i])))) as [p'|] eqn:H.
    + destruct (Hit _ _ H) as (j & V' & E).
      apply (name_injective b Hnd) in E; [|exact V'|exact V].
      apply app_inj_tail in E as [-> _]. reflexivity.
    + destruct (valid_app p i b V) as [Vp Hc].
      now elim (findParentBone_none _ b H p i _ Vp Hc).
Qed.

Lemma valid_depth (r : ref) :
  forall b : Bone, valid b r -> (Datatypes.length r < boneCount b)%nat.
Proof.
  induction r as [|i r IH]; intros b V.
  - destruct b; cbn; lia.
  - cbn in V. destruct (nth_error (children b) i) as [c|] eqn:Hc; [|contradiction].
    specialize (IH c V).
    assert (Le : (boneCount c <= list_sum (map boneCount (children b)))%nat).
    { revert i Hc. generalize (children b). clear.
      induction l as [|c0 l IHl]; intros [|i] Hc;
        cbn [map list_sum fold_right nth_error] in *; try discriminate.
      - injection Hc as ->. apply Nat.le_add_r.
      - specialize (IHl i Hc). unfold list_sum in IHl. lia. }
    destruct b; cbn [boneCount children Datatypes.length] in *. lia.
Qed.

(** The walk from a bone up to the Navel needs no more fuel than the bone is
    deep. *)
Lemma chainPath_ends (root : Bone) :
  NoDup (names root) ->
  forall (fuel : nat) (r : ref),
    valid root r -> (Datatypes.length r < fuel)%nat ->
    exists path, chainPath fuel root (Some r) = Some path.
Proof.
  intros Hnd. destruct (findParentBone_of_name root Hnd) as [Top Up].
  induction fuel as [|fuel IH]; intros r V L; [lia|].
  cbn [chainPath].
  destruct (String.eqb (name (deref root r)) "Navel"); [eauto|].
  destruct r as [|i0 r0].
  - cbn [deref]. rewrite Top. destruct fuel; cbn; eauto.
  - destruct (@exists_last _ (i0 :: r0)) as (p & i & E); [discriminate|].
    rewrite E in V, L |- *. rewrite (Up p i V).
    destruct (valid_app p i root V) as [Vp _].
    rewrite length_app in L. cbn in L.
    destruct (IH p Vp) as (path & ->); [lia|]. cbn. eauto.
Qed.

(** So [buildLockedChainCache] returns, whatever the lock map holds. *)
Lemma buildLockedChainCache_ends (root : Bone) :
  NoDup (names root) ->
  forall (locks : LockMap) (acc : list string),
    exists cache, buildLockedChainCache root locks acc = Some cache.
Proof.
  intros Hnd. induction locks as [|[nm e] locks IH]; intros acc; cbn; [eauto|].
  assert (P : exists path, chainPath (boneCount root) root (findBone root nm) = Some path).
  { destruct (findBone root nm) as [r|] eqn:Hr.
    - destruct (findBone_spec _ _ _ Hr) as [V _].
      apply chainPath_ends; [exact Hnd | exact V | now apply valid_depth].
    - destruct (boneCount root); cbn; eauto. }
  destruct P as (path & ->). apply IH.
Qed.

Lemma names_deepClone (b : Bone) : names (deepClone b) = names b.
Proof. now rewrite deepClone_id. Qed.

Lemma tensionPose_names : NoDup (names (deepClone tensionPoseSkeleton)).
Proof.
  assert (E : nodup string_dec (names (deepClone tensionPoseSkeleton))
              = names (deepClone tensionPoseSkeleton)) by (vm_compute; reflexivity).
  rewrite <- E. apply NoDup_nodup.
Qed.

(** C10.  An interactive render of a skeleton whose bones have pairwise
    distinct names (as those of [SKELETON_TREE] are) returns or throws,
    leaves the lock map as it was and, in the point object of every lock
    entry whose key ends in Foot, the floor height as [y] (and [x]
    untouched): the clamp goes through the shared entry into the stored
    lock. *)
Theorem drawInteractiveModel_clamps_locks :
  forall s : AppState,
    ctx s = true ->
    NoDup (names (skeleton s)) ->
    let floorY := height (parentRect s) * 0.85 in
    exists s',
      stateOf (drawInteractiveModel s) = Some s'
      /\ lockedBones s' = lockedBones s
      /\ forall nm e,
           In (nm, e) (lockedBones s) -> endsWith nm "Foot" = true ->
           cells (heap s') (position e) = mkPoint (x (cells (heap s) (position e))) floorY.
Proof.
  intros s Hctx Hnd floorY.
  rewrite <- names_deepClone in Hnd.
  destruct (buildLockedChainCache_ends _ Hnd (lockedBones s) []) as (cache & Hcache).
  eexists. split; [apply (drawInteractiveModel_state s cache Hctx Hcache)|].
  split; [reflexivity|]. cbn. apply clampFeet_spec.
Qed.

(** More fuel does not change a walk that ended. *)
Lemma chainPath_more_fuel (root : Bone) (fuel : nat) :
  forall (extra : nat) (current : option ref) (path : list string),
    chainPath fuel root current = Some path ->
    chainPath (fuel + extra) root current = Some path.
Proof.
  induction fuel as [|fuel IH]; intros extra current path.
  - cbn. destruct current as [r|]; [|now destruct extra].
    destruct (String.eqb (name (deref root r)) "Navel") eqn:E; [|discriminate].
    intros H. destruct extra; cbn; now rewrite E.
  - cbn. destruct current as [r|]; [|trivial].
    destruct (String.eqb (name (deref root r)) "Navel"); [trivial|].
    destruct (chainPath fuel root _) as [p|] eqn:E; [|discriminate].
    now rewrite (IH extra _ p E).
Qed.

Lemma footChain_built (e : LockEntry) :
  buildLockedChainCache (deepClone tensionPoseSkeleton) [("L_Foot", e)] [] = Some footChain.
Proof. vm_compute. reflexivity. Qed.

Lemma drawInteractiveModel_clamps_locks_witness :
  let s :=
    set_lockedBones [("L_Foot", mkLockEntry 0%nat)]
      (set_heap (mkHeap (fun _ => mkPoint 100 300) 1%nat) (initialState 800 600)) in
  cells (heap s) 0%nat = mkPoint 100 300
  /\ exists s',
       stateOf (drawInteractiveModel s) = Some s'
       /\ mapGet (lockedBones s') "L_Foot" = Some (mkLockEntry 0%nat)
       /\ cells (heap s') 0%nat = mkPoint 100 (600 * 0.85).
Proof.
  intros s. split; [reflexivity|].
  destruct (drawInteractiveModel_clamps_locks s eq_refl tensionPose_names) as (s' & E & L & C).
  exists s'. split; [exact E|]. split.
  - rewrite L. reflexivity.
  - apply (C "L_Foot" (mkLockEntry 0%nat)); [left; reflexivity | reflexivity].
Defined.

(** ** Manual edits and the locked chain *)

(** [setBoneAngle] assigns the angle whatever the mode, the transition and
    the locks are. *)
Lemma setBoneAngle_angle (s : AppState) (nm : string) (value : R) (isSlider : bool)
    (unit : AngleUnit) (r : ref) :
  findBone (skeleton s) nm = Some r ->
  angle (deref (skeleton (setBoneAngle s nm value isSlider unit)) r)
  = let angleInRad := match unit with deg => degToRad value | rad => value end in
    match boneMetadata nm, isSlider with
    | Some meta, true => Rmax (Meta.min meta) (Rmin (Meta.max meta) angleInRad)
    | _, _ => angleInRad
    end.
Proof.
  intros H. unfold setBoneAngle. rewrite deepClone_id, H.
  assert (E : forall s0 : AppState,
             skeleton
               match find (fun g => includes (bones g) nm) controlGroups with
               | Some g => set_lastAdjustedGroup (Some (groupName g)) s0
               | None =>
                   if mapHas (lockedBones s0) nm
                   then set_lastAdjustedGroup (Some nm) s0 else s0
               end = skeleton s0).
  { intros s0. destruct (find _ controlGroups); [reflexivity|].
    now destruct (mapHas _ nm). }
  rewrite E.
  destruct (findBone_spec nm _ _ H) as [V _].
  destruct (boneMetadata nm) as [meta|]; [destruct isSlider|]; cbn;
    now rewrite deref_update_same.
Qed.

Lemma toggleLock_keeps (s : AppState) (nm : string) :
  skeleton (toggleLock s nm) = skeleton s
  /\ ctx (toggleLock s nm) = ctx s
  /\ parentRect (toggleLock s nm) = parentRect s
  /\ motionMode (toggleLock s nm) = motionMode s
  /\ animationFrameId (toggleLock s nm) = animationFrameId s.
Proof.
  unfold toggleLock.
  destruct (negb _); [auto|]. destruct (mapHas _ _); [cbn; auto|].
  destruct (findParentBone _ nm); [|cbn; auto].
  destruct (globalPos _); cbn; auto.
Qed.

(** The keyboard path does guard: in Collapse mode, during a transition, or
    on a control in the locked chain that is not itself locked, a key other
    than the reset key changes nothing. *)
Lemma handleKeyDown_guarded (s : AppState) (key : string) :
  key <> "`" ->
  motionMode s = Collapse
  \/ active (animationState s) = true
  \/ (exists c, activeControl s = Some c /\ isBoneInLockedChain s c false = true) ->
  handleKeyDown s key = s.
Proof.
  intros Hk H. unfold handleKeyDown.
  destruct (String.eqb_spec key "`"); [contradiction|].
  destruct H as [-> | [-> | (c & -> & ->)]]; cbn.
  - reflexivity.
  - now rewrite orb_true_r.
  - destruct (MotionMode_eqb (motionMode s) Collapse || active (animationState s));
      [reflexivity | now rewrite orb_true_r].
Qed.

Lemma lockedFootState_fields :
  skeleton lockedFootState = tensionPoseSkeleton
  /\ ctx lockedFootState = true
  /\ motionMode lockedFootState = Tension
  /\ animationFrameId lockedFootState = None
  /\ lockedBones lockedFootState = [("L_Foot", mkLockEntry 0%nat)].
Proof.
  destruct (toggleLock_keeps (initialState 800 600) "L_Foot") as (Sk & Cx & _ & Mo & Fr).
  unfold lockedFootState. rewrite Sk, Cx, Mo, Fr.
  split; [apply deepClone_id|].
  split; [reflexivity|]. split; [reflexivity|]. split; [reflexivity|].
  vm_compute. reflexivity.
Qed.

(** A state with L_Foot locked on the tension pose: after a render the calf
    is in the locked chain, and [setBoneAngle] still moves it. *)
Lemma setBoneAngle_on_locked_chain (s0 : AppState) (calf : ref) (e : LockEntry) :
  skeleton s0 = tensionPoseSkeleton ->
  ctx s0 = true ->
  motionMode s0 = Tension ->
  animationFrameId s0 = None ->
  lockedBones s0 = [("L_Foot", e)] ->
  findBone tensionPoseSkeleton "L_Calf" = Some calf ->
  exists s1,
    stateOf (drawInteractiveModel s0) = Some s1
    /\ isBoneInLockedChain s1 "L_Calf" false = true
    /\ findBone (skeleton s1) "L_Calf" = Some calf
    /\ skeleton s1 = tensionPoseSkeleton
    /\ angle (deref (skeleton (setBoneAngle s1 "L_Calf" 1 true rad)) calf) = 1
    /\ angle (deref (skeleton (setBoneAngle (set_motionMode Collapse s1) "L_Calf" 1 true rad))
                    calf) = 1
    /\ angle (deref (skeleton
                       (setBoneAngle (startAnimation s1 initialSkeleton T_Pose 30 1)
                          "L_Calf" 1 true rad)) calf) = 1.
Proof.
  intros Sk Cx Mo Fr Hlocks Hcalf.
  assert (Hcache : buildLockedChainCache (deepClone (skeleton s0)) (lockedBones s0) []
                   = Some footChain).
  { rewrite Sk, Hlocks. apply footChain_built. }
  assert (Clamp : Rmax (- PI) (Rmin PI 1) = 1).
  { pose proof PI2_1. rewrite Rmin_right by lra. rewrite Rmax_right by lra. reflexivity. }
  eexists. split; [apply (drawInteractiveModel_state s0 footChain Cx Hcache)|].
  cbn [skeleton set_heap set_lockedChainCache].
  split; [|split; [|split; [|split; [|split]]]].
  - unfold isBoneInLockedChain.
    cbn [lockedBones lockedChainCache set_heap set_lockedChainCache].
    rewrite Hlocks. reflexivity.
  - now rewrite Sk.
  - exact Sk.
  - rewrite setBoneAngle_angle by (cbn [skeleton set_heap set_lockedChainCache];
                                   now rewrite Sk).
    exact Clamp.
  - rewrite setBoneAngle_angle
      by (cbn [skeleton set_heap set_lockedChainCache set_motionMode]; now rewrite Sk).
    exact Clamp.
  - rewrite setBoneAngle_angle.
    + exact Clamp.
    + unfold startAnimation.
      cbn [motionMode set_heap set_lockedChainCache]. rewrite Mo.
      cbn [MotionMode_eqb skeleton animationFrameId set_animationState set_heap
           set_lockedChainCache].
      rewrite Fr. cbn [skeleton set_animationFrameId set_animationState set_heap
                       set_lockedChainCache].
      now rewrite Sk.
Qed.

Lemma tension_calf :
  findBone tensionPoseSkeleton "L_Calf" = Some [1; 0; 0; 0; 0; 0]%nat
  /\ angle (deref tensionPoseSkeleton [1; 0; 0; 0; 0; 0]%nat) = 0.
Proof. split; vm_compute; reflexivity. Qed.

(** C5 on the code: [setBoneAngle] has no guard.  With L_Foot locked and the
    chain cache built by a render, L_Calf (the bone at [1; 0; 0; 0; 0; 0]) is
    in the locked chain and is not the effector, yet the slider call moves
    it from 0 to 1; the same call goes through in Collapse mode and during a
    transition. *)
Theorem setBoneAngle_unguarded :
  exists s1,
    stateOf (drawInteractiveModel lockedFootState) = Some s1
    /\ isBoneInLockedChain s1 "L_Calf" false = true
    /\ findBone (skeleton s1) "L_Calf" = Some [1; 0; 0; 0; 0; 0]%nat
    /\ angle (deref (skeleton s1) [1; 0; 0; 0; 0; 0]%nat) = 0
    /\ angle (deref (skeleton (setBoneAngle s1 "L_Calf" 1 true rad))
                    [1; 0; 0; 0; 0; 0]%nat) = 1
    /\ angle (deref (skeleton (setBoneAngle (set_motionMode Collapse s1) "L_Calf" 1 true rad))
                    [1; 0; 0; 0; 0; 0]%nat) = 1
    /\ angle (deref (skeleton
                       (setBoneAngle (startAnimation s1 initialSkeleton T_Pose 30 1)
                          "L_Calf" 1 true rad)) [1; 0; 0; 0; 0; 0]%nat) = 1.
Proof.
  destruct lockedFootState_fields as (Sk & Cx & Mo & Fr & Hl).
  destruct tension_calf as [Hcalf Hzero].
  destruct (setBoneAngle_on_locked_chain lockedFootState _ _ Sk Cx Mo Fr Hl Hcalf)
    as (s1 & E & G & F & Sk1 & A1 & A2 & A3).
  exists s1. repeat split; auto. now rewrite Sk1.
Qed.

(** * Further properties of the code *)

(** ** Searching the tree by name *)

Lemma firstChild_none (f : Bone -> option ref) (cs : list Bone) :
  forall k : nat, firstChild f cs k = None -> forall c, In c cs -> f c = None.
Proof.
  induction cs as [|c0 cs IH]; intros k H c Hin; [contradiction|].
  cbn in H. destruct (f c0) eqn:E; [discriminate|].
  destruct Hin as [<- | Hin]; [exact E | eapply IH; eauto].
Qed.

Lemma findBone_none (nm : string) (b : Bone) :
  findBone b nm = None -> forall q : ref, valid b q -> name (deref b q) <> nm.
Proof.
  induction b as [b IH] using Bone_tree_ind.
  destruct b as [n len a ta m cs z v gp ga]; cbn in *.
  destruct (String.eqb_spec n nm) as [->|Hn]; [discriminate|].
  intros H [|i q]; cbn; [intros _; exact Hn|].
  destruct (nth_error cs i) as [c|] eqn:Hc; [|contradiction].
  intros Vq. rewrite Forall_forall in IH.
  apply nth_error_In in Hc as Hin.
  apply (IH c Hin); [|exact Vq].
  exact (firstChild_none _ _ _ H c Hin).
Qed.

(** X1.  [findBone] is a sound and complete search: a reference it returns
    leads to a bone of the tree that has the name asked for, and when it
    returns [null] no bone of the tree has that name. *)
Theorem findBone_sound_complete :
  forall (root : Bone) (nm : string),
    (forall r : ref,
       findBone root nm = Some r -> valid root r /\ name (deref root r) = nm)
    /\ (findBone root nm = None ->
        forall q : ref, valid root q -> name (deref root q) <> nm).
Proof.
  intros root nm. split.
  - apply findBone_spec.
  - apply findBone_none.
Qed.

Lemma findBone_sound_complete_witness :
  name (deref SKELETON_TREE [1; 0; 0; 0; 0; 0; 0; 0]%nat) = "L_Foot"
  /\ name (deref SKELETON_TREE [0; 0; 0]%nat) <> "Tail".
Proof.
  split.
  - apply (proj1 (findBone_sound_complete SKELETON_TREE "L_Foot")). reflexivity.
  - apply (proj2 (findBone_sound_complete SKELETON_TREE "Tail")); [reflexivity | exact I].
Defined.

(** X2.  [findParentBone] is a sound and complete search for a bone with a
    child of the given name: the bone it returns is in the tree and has such
    a child, and when it returns [null] no bone of the tree has a child of
    that name (in particular the root's own name is never matched). *)
Theorem findParentBone_sound_complete :
  forall (root : Bone) (childName : string),
    (forall p : ref,
       findParentBone root childName = Some p ->
       valid root p
       /\ exists i c, nth_error (children (deref root p)) i = Some c
                      /\ name c = childName)
    /\ (findParentBone root childName = None ->
        forall (q : ref) (i : nat) (c : Bone),
          valid root q -> nth_error (children (deref root q)) i = Some c ->
          name c <> childName).
Proof.
  intros root nm. split.
  - intros p H. split; [eapply findParentBone_valid | eapply findParentBone_child]; eauto.
  - apply findParentBone_none.
Qed.

Lemma findParentBone_sound_complete_witness :
  (exists i c,
     nth_error (children (deref SKELETON_TREE [1; 0; 0; 0; 0; 0; 0]%nat)) i = Some c
     /\ name c = "L_Foot")
  /\ findParentBone SKELETON_TREE "Navel" = None.
Proof.
  split.
  - apply (proj1 (findParentBone_sound_complete SKELETON_TREE "L_Foot")). reflexivity.
  - reflexivity.
Defined.

(** The two searches walk the tree in the same order: below a root of another
    name, the bone [findBone] finds is a child of the bone [findParentBone]
    finds. *)
Lemma findBone_findParentBone (nm : string) (b : Bone) :
  name b <> nm ->
  match findBone b nm with
  | Some r => exists p i, r = p ++ [i] /\ findParentBone b nm = Some p
  | None => findParentBone b nm = None
  end.
Proof.
  induction b as [b IH] using Bone_tree_ind.
  destruct b as [n len a ta m cs z v gp ga]; cbn in *.
  intros Hn. destruct (String.eqb_spec n nm) as [|_]; [contradiction|].
  generalize 0%nat.
  induction IH as [|c cs Hc _ IHcs]; intros k; cbn; [reflexivity|].
  destruct (String.eqb_spec (name c) nm) as [E|N].
  - assert (F : findBone c nm = Some []).
    { destruct c; cbn in *. subst. now rewrite String.eqb_refl. }
    rewrite F. now exists [], k.
  - specialize (Hc N). destruct (findBone c nm) as [r|].
    + destruct Hc as (p & i & -> & ->). now exists (k :: p), i.
    + rewrite Hc. apply IHcs.
Qed.

(** X3.  Below a root that does not itself carry the name, the bone found by
    [findBone] is a child of the bone found by [findParentBone]: the
    reference of the first extends the reference of the second by one child
    index, and one search fails exactly when the other does. *)
Theorem findParentBone_is_parent_of_findBone :
  forall (root : Bone) (nm : string),
    name root <> nm ->
    (forall r : ref,
       findBone root nm = Some r ->
       exists p i, r = p ++ [i] /\ findParentBone root nm = Some p)
    /\ (findBone root nm = None <-> findParentBone root nm = None).
Proof.
  intros root nm Hn. pose proof (findBone_findParentBone nm root Hn) as H.
  destruct (findBone root nm) as [r|].
  - destruct H as (p & i & -> & Hp). split.
    + intros r [= <-]. eauto.
    + rewrite Hp. split; discriminate.
  - split; [discriminate | tauto].
Qed.

Lemma findParentBone_is_parent_of_findBone_witness :
  exists p i,
    [1; 0; 0; 0; 0; 0]%nat = p ++ [i]
    /\ findParentBone SKELETON_TREE "L_Calf" = Some p.
Proof.
  apply (proj1 (findParentBone_is_parent_of_findBone SKELETON_TREE "L_Calf"
                  ltac:(discriminate))).
  reflexivity.
Defined.

(** ** Pose blending between the end points *)

Lemma lerpChildren_nth (f : Bone -> Bone -> Bone -> option Bone) (cs : list Bone) :
  forall (ss ts cs' : list Bone) (i : nat) (c : Bone),
    lerpChildren f cs ss ts = Some cs' ->
    nth_error cs i = Some c ->
    exists s0 t0 c',
      nth_error ss i = Some s0 /\ nth_error ts i = Some t0
      /\ nth_error cs' i = Some c' /\ f c s0 t0 = Some c'.
Proof.
  induction cs as [|c0 cs IH]; intros ss ts cs' i c H Hi; [now destruct i|].
  cbn in H. destruct ss as [|s0 ss]; [discriminate|]. destruct ts as [|t0 ts]; [discriminate|].
  destruct (f c0 s0 t0) as [c0'|] eqn:E; [|discriminate].
  destruct (lerpChildren f cs ss ts) as [r|] eqn:Er; [|discriminate].
  cbn in H. injection H as <-.
  destruct i as [|i]; cbn in *.
  - injection Hi as <-. exists s0, t0, c0'. auto.
  - eapply IH; eauto.
Qed.

(** What an interpolation that goes through leaves on every bone. *)
Lemma lerpSkeleton_angles (progress : R) (current : Bone) :
  forall (start0 target0 r : Bone),
    lerpSkeleton progress current start0 target0 = Some r ->
    forall q : ref,
      valid current q ->
      valid start0 q /\ valid target0 q
      /\ angle (deref r q)
         = lerp (angle (deref start0 q)) (angle (deref target0 q)) progress.
Proof.
  induction current as [current IH] using Bone_tree_ind.
  intros start0 target0 r H q Vq.
  destruct current as [n len a ta m cs z v gp ga]; cbn in *.
  destruct (lerpChildren _ cs (children start0) (children target0)) as [cs'|] eqn:E;
    [|discriminate].
  injection H as <-.
  destruct q as [|i q]; cbn in *; [auto|].
  destruct (nth_error cs i) as [c|] eqn:Hc; [|contradiction].
  destruct (lerpChildren_nth _ _ _ _ _ _ _ E Hc) as (s0 & t0 & c' & -> & -> & -> & F).
  rewrite Forall_forall in IH.
  exact (IH c (nth_error_In _ _ Hc) s0 t0 c' F q Vq).
Qed.

Lemma valid_topology (q : ref) :
  forall a b : Bone, topology a = topology b -> valid a q -> valid b q.
Proof.
  induction q as [|i q IH]; intros a b T; cbn; [trivial|].
  apply topology_children in T as [_ T].
  apply (f_equal (fun l => nth_error l i)) in T. rewrite !nth_error_map in T.
  destruct (nth_error (children a) i) as [c|]; [|contradiction].
  destruct (nth_error (children b) i) as [c'|]; [|discriminate].
  cbn in T. injection T as T. now apply IH.
Qed.

(** One tick of a transition that is not on its last frame. *)
Lemma tick_midway (start0 target0 : Bone) (mode : MotionMode) (offsets : Point)
    (n c : nat) (s : AppState) :
  blending start0 target0 mode offsets n c s ->
  topology start0 = topology target0 ->
  (S c < n)%nat ->
  exists s',
    updateTransitionAnimation s = Done s'
    /\ blending start0 target0 mode offsets n (S c) s'
    /\ motionMode s' = motionMode s
    /\ navelOffsetX s' = lerp (x offsets) 0 (INR (S c) / INR n)
    /\ navelOffsetY s' = lerp (y offsets) 0 (INR (S c) / INR n)
    /\ forall q : ref,
         valid start0 q ->
         angle (deref (skeleton s') q)
         = lerp (angle (deref start0 q)) (angle (deref target0 q)) (INR (S c) / INR n).
Proof.
  intros [A T] Tt Hc. unfold updateTransitionAnimation. rewrite A. cbn -[INR].
  rewrite deepClone_id, <- S_INR.
  destruct (lerpSkeleton_topology (INR (S c) / INR n) (skeleton s) start0 target0)
    as (r & E & Tr); [exact T | congruence |].
  rewrite E.
  destruct (Rle_dec (INR n) (INR (S c))) as [Y|_]; [apply INR_le in Y; lia|].
  eexists. split; [reflexivity|]. unfold blending. cbn -[INR].
  split; [split; [reflexivity | congruence]|].
  split; [reflexivity|]. split; [reflexivity|]. split; [reflexivity|].
  intros q Vq.
  apply (lerpSkeleton_angles _ _ _ _ _ E q).
  apply (valid_topology q start0); [congruence | exact Vq].
Qed.

Lemma ticks_midway (start0 target0 : Bone) (mode : MotionMode) (offsets : Point) (n : nat) :
  topology start0 = topology target0 ->
  forall (k c : nat) (s : AppState),
    blending start0 target0 mode offsets n c s ->
    (c + S k < n)%nat ->
    exists s',
      ticks (S k) s = Done s'
      /\ blending start0 target0 mode offsets n (c + S k) s'
      /\ motionMode s' = motionMode s
      /\ navelOffsetX s' = lerp (x offsets) 0 (INR (c + S k) / INR n)
      /\ navelOffsetY s' = lerp (y offsets) 0 (INR (c + S k) / INR n)
      /\ forall q : ref,
           valid start0 q ->
           angle (deref (skeleton s') q)
           = lerp (angle (deref start0 q)) (angle (deref target0 q)) (INR (c + S k) / INR n).
Proof.
  intros Tt. induction k as [|k IH]; intros c s B Hc.
  - destruct (tick_midway _ _ _ _ _ _ _ B Tt) as (s' & E & R); [lia|].
    exists s'. cbn [ticks]. rewrite E. cbn. now rewrite Nat.add_1_r.
  - destruct (tick_midway _ _ _ _ _ _ _ B Tt) as (s1 & E & B1 & M1 & _); [lia|].
    destruct (IH (S c) s1 B1) as (s' & E' & R); [lia|].
    exists s'. cbn [ticks]. rewrite E. cbn [andThen].
    replace (c + S (S k))%nat with (S c + S k)%nat by lia.
    split; [exact E'|]. destruct R as (R1 & R2 & R3 & R4 & R5).
    split; [exact R1|]. split; [congruence|]. auto.
Qed.

Lemma startAnimation_blending (s : AppState) (target0 : Bone) (mode : MotionMode)
    (n handle : nat) :
  let s1 := startAnimation s target0 mode (INR n) handle in
  blending (skeleton s1) target0 mode (mkPoint (navelOffsetX s1) (navelOffsetY s1)) n 0 s1
  /\ topology (skeleton s1) = topology (skeleton s)
  /\ motionMode s1 = motionMode s
  /\ navelOffsetX s1 = navelOffsetX s /\ navelOffsetY s1 = navelOffsetY s.
Proof.
  unfold startAnimation, updateSkeletonAnglesFromPhysics, blending.
  destruct (MotionMode_eqb (motionMode s) Collapse); cbn -[INR];
    destruct (animationFrameId s); cbn -[INR]; rewrite deepClone_id;
    rewrite ?traverse_topology; auto.
Qed.

(** X6.  Between the end points the blend is linear in the frame number:
    after [k] ticks of a transition of [n] frames started by
    [startAnimation], with [1 <= k < n], the transition is still active, the
    mode is not yet changed, every bone's angle is [lerp] of its angle at
    the start and the target's angle at [k / n], and the ground offsets are
    [lerp] of their values at the start and 0 at [k / n]. *)
Theorem blend_is_linear :
  forall (s : AppState) (target0 : Bone) (mode : MotionMode) (n handle k : nat),
    (1 <= k)%nat -> (k < n)%nat ->
    topology (skeleton s) = topology target0 ->
    let s1 := startAnimation s target0 mode (INR n) handle in
    exists s',
      ticks k s1 = Done s'
      /\ active (animationState s') = true
      /\ motionMode s' = motionMode s
      /\ navelOffsetX s' = lerp (navelOffsetX s) 0 (INR k / INR n)
      /\ navelOffsetY s' = lerp (navelOffsetY s) 0 (INR k / INR n)
      /\ forall q : ref,
           valid (skeleton s1) q ->
           angle (deref (skeleton s') q)
           = lerp (angle (deref (skeleton s1) q)) (angle (deref target0 q)) (INR k / INR n).
Proof.
  intros s target0 mode n handle k Hk Hn T s1.
  destruct (startAnimation_blending s target0 mode n handle) as (B & T1 & M & Ox & Oy).
  fold s1 in B, T1, M, Ox, Oy.
  destruct k as [|k]; [lia|].
  destruct (ticks_midway (skeleton s1) target0 mode _ n ltac:(congruence) k 0 s1 B)
    as (s' & E & [A _] & M' & X' & Y' & Q); [lia|].
  cbn [Nat.add x y] in *.
  exists s'. split; [exact E|]. rewrite A. cbn [active].
  split; [reflexivity|]. split; [congruence|].
  split; [now rewrite <- Ox|]. split; [now rewrite <- Oy|]. exact Q.
Qed.

Lemma blend_is_linear_witness :
  exists s',
    ticks 15 (startAnimation rigState (legRig 100 100) T_Pose (INR 30) 1) = Done s'
    /\ active (animationState s') = true
    /\ motionMode s' = Tension.
Proof.
  destruct (blend_is_linear rigState (legRig 100 100) T_Pose 30 1 15)
    as (s' & E & A & M & _); [lia | lia | reflexivity |].
  exists s'. auto.
Defined.

(** X7.  Blending skeletons that do not match is a [TypeError] that leaves
    the state alone: when the transition is active and the live skeleton has
    a bone at a place where the start or the target skeleton has none (or one
    of the two is [null]), the tick throws and every signal keeps its
    value. *)
Theorem blend_mismatch_throws :
  forall s : AppState,
    active (animationState s) = true ->
    (forall start0 target0,
       startSkeleton (animationState s) = Some start0 ->
       targetSkeleton (animationState s) = Some target0 ->
       exists q : ref,
         valid (skeleton s) q /\ (~ valid start0 q \/ ~ valid target0 q)) ->
    updateTransitionAnimation s = Threw s.
Proof.
  intros s A H. unfold updateTransitionAnimation. rewrite A. cbn [negb].
  destruct (startSkeleton (animationState s)) as [start0|]; [|reflexivity].
  destruct (targetSkeleton (animationState s)) as [target0|]; [|reflexivity].
  destruct (H start0 target0 eq_refl eq_refl) as (q & Vq & Bad).
  rewrite deepClone_id.
  destruct (lerpSkeleton _ (skeleton s) start0 target0) as [r|] eqn:E; [|reflexivity].
  destruct (lerpSkeleton_angles _ _ _ _ _ E q Vq) as (V1 & V2 & _). tauto.
Qed.

Lemma blend_mismatch_throws_witness :
  let s :=
    set_animationState
      (mkAnimationState true (Some (legRig 100 100)) (Some (lit "Navel" 0 0 10 None []))
         (mkPoint 0 0) (mkPoint 0 0) 30 0 (Some T_Pose)) rigState in
  updateTransitionAnimation s = Threw s.
Proof.
  intros s. apply blend_mismatch_throws; [reflexivity|].
  intros start0 target0 [= <-] [= <-]. exists [0%nat]. cbn. tauto.
Defined.

(** ** The locked chain cache *)

Lemma includes_In (l : list string) (k : string) : includes l k = true <-> In k l.
Proof.
  unfold includes. rewrite existsb_exists. split.
  - intros (k' & Hin & E). apply String.eqb_eq in E. now subst.
  - intros Hin. exists k. split; [exact Hin | apply String.eqb_refl].
Qed.

Lemma setAdd_In (s : list string) (k k' : string) :
  In k' (setAdd s k) <-> In k' s \/ k' = k.
Proof.
  unfold setAdd. destruct (includes s k) eqn:E.
  - apply includes_In in E. split; [auto | intros [H | ->]; auto].
  - rewrite in_app_iff. cbn. intuition.
Qed.

Lemma setAdd_NoDup (s : list string) (k : string) : NoDup s -> NoDup (setAdd s k).
Proof.
  intros H. unfold setAdd. destruct (includes s k) eqn:E; [exact H|].
  apply NoDup_app; [exact H | repeat constructor; intros [] |].
  intros a Ha [<- | []]. apply includes_In in Ha. congruence.
Qed.

Lemma fold_setAdd (path : list string) :
  forall cache : list string,
    (NoDup cache -> NoDup (fold_left setAdd path cache))
    /\ forall k, In k (fold_left setAdd path cache) <-> In k cache \/ In k path.
Proof.
  induction path as [|p path IH]; intros cache; cbn.
  - split; [auto | intros k; tauto].
  - destruct (IH (setAdd cache p)) as [N I]. split.
    + intros H. apply N, setAdd_NoDup, H.
    + intros k. rewrite I, setAdd_In. intuition.
Qed.

(** A name is on a chain when it is not Navel, names a bone of the tree, and
    the bone found as its parent is Navel or on the chain too. *)
Lemma chainPath_spec (root : Bone) (fuel : nat) :
  forall (current : option ref) (path : list string),
    chainPath fuel root current = Some path ->
    (forall r, current = Some r -> valid root r) ->
    (forall r, current = Some r -> name (deref root r) <> "Navel" ->
               In (name (deref root r)) path)
    /\ forall nm,
         In nm path ->
         nm <> "Navel"
         /\ (exists q, valid root q /\ name (deref root q) = nm)
         /\ forall p, findParentBone root nm = Some p ->
                      name (deref root p) <> "Navel" -> In (name (deref root p)) path.
Proof.
  induction fuel as [|fuel IH]; intros current path H V.
  - cbn in H. destruct current as [r|]; [|injection H as <-; split; [discriminate | contradiction]].
    destruct (String.eqb_spec (name (deref root r)) "Navel") as [E|]; [|discriminate].
    injection H as <-. split; [|contradiction]. intros r' [= <-] N. contradiction.
  - cbn in H. destruct current as [r|]; [|injection H as <-; split; [discriminate | contradiction]].
    destruct (String.eqb_spec (name (deref root r)) "Navel") as [E|N].
    + injection H as <-. split; [|contradiction]. intros r' [= <-] N. contradiction.
    + destruct (chainPath fuel root _) as [rest|] eqn:Er; [|discriminate].
      injection H as <-.
      destruct (IH _ _ Er) as [Head Tail].
      { intros p Hp. eapply findParentBone_valid; eauto. }
      split; [intros r' [= <-] _; now left|].
      intros nm [<- | Hin].
      * split; [exact N|]. split; [exists r; auto|].
        intros p Hp Np. right. now apply Head.
      * destruct (Tail nm Hin) as (A & B & C). repeat split; auto.
        intros p Hp Np. right. now apply C.
Qed.

(** What a chain walk that ended leaves in the cache. *)
Lemma buildLockedChainCache_cache :
  forall (root : Bone) (locks : LockMap) (cache : list string),
    buildLockedChainCache root locks [] = Some cache ->
    NoDup cache
    /\ ~ In "Navel" cache
    /\ (forall nm, In nm cache -> exists q, valid root q /\ name (deref root q) = nm)
    /\ (forall nm e r,
          In (nm, e) locks -> findBone root nm = Some r -> nm <> "Navel" -> In nm cache)
    /\ (forall nm p,
          In nm cache -> findParentBone root nm = Some p ->
          name (deref root p) <> "Navel" -> In (name (deref root p)) cache).
Proof.
  intros root locks.
  set (good := fun nm : string =>
         nm <> "Navel"
         /\ (exists q, valid root q /\ name (deref root q) = nm)).
  assert (G : forall (acc cache : list string),
             buildLockedChainCache root locks acc = Some cache ->
             NoDup acc -> (forall nm, In nm acc -> good nm) ->
             (forall nm p, In nm acc -> findParentBone root nm = Some p ->
                           name (deref root p) <> "Navel" -> In (name (deref root p)) acc) ->
             NoDup cache
             /\ (forall nm, In nm cache -> good nm)
             /\ (forall nm, In nm acc -> In nm cache)
             /\ (forall nm e r, In (nm, e) locks -> findBone root nm = Some r ->
                                nm <> "Navel" -> In nm cache)
             /\ (forall nm p, In nm cache -> findParentBone root nm = Some p ->
                              name (deref root p) <> "Navel" ->
                              In (name (deref root p)) cache)).
  { induction locks as [|[k e0] locks IH]; intros acc cache H N Gd Cl; cbn in H.
    - injection H as <-.
      split; [exact N|]. split; [exact Gd|]. split; [auto|].
      split; [intros nm e r [] | exact Cl].
    - destruct (chainPath (boneCount root) root (findBone root k)) as [path|] eqn:Ep;
        [|discriminate].
      destruct (chainPath_spec root _ _ _ Ep) as [Head Tail].
      { intros r Hr. now apply (findBone_spec k). }
      destruct (fold_setAdd path acc) as [N' I'].
      destruct (IH _ _ H (N' N)) as (R1 & R2 & R3 & R4 & R5).
      + intros nm Hin. apply I' in Hin as [Hin | Hin]; [auto|].
        destruct (Tail nm Hin) as (A & B & _). split; auto.
      + intros nm p Hin Hp Np. apply I'. apply I' in Hin as [Hin | Hin].
        * left. eapply Cl; eauto.
        * right. destruct (Tail nm Hin) as (_ & _ & C). now apply C.
      + split; [exact R1|]. split; [exact R2|]. split; [|split; [|exact R5]].
        * intros nm Hin. apply R3, I'. now left.
        * intros nm e r [[= <- <-] | Hin] Hf Nn; [|eapply R4; eauto].
          apply R3, I'. right.
          destruct (findBone_spec _ _ _ Hf) as [_ En].
          rewrite <- En. apply Head; [exact Hf | now rewrite En]. }
  intros cache H.
  destruct (G [] cache H (NoDup_nil _)) as (R1 & R2 & _ & R4 & R5);
    [intros nm [] | intros nm p [] |].
  split; [exact R1|]. split; [|split; [|split; [exact R4 | exact R5]]].
  - intros Hin. now destruct (R2 _ Hin) as [A _].
  - intros nm Hin. now destruct (R2 _ Hin) as [_ B].
Qed.

(** X8.  On a tree whose bones have pairwise distinct names the chain walk
    ends for every lock map, and the locked chain cache it builds has no
    duplicates, never contains Navel, contains only names of bones of the
    tree, contains every locked effector that is a bone of the tree, and is
    closed under going to the parent found by [findParentBone], short of
    Navel. *)
Theorem buildLockedChainCache_spec :
  forall (root : Bone) (locks : LockMap),
    NoDup (names root) ->
    exists cache,
      buildLockedChainCache root locks [] = Some cache
      /\ NoDup cache
      /\ ~ In "Navel" cache
      /\ (forall nm, In nm cache -> exists q, valid root q /\ name (deref root q) = nm)
      /\ (forall nm e r,
            In (nm, e) locks -> findBone root nm = Some r -> nm <> "Navel" -> In nm cache)
      /\ (forall nm p,
            In nm cache -> findParentBone root nm = Some p ->
            name (deref root p) <> "Navel" -> In (name (deref root p)) cache).
Proof.
  intros root locks Hnd.
  destruct (buildLockedChainCache_ends root Hnd locks []) as (cache & H).
  exists cache. split; [exact H|].
  exact (buildLockedChainCache_cache root locks cache H).
Qed.

Lemma legRig_names (l1 l2 : R) : NoDup (names (legRig l1 l2)).
Proof. cbn. repeat constructor; cbn; intuition discriminate. Qed.

Lemma buildLockedChainCache_spec_witness :
  exists cache,
    buildLockedChainCache (legRig 100 100) [("R_Foot", mkLockEntry 0%nat)] [] = Some cache
    /\ NoDup cache /\ ~ In "Navel" cache /\ In "R_Foot" cache.
Proof.
  destruct (buildLockedChainCache_spec (legRig 100 100) [("R_Foot", mkLockEntry 0%nat)]
              (legRig_names 100 100)) as (cache & E & N & Nav & _ & L & _).
  exists cache. repeat split; auto.
  apply (L "R_Foot" (mkLockEntry 0%nat) [0; 0; 0]%nat);
    [left; reflexivity | reflexivity | discriminate].
Defined.

(** ** Toggling and resetting locks *)

Lemma mapDelete_absent {V : Type} (m : list (string * V)) (k : string) :
  mapHas m k = false -> mapDelete m k = m.
Proof.
  unfold mapHas, mapDelete. induction m as [|[k0 v0] m IH]; cbn; [reflexivity|].
  destruct (String.eqb k0 k); cbn; [discriminate|]. intros H. now rewrite IH.
Qed.

Lemma mapDelete_mapSet {V : Type} (m : list (string * V)) (k : string) (v : V) :
  mapHas m k = false -> mapDelete (mapSet m k v) k = m.
Proof.
  unfold mapHas, mapDelete. induction m as [|[k0 v0] m IH]; cbn.
  - now rewrite String.eqb_refl.
  - destruct (String.eqb k0 k) eqn:E; cbn; [discriminate|].
    rewrite E. cbn. intros H. now rewrite IH.
Qed.

Lemma toggleLock_keeps_offsets (s : AppState) (nm : string) :
  navelOffsetX (toggleLock s nm) = navelOffsetX s
  /\ navelOffsetY (toggleLock s nm) = navelOffsetY s.
Proof.
  unfold toggleLock.
  destruct (negb _); [auto|]. destruct (mapHas _ _); [cbn; auto|].
  destruct (findParentBone _ nm); [|cbn; auto].
  destruct (globalPos _); cbn; auto.
Qed.

(** X9.  Locking an effector that was not locked and unlocking it again
    restores the lock map, and the skeleton and the mode are as before:
    toggling twice is the identity on the locks. *)
Theorem toggleLock_twice :
  forall (s : AppState) (nm : string),
    mapHas (lockedBones s) nm = false ->
    lockedBones (toggleLock (toggleLock s nm) nm) = lockedBones s
    /\ skeleton (toggleLock (toggleLock s nm) nm) = skeleton s
    /\ motionMode (toggleLock (toggleLock s nm) nm) = motionMode s.
Proof.
  intros s nm Hh.
  destruct (toggleLock_keeps s nm) as (K1 & _ & _ & K4 & _).
  destruct (toggleLock_keeps (toggleLock s nm) nm) as (L1 & _ & _ & L4 & _).
  split; [|split; congruence].
  assert (Locks : lockedBones (toggleLock s nm) = lockedBones s
                  \/ exists e, lockedBones (toggleLock s nm)
                               = mapSet (lockedBones s) nm e).
  { unfold toggleLock. destruct (negb _); [auto|]. rewrite Hh.
    destruct (findParentBone _ nm); [|cbn; auto].
    destruct (globalPos _); cbn; eauto. }
  assert (Fix : forall s1 : AppState,
             lockedBones s1 = lockedBones s -> skeleton s1 = skeleton s ->
             parentRect s1 = parentRect s -> navelOffsetX s1 = navelOffsetX s ->
             navelOffsetY s1 = navelOffsetY s ->
             lockedBones (toggleLock s nm) = lockedBones s ->
             lockedBones (toggleLock s1 nm) = lockedBones s).
  { intros s1 E1 E2 E3 E4 E5. unfold toggleLock. rewrite E1, E2, E3, E4, E5, Hh.
    destruct (negb _); [auto|].
    destruct (findParentBone _ nm); [|cbn; auto].
    destruct (globalPos _); cbn; [|auto].
    intros E. exfalso.
    assert (F : mapHas (mapSet (lockedBones s) nm {| position := next (heap s) |}) nm = true).
    { apply mapHas_mapGet. eexists. apply mapGet_mapSet_same. }
    rewrite E in F. congruence. }
  destruct Locks as [E | (e & E)].
  - apply Fix; auto; try apply toggleLock_keeps; apply toggleLock_keeps_offsets.
  - assert (Lk : includes lockableBones nm = true).
    { destruct (includes lockableBones nm) eqn:I; [reflexivity|].
      unfold toggleLock in E. rewrite I in E. cbn in E.
      assert (F : mapHas (mapSet (lockedBones s) nm e) nm = true).
      { apply mapHas_mapGet. eexists. apply mapGet_mapSet_same. }
      rewrite <- E in F. congruence. }
    assert (Hs : mapHas (lockedBones (toggleLock s nm)) nm = true).
    { rewrite E. apply mapHas_mapGet. eexists. apply mapGet_mapSet_same. }
    unfold toggleLock at 1. rewrite Lk, Hs. cbn. rewrite E.
    now apply mapDelete_mapSet.
Qed.

Lemma toggleLock_twice_witness :
  lockedBones (toggleLock (toggleLock rigState "R_Foot") "R_Foot") = [].
Proof.
  apply (proj1 (toggleLock_twice rigState "R_Foot" eq_refl)).
Defined.

Lemma fold_mapDelete {V : Type} (ks : list string) :
  forall m : list (string * V),
    (forall k, In k ks -> mapHas (fold_left mapDelete ks m) k = false)
    /\ (forall k, ~ In k ks -> mapGet (fold_left mapDelete ks m) k = mapGet m k)
    /\ (forall k, mapHas m k = false -> mapHas (fold_left mapDelete ks m) k = false).
Proof.
  induction ks as [|k0 ks IH]; intros m; cbn.
  - split; [contradiction | split; auto].
  - destruct (IH (mapDelete m k0)) as (A & B & C).
    assert (D : forall k, mapHas m k = false -> mapHas (mapDelete m k0) k = false).
    { intros k. unfold mapHas, mapDelete. clear.
      induction m as [|[k1 v1] m IHm]; cbn; [reflexivity|].
      destruct (String.eqb k1 k) eqn:E; cbn; [discriminate|].
      destruct (String.eqb k1 k0); cbn; [exact IHm|]. now rewrite E. }
    split; [|split].
    + intros k [<- | Hin]; [apply C, mapHas_mapDelete | now apply A].
    + intros k Hk. rewrite B by tauto. apply mapGet_mapDelete_other. intros ->. tauto.
    + intros k Hk. apply C, D, Hk.
Qed.

Lemma controlGroups_found (g : string) (group : ControlGroup) :
  find (fun c => String.eqb (groupName c) g) controlGroups = Some group ->
  getBonesInGroup g = bones group
  /\ NoDup (bones group)
  /\ filter (fun b => match boneMetadata b with Some _ => true | None => false end)
            (bones group) = bones group.
Proof.
  intros H. unfold getBonesInGroup. rewrite H. split; [reflexivity|].
  apply find_some in H as [Hin _].
  assert (N : forall a b c : string, a <> b -> a <> c -> b <> c -> NoDup [a; b; c]).
  { intros a b c Hab Hac Hbc. repeat constructor; cbn; intuition. }
  cbn in Hin.
  destruct Hin as [<- | [<- | [<- | [<- | [<- | []]]]]];
    (split; [apply N; discriminate | reflexivity]).
Qed.

(** X10.  [resetGroup] on a name that is no control group changes nothing;
    on a control group it removes the locks of the group's bones and keeps
    every other lock entry. *)
Theorem resetGroup_locks :
  forall (s : AppState) (g : string),
    (find (fun c => String.eqb (groupName c) g) controlGroups = None ->
     resetGroup s g = s)
    /\ (forall group,
          find (fun c => String.eqb (groupName c) g) controlGroups = Some group ->
          (forall b, In b (bones group) -> mapHas (lockedBones (resetGroup s g)) b = false)
          /\ (forall k, ~ In k (bones group) ->
                        mapGet (lockedBones (resetGroup s g)) k = mapGet (lockedBones s) k)).
Proof.
  intros s g. split.
  - intros H. unfold resetGroup. now rewrite H.
  - intros group H. destruct (controlGroups_found g group H) as (Eb & _ & _).
    unfold resetGroup. rewrite H, Eb. cbn.
    destruct (fold_mapDelete (bones group) (lockedBones s)) as (A & B & _). auto.
Qed.

Lemma resetGroup_locks_witness :
  let s := toggleLock (toggleLock rigState "R_Foot") "L_Hand" in
  resetGroup s "Tail" = s
  /\ mapHas (lockedBones (resetGroup s "Right Leg")) "R_Foot" = false.
Proof.
  intros s. split.
  - apply (proj1 (resetGroup_locks s "Tail")). reflexivity.
  - apply (proj2 (resetGroup_locks s "Right Leg") _ eq_refl). cbn. tauto.
Defined.

Lemma resetBone_effect (targetPose skel : Bone) (b : string) :
  topology (resetBone targetPose skel b) = topology skel
  /\ (forall r r',
        findBone skel b = Some r -> findBone targetPose b = Some r' ->
        angle (deref (resetBone targetPose skel b) r) = angle (deref targetPose r'))
  /\ (forall q,
        valid skel q -> name (deref skel q) <> b ->
        angle (deref (resetBone targetPose skel b) q) = angle (deref skel q))
  /\ (forall q, name (deref (resetBone targetPose skel b) q) = name (deref skel q)).
Proof.
  unfold resetBone.
  destruct (findBone skel b) as [r|] eqn:Hr;
    [destruct (findBone targetPose b) as [r'|] eqn:Ht|].
  - destruct (findBone_spec _ _ _ Hr) as [Vr Nr].
    split; [apply topology_update_setAngle|]. split; [|split].
    + intros r0 r0' [= <-] [= <-]. now rewrite deref_update_same.
    + intros q Vq Nq.
      destruct (deref_update_setAngle (angle (deref targetPose r')) q r skel)
        as (_ & _ & _ & A).
      apply A; [exact Vq | congruence].
    + intros q.
      destruct (deref_update_setAngle (angle (deref targetPose r')) q r skel) as (S & _).
      unfold static in S. congruence.
  - repeat split; auto; discriminate.
  - repeat split; auto; discriminate.
Qed.

Lemma fold_resetBone (targetPose : Bone) (bs : list string) :
  NoDup bs ->
  forall skel : Bone,
    let out := fold_left (resetBone targetPose) bs skel in
    topology out = topology skel
    /\ (forall b r r',
          In b bs -> findBone skel b = Some r -> findBone targetPose b = Some r' ->
          angle (deref out r) = angle (deref targetPose r'))
    /\ (forall q,
          valid skel q -> ~ In (name (deref skel q)) bs ->
          angle (deref out q) = angle (deref skel q))
    /\ (forall q, name (deref out q) = name (deref skel q)).
Proof.
  induction 1 as [|b bs Nb _ IH]; intros skel; cbn.
  - repeat split; auto. contradiction.
  - destruct (resetBone_effect targetPose skel b) as (T1 & S1 & K1 & N1).
    destruct (IH (resetBone targetPose skel b)) as (T2 & S2 & K2 & N2).
    split; [congruence|]. split; [|split].
    + intros b0 r r' [<- | Hin] Hr Ht.
      * destruct (findBone_spec _ _ _ Hr) as [Vr Nr].
        rewrite K2; [now apply S1 | |].
        -- now apply (valid_topology r skel).
        -- rewrite N1, Nr. exact Nb.
      * apply (S2 b0 r r' Hin); [|exact Ht].
        now rewrite (findBone_topology b0 _ _ T1).
    + intros q Vq Nq. rewrite K2.
      * apply K1; [exact Vq|]. intros E. apply Nq. now left.
      * now apply (valid_topology q skel).
      * rewrite N1. intros Hin. apply Nq. now right.
    + intros q. now rewrite N2, N1.
Qed.

(** X11.  [resetGroup] of a control group gives every bone of the group that
    is found in the live skeleton and in the reference pose of the current
    mode (the tension pose in Tension mode, the T-pose otherwise) the angle
    it has in that pose, leaves the angle of every bone whose name is not in
    the group as it is, and keeps the topology. *)
Theorem resetGroup_angles :
  forall (s : AppState) (g : string) (group : ControlGroup),
    find (fun c => String.eqb (groupName c) g) controlGroups = Some group ->
    let targetPose :=
      if MotionMode_eqb (motionMode s) Tension then tensionPoseSkeleton
      else initialSkeleton in
    topology (skeleton (resetGroup s g)) = topology (skeleton s)
    /\ (forall b r r',
          In b (bones group) ->
          findBone (skeleton s) b = Some r -> findBone targetPose b = Some r' ->
          angle (deref (skeleton (resetGroup s g)) r) = angle (deref targetPose r'))
    /\ (forall q,
          valid (skeleton s) q -> ~ In (name (deref (skeleton s) q)) (bones group) ->
          angle (deref (skeleton (resetGroup s g)) q) = angle (deref (skeleton s) q)).
Proof.
  intros s g group H targetPose.
  destruct (controlGroups_found g group H) as (_ & N & F).
  unfold resetGroup. rewrite H, F. cbn [skeleton set_skeleton set_lockedBones motionMode].
  fold targetPose.
  destruct (fold_resetBone targetPose (bones group) N (skeleton s)) as (A & B & C & _).
  auto.
Qed.

Lemma resetGroup_angles_witness :
  let s :=
    set_skeleton (update (legRig 100 100) [0%nat] (setAngle 1))
      (set_motionMode T_Pose rigState) in
  angle (deref (skeleton s) [0%nat]) = 1
  /\ angle (deref (skeleton (resetGroup s "Right Leg")) [0%nat]) = 0.
Proof.
  intros s. split; [reflexivity|].
  destruct (resetGroup_angles s "Right Leg" _ eq_refl) as (_ & B & _).
  assert (Hf : findBone initialSkeleton "R_Hip" = Some [1; 0; 1; 0; 0]%nat)
    by (vm_compute; reflexivity).
  rewrite (B "R_Hip" [0%nat] _ ltac:(cbn; tauto) eq_refl Hf).
  vm_compute. reflexivity.
Defined.

(** ** Manual edits: what [setBoneAngle] and the anchors do *)

Lemma setBoneAngle_skeleton (s : AppState) (nm : string) (value : R) (isSlider : bool)
    (unit : AngleUnit) :
  let s' := setBoneAngle s nm value isSlider unit in
  (skeleton s' = skeleton s /\ findBone (skeleton s) nm = None
   \/ exists r a, findBone (skeleton s) nm = Some r
                  /\ skeleton s' = update (skeleton s) r (setAngle a))
  /\ lockedBones s' = lockedBones s
  /\ motionMode s' = motionMode s
  /\ navelOffsetX s' = navelOffsetX s
  /\ navelOffsetY s' = navelOffsetY s
  /\ animationState s' = animationState s.
Proof.
  unfold setBoneAngle. rewrite deepClone_id.
  set (sk := match findBone (skeleton s) nm with Some _ => _ | None => _ end).
  assert (E : forall s0 : AppState,
             let out :=
               match find (fun g => includes (bones g) nm) controlGroups with
               | Some g => set_lastAdjustedGroup (Some (groupName g)) s0
               | None =>
                   if mapHas (lockedBones s0) nm
                   then set_lastAdjustedGroup (Some nm) s0 else s0
               end in
             skeleton out = skeleton s0 /\ lockedBones out = lockedBones s0
             /\ motionMode out = motionMode s0 /\ navelOffsetX out = navelOffsetX s0
             /\ navelOffsetY out = navelOffsetY s0
             /\ animationState out = animationState s0).
  { intros s0. cbv zeta. destruct (find _ controlGroups); [repeat split|].
    destruct (mapHas (lockedBones s0) nm); repeat split. }
  destruct (E (set_skeleton sk s)) as (E1 & E2 & E3 & E4 & E5 & E6).
  cbv zeta. rewrite E1, E2, E3, E4, E5, E6. cbn.
  split; [|repeat split]. unfold sk.
  destruct (findBone (skeleton s) nm) as [r|]; [right | left; auto].
  destruct (boneMetadata nm) as [meta|]; [destruct isSlider|]; eauto.
Qed.

(** X12.  [setBoneAngle] changes one angle and nothing else of the pose:
    the topology, the locks, the mode, the offsets and the transition stay;
    an unknown bone name leaves the skeleton as it is; every bone other than
    the one found keeps its angle; and a slider event on a controllable bone
    leaves the angle within [-PI, PI], whatever value arrives. *)
Theorem setBoneAngle_effect :
  forall (s : AppState) (nm : string) (value : R) (isSlider : bool) (unit : AngleUnit),
    let s' := setBoneAngle s nm value isSlider unit in
    topology (skeleton s') = topology (skeleton s)
    /\ lockedBones s' = lockedBones s
    /\ motionMode s' = motionMode s
    /\ navelOffsetX s' = navelOffsetX s /\ navelOffsetY s' = navelOffsetY s
    /\ animationState s' = animationState s
    /\ (findBone (skeleton s) nm = None -> skeleton s' = skeleton s)
    /\ (forall r q,
          findBone (skeleton s) nm = Some r -> valid (skeleton s) q -> q <> r ->
          angle (deref (skeleton s') q) = angle (deref (skeleton s) q))
    /\ (forall r,
          findBone (skeleton s) nm = Some r ->
          includes controllableBones nm = true -> isSlider = true ->
          - PI <= angle (deref (skeleton s') r) <= PI).
Proof.
  intros s nm value isSlider unit s'.
  destruct (setBoneAngle_skeleton s nm value isSlider unit) as (Sk & L & M & X & Y & A).
  fold s' in Sk, L, M, X, Y, A.
  split; [|split; [exact L | split; [exact M | split; [exact X | split; [exact Y |
          split; [exact A | split; [|split]]]]]]].
  - destruct Sk as [[-> _] | (r & a & _ & ->)];
      [reflexivity | apply topology_update_setAngle].
  - intros H. destruct Sk as [[E _] | (r & a & Hr & _)]; [exact E | congruence].
  - intros r q Hr Vq Nq. destruct Sk as [[_ E] | (r0 & a & Hr0 & ->)]; [congruence|].
    assert (r0 = r) by congruence. subst r0.
    now apply deref_update_setAngle.
  - intros r Hr Hc ->. unfold s'. rewrite (setBoneAngle_angle _ _ _ _ _ _ Hr).
    unfold boneMetadata. rewrite Hc. cbn.
    pose proof PI_RGT_0.
    split; [apply Rmax_l|]. apply Rmax_lub; [lra | apply Rmin_l].
Qed.

Lemma setBoneAngle_effect_witness :
  - PI <= angle (deref (skeleton (setBoneAngle rigState "R_Hip" 1000 true deg)) [0%nat]) <= PI
  /\ skeleton (setBoneAngle rigState "Tail" 1 true rad) = skeleton rigState.
Proof.
  destruct (setBoneAngle_effect rigState "R_Hip" 1000 true deg)
    as (_ & _ & _ & _ & _ & _ & _ & _ & C).
  destruct (setBoneAngle_effect rigState "Tail" 1 true rad)
    as (_ & _ & _ & _ & _ & _ & U & _).
  split; [apply C; reflexivity | apply U; reflexivity].
Defined.

(** X13.  Reading an anchor back after setting it: Ground X and Ground Y
    return the value that was set, unclamped, and do not disturb each other;
    Global Rotation returns the value set on the bone called Navel, clamped
    to [-PI, PI] on a slider event, when the skeleton has such a bone, and
    the angle it had before (0 without one) otherwise.  Every call leaves
    the last adjusted group at Core. *)
Theorem anchor_set_get :
  forall (s : AppState) (value : R) (isSlider : bool),
    getAnchorValue (setAnchorValue s GroundX value isSlider) GroundX = value
    /\ getAnchorValue (setAnchorValue s GroundY value isSlider) GroundY = value
    /\ getAnchorValue (setAnchorValue s GroundX value isSlider) GroundY = navelOffsetY s
    /\ getAnchorValue (setAnchorValue s GroundY value isSlider) GroundX = navelOffsetX s
    /\ (forall r,
          findBone (skeleton s) "Navel" = Some r ->
          getAnchorValue (setAnchorValue s GlobalRotation value isSlider) GlobalRotation
          = if isSlider then Rmax (- PI) (Rmin PI value) else value)
    /\ (findBone (skeleton s) "Navel" = None ->
        getAnchorValue (setAnchorValue s GlobalRotation value isSlider) GlobalRotation = 0)
    /\ (forall a, lastAdjustedGroup (setAnchorValue s a value isSlider) = Some "Core").
Proof.
  intros s value isSlider.
  split; [reflexivity|]. split; [reflexivity|]. split; [reflexivity|].
  split; [reflexivity|]. split; [|split].
  - intros r Hr. unfold getAnchorValue, setAnchorValue, getBoneAngle.
    cbn [skeleton set_lastAdjustedGroup].
    destruct (setBoneAngle_skeleton s "Navel" value isSlider rad)
      as ([[_ E] | (r0 & a & Hr0 & Sk)] & _); [congruence|].
    assert (r0 = r) by congruence. subst r0.
    assert (F : findBone (skeleton (setBoneAngle s "Navel" value isSlider rad)) "Navel"
                = Some r).
    { rewrite Sk, <- Hr. apply findBone_topology, topology_update_setAngle. }
    rewrite F, (setBoneAngle_angle _ _ _ _ _ _ Hr).
    destruct isSlider; reflexivity.
  - intros Hr. unfold getAnchorValue, setAnchorValue, getBoneAngle.
    cbn [skeleton set_lastAdjustedGroup].
    destruct (setBoneAngle_skeleton s "Navel" value isSlider rad)
      as ([[E _] | (r0 & a & Hr0 & _)] & _); [|congruence].
    now rewrite E, Hr.
  - intros a. reflexivity.
Qed.

Lemma anchor_set_get_witness :
  getAnchorValue (setAnchorValue rigState GlobalRotation 1 false) GlobalRotation = 1.
Proof.
  exact (proj1 (proj2 (proj2 (proj2 (proj2 (anchor_set_get rigState 1 false)))))
           [] eq_refl).
Defined.

(** ** Keyboard edits *)

(** X14.  The keyboard path guards manual edits: for every key but the reset
    key, in Collapse mode, during a transition, or when the active control
    is in the locked chain without being a locked effector itself,
    [handleKeyDown] changes nothing. *)
Theorem handleKeyDown_rejects :
  forall (s : AppState) (key : string),
    key <> "`" ->
    motionMode s = Collapse
    \/ active (animationState s) = true
    \/ (exists c, activeControl s = Some c /\ isBoneInLockedChain s c false = true) ->
    handleKeyDown s key = s.
Proof.
  intros s key Hk H. unfold handleKeyDown.
  destruct (String.eqb_spec key "`"); [contradiction|].
  destruct H as [-> | [-> | (c & -> & ->)]]; cbn.
  - reflexivity.
  - now rewrite orb_true_r.
  - destruct (MotionMode_eqb (motionMode s) Collapse || active (animationState s));
      [reflexivity | now rewrite orb_true_r].
Qed.

Lemma handleKeyDown_rejects_witness :
  handleKeyDown (set_motionMode Collapse rigState) "ArrowUp"
  = set_motionMode Collapse rigState.
Proof.
  apply handleKeyDown_rejects; [discriminate | left; reflexivity].
Defined.

(** X15.  An arrow key on a bone control that is not guarded adds (ArrowUp)
    or subtracts (ArrowDown) a hundredth of the control's step to the angle
    of that bone, without clamping it to the slider's range, and leaves the
    angle of every other bone as it is. *)
Theorem handleKeyDown_nudges :
  forall (s : AppState) (key c : string) (r : ref),
    key = "ArrowUp" \/ key = "ArrowDown" ->
    motionMode s <> Collapse ->
    active (animationState s) = false ->
    activeControl s = Some c ->
    c <> "" ->
    isBoneInLockedChain s c false = false ->
    includes ["Ground X"; "Ground Y"; "Global Rotation"] c = false ->
    findBone (skeleton s) c = Some r ->
    let step := match boneMetadata c with Some m => Meta.step m | None => 1 end in
    let delta := (if String.eqb key "ArrowUp" then step else - step) * 0.01 in
    angle (deref (skeleton (handleKeyDown s key)) r) = angle (deref (skeleton s) r) + delta
    /\ forall q, valid (skeleton s) q -> q <> r ->
                 angle (deref (skeleton (handleKeyDown s key)) q)
                 = angle (deref (skeleton s) q).
Proof.
  intros s key c r Hkey Hm Ha Hc Hne Hl Hanchor Hr step delta.
  assert (K : String.eqb key "`" = false) by (destruct Hkey as [-> | ->]; reflexivity).
  assert (Arrow : String.eqb key "ArrowUp" || String.eqb key "ArrowDown" = true)
    by (destruct Hkey as [-> | ->]; reflexivity).
  assert (M : MotionMode_eqb (motionMode s) Collapse = false)
    by (destruct (motionMode s); try reflexivity; contradiction).
  assert (Ne : String.eqb c "" = false) by now apply String.eqb_neq.
  unfold handleKeyDown. rewrite K, M, Ha, Hc, Ne, Hl, Arrow, Hanchor.
  cbn [orb skeleton set_skeleton]. unfold nudge. rewrite Hr.
  fold step. fold delta.
  destruct (findBone_spec _ _ _ Hr) as [Vr _].
  split.
  - now rewrite deref_update_same.
  - intros q Vq Nq.
    assert (E : update (skeleton s) r (fun o => setAngle (angle o + delta) o)
                = update (skeleton s) r (setAngle (angle (deref (skeleton s) r) + delta))).
    { clear -Vr. revert Vr. generalize (skeleton s) as t.
      induction r as [|i r IH]; intros t; cbn; [reflexivity|].
      destruct (nth_error (children t) i) as [c0|] eqn:Hi; [|contradiction].
      intros Vc. f_equal.
      clear -Hi IH Vc. revert i Hi. induction (children t) as [|c1 cs IHcs]; intros [|i] Hi;
        cbn in *; try discriminate.
      - injection Hi as ->. now rewrite IH.
      - now rewrite (IHcs i Hi). }
    rewrite E. now apply deref_update_setAngle.
Qed.

Lemma handleKeyDown_nudges_witness :
  let s :=
    mkAppState (legRig 100 100) Tension 0 0 [] []
      (mkHeap (fun _ => mkPoint 0 0) 0%nat) [] [] noAnimation None None (Some "R_Hip")
      (mkDOMRect 800 600) true [] in
  angle (deref (skeleton (handleKeyDown s "ArrowUp")) [0%nat]) = 0 + 0.01 * 0.01.
Proof.
  intros s.
  apply (handleKeyDown_nudges s "ArrowUp" "R_Hip" [0%nat]); try reflexivity.
  - now left.
  - discriminate.
  - discriminate.
Defined.

(** ** Collapse: what a settle pass keeps *)

Lemma relaxStick_flags (pts : list Physics.PhysicsPoint) (s : Physics.PhysicsStick) :
  map Physics.isPinned (relaxStick pts s) = map Physics.isPinned pts.
Proof.
  unfold relaxStick.
  destruct (nth_error pts (Physics.p0 s)) as [a|]; [|reflexivity].
  destruct (nth_error pts (Physics.p1 s)) as [b|]; [|reflexivity].
  destruct (Req_dec_T _ 0); [reflexivity|].
  destruct (Physics.isPinned a), (Physics.isPinned b);
    rewrite ?map_updNth_same; reflexivity.
Qed.

Lemma relax_flags (sticks : list Physics.PhysicsStick) (pts : list Physics.PhysicsPoint) :
  map Physics.isPinned (relax sticks pts) = map Physics.isPinned pts.
Proof.
  assert (F : forall l p, map Physics.isPinned (fold_left relaxStick l p)
                          = map Physics.isPinned p).
  { induction l as [|s l IH]; intros p; cbn; [reflexivity|].
    now rewrite IH, relaxStick_flags. }
  unfold relax, Nat.iter; cbn [nat_rect]. now rewrite !F.
Qed.

(** X16.  After a settle pass no particle is below the floor line
    ([y <= floorY], with [floorY] 85% of the viewport height), the particles
    are as many as before with the same pinned flags, and the sticks and the
    skeleton are untouched. *)
Theorem updateCollapse_floor :
  forall (s : AppState) (deltaTime : R),
    let s' := updateCollapse s deltaTime in
    (forall p, In p (physicsPoints s') -> Physics.y p <= height (parentRect s) * 0.85)
    /\ map Physics.isPinned (physicsPoints s') = map Physics.isPinned (physicsPoints s)
    /\ Datatypes.length (physicsPoints s') = Datatypes.length (physicsPoints s)
    /\ physicsSticks s' = physicsSticks s
    /\ skeleton s' = skeleton s.
Proof.
  intros s dt s'. unfold s', updateCollapse. cbn.
  assert (Fl : map Physics.isPinned
                 (map (floorClamp (height (parentRect s) * 0.85))
                    (relax (physicsSticks s)
                       (map (verlet (9.8 * 100 * dt * dt)) (physicsPoints s))))
               = map Physics.isPinned (physicsPoints s)).
  { rewrite map_map.
    rewrite (map_ext _ Physics.isPinned)
      by (intros p; unfold floorClamp; now destruct (Rlt_dec _ _)).
    rewrite relax_flags, map_map.
    apply map_ext. intros p. unfold verlet. now destruct (Physics.isPinned p) eqn:E. }
  split; [|split; [exact Fl | split; [|auto]]].
  - intros p Hin. apply in_map_iff in Hin as (p0 & <- & _).
    unfold floorClamp. destruct (Rlt_dec _ _); cbn; lra.
  - apply (f_equal (@Datatypes.length bool)) in Fl.
    rewrite !length_map in Fl. rewrite length_map. exact Fl.
Qed.

Lemma updateCollapse_floor_witness :
  let pts := [Physics.mkPhysicsPoint 0 900 0 900 false; Physics.mkPhysicsPoint 300 0 300 0 false] in
  let s := set_physicsPoints pts rigState in
  exists p,
    nth_error (physicsPoints (updateCollapse s 1)) 0 = Some p
    /\ Physics.y p <= 600 * 0.85.
Proof.
  intros pts s.
  destruct (updateCollapse_floor s 1) as (Floor & _ & Len & _).
  destruct (nth_error (physicsPoints (updateCollapse s 1)) 0) as [p|] eqn:Hp.
  - exists p. split; [reflexivity|]. apply (Floor p). eapply nth_error_In. exact Hp.
  - apply nth_error_None in Hp. rewrite Len in Hp. cbn in Hp. lia.
Defined.

Lemma relaxStick_pinned (pts : list Physics.PhysicsPoint) (s : Physics.PhysicsStick)
    (i : nat) (p : Physics.PhysicsPoint) :
  nth_error pts i = Some p -> Physics.isPinned p = true ->
  nth_error (relaxStick pts s) i = Some p.
Proof.
  intros Hi Hp. unfold relaxStick.
  destruct (nth_error pts (Physics.p0 s)) as [a|] eqn:Ha; [|exact Hi].
  destruct (nth_error pts (Physics.p1 s)) as [b|] eqn:Hb; [|exact Hi].
  destruct (Req_dec_T _ 0); [exact Hi|].
  assert (N0 : Physics.isPinned a = false -> Nat.eqb i (Physics.p0 s) = false).
  { intros Fa. apply Nat.eqb_neq. intros ->. congruence. }
  assert (N1 : Physics.isPinned b = false -> Nat.eqb i (Physics.p1 s) = false).
  { intros Fb. apply Nat.eqb_neq. intros ->. congruence. }
  destruct (Physics.isPinned a) eqn:Fa, (Physics.isPinned b) eqn:Fb;
    rewrite ?nth_error_updNth, ?N0, ?N1; auto.
Qed.

(** X17.  A pinned particle is not moved by the integration nor by the
    constraint relaxation: after a settle pass it is where it was, except
    that the floor clamp, which ignores the pinned flag, lowers its [y] to
    the floor line when it was beyond it. *)
Theorem updateCollapse_pinned :
  forall (s : AppState) (deltaTime : R) (i : nat) (p : Physics.PhysicsPoint),
    nth_error (physicsPoints s) i = Some p ->
    Physics.isPinned p = true ->
    nth_error (physicsPoints (updateCollapse s deltaTime)) i
    = Some (floorClamp (height (parentRect s) * 0.85) p).
Proof.
  intros s dt i p Hi Hp. unfold updateCollapse. cbn.
  rewrite nth_error_map.
  assert (F : forall l pts, nth_error pts i = Some p ->
                            nth_error (fold_left relaxStick l pts) i = Some p).
  { induction l as [|s0 l IH]; intros pts H; cbn; [exact H|].
    apply IH. now apply relaxStick_pinned. }
  assert (V : nth_error (map (verlet (9.8 * 100 * dt * dt)) (physicsPoints s)) i = Some p).
  { rewrite nth_error_map, Hi. cbn. unfold verlet. now rewrite Hp. }
  unfold relax, Nat.iter; cbn [nat_rect].
  now rewrite (F _ _ (F _ _ (F _ _ (F _ _ (F _ _ V))))).
Qed.

Lemma updateCollapse_pinned_witness :
  let pts := [Physics.mkPhysicsPoint 0 0 0 0 true; Physics.mkPhysicsPoint 300 0 300 0 false] in
  let s := set_physicsPoints pts rigState in
  nth_error (physicsPoints (updateCollapse s 1)) 0 = Some (Physics.mkPhysicsPoint 0 0 0 0 true).
Proof.
  intros pts s.
  rewrite (updateCollapse_pinned s 1 0 (Physics.mkPhysicsPoint 0 0 0 0 true) eq_refl eq_refl).
  unfold floorClamp. cbn. destruct (Rlt_dec (600 * 0.85) 0); [lra | reflexivity].
Defined.

Lemma updNth_fixed {A : Type} (f : A -> A) (l : list A) :
  (forall a, f a = a) -> forall i, updNth l i f = l.
Proof.
  intros H. induction l as [|a l IH]; intros [|i]; cbn; try reflexivity.
  - now rewrite H.
  - now rewrite IH.
Qed.

Lemma shift_nothing (ox oy : R) (p : Physics.PhysicsPoint) :
  ox = 0 -> oy = 0 -> shift ox oy p = p.
Proof.
  intros -> ->. destruct p; unfold shift; cbn. f_equal; ring.
Qed.

(** X18.  A stick whose end points coincide is skipped (no division by the
    zero distance), and a stick that already has its rest length is left
    alone; when every stick has its rest length the five relaxation
    iterations change no particle. *)
Theorem relax_at_rest :
  (forall pts s,
     stickDistance pts s = 0 \/ stickDistance pts s = Physics.length s ->
     relaxStick pts s = pts)
  /\ (forall sticks pts,
        Forall (fun s => stickDistance pts s = Physics.length s) sticks ->
        relax sticks pts = pts).
Proof.
  assert (One : forall pts s,
             stickDistance pts s = 0 \/ stickDistance pts s = Physics.length s ->
             relaxStick pts s = pts).
  { intros pts s. unfold stickDistance, relaxStick.
    destruct (nth_error pts (Physics.p0 s)) as [a|]; [|reflexivity].
    destruct (nth_error pts (Physics.p1 s)) as [b|]; [|reflexivity].
    destruct (Req_dec_T _ 0) as [|NZ]; [reflexivity|].
    intros [Z | E]; [contradiction|].
    rewrite E in *.
    assert (O : forall t : R,
               t * ((Physics.length s - Physics.length s) / Physics.length s / 2) = 0)
      by (intros t; field; exact NZ).
    rewrite !O.
    destruct (Physics.isPinned a), (Physics.isPinned b);
      rewrite ?updNth_fixed; try reflexivity;
      intros p; apply shift_nothing; lra. }
  split; [exact One|].
  intros sticks pts H.
  assert (F : fold_left relaxStick sticks pts = pts).
  { induction H as [|s l Hs _ IH]; cbn; [reflexivity|].
    rewrite One by auto. exact IH. }
  unfold relax, Nat.iter; cbn [nat_rect]. now rewrite !F.
Qed.

Lemma relax_at_rest_witness :
  let a := Physics.mkPhysicsPoint 0 0 0 0 false in
  let b := Physics.mkPhysicsPoint 100 0 100 0 false in
  relax [Physics.mkPhysicsStick 0 1 100] [a; b] = [a; b].
Proof.
  intros a b. apply (proj2 relax_at_rest). repeat constructor.
  unfold stickDistance; cbn. apply sqrt_of_square; [lra | ring].
Defined.

(** ** From the ragdoll back to angles *)

Lemma traverse_fields (calc : string -> R) (b : Bone) (pa : R) :
  angle (traverse calc b pa) = calc (name b) - pa
  /\ static (traverse calc b pa) = static b
  /\ globalPos (traverse calc b pa) = globalPos b
  /\ globalAngle (traverse calc b pa) = globalAngle b.
Proof.
  destruct b as [n len a ta m cs z v gp ga]. unfold static. cbn.
  now rewrite length_map.
Qed.

Lemma deref_traverse (calc : string -> R) (q : ref) :
  forall (b : Bone) (pa : R),
    exists pa', deref (traverse calc b pa) q = traverse calc (deref b q) pa'.
Proof.
  induction q as [|i q IH]; intros b pa; [now exists pa|].
  destruct b as [n len a ta m cs z v gp ga]; cbn.
  rewrite nth_error_map. destruct (nth_error cs i) as [c|]; cbn; [apply IH|].
  now exists pa.
Qed.

Lemma traverse_child_angle (calc : string -> R) (q : ref) (i : nat) :
  forall (b : Bone) (pa : R),
    valid b (q ++ [i]) ->
    angle (deref (traverse calc b pa) (q ++ [i]))
    = calc (name (deref b (q ++ [i]))) - calc (name (deref b q)).
Proof.
  induction q as [|j q IH]; intros b pa V;
    destruct b as [n len a ta m cs z v gp ga]; cbn in V |- *; rewrite nth_error_map.
  - destruct (nth_error cs i) as [c|]; [|contradiction]. cbn.
    apply traverse_fields.
  - destruct (nth_error cs j) as [c|]; [|contradiction]. cbn. now apply IH.
Qed.

(** X20.  What [updateSkeletonAnglesFromPhysics] writes: every bone below
    the root gets, as local angle, the [atan2] direction of its own pair of
    particles minus that of its parent's pair (a bone without particles
    counts as direction 0), the root gets its own direction minus the
    Navel's; nothing else is written: names, lengths and the other fields
    stay, the topology stays, and [globalPos] and [globalAngle] are not
    refreshed. *)
Theorem updateSkeletonAnglesFromPhysics_angles :
  forall s : AppState,
    let s' := updateSkeletonAnglesFromPhysics s in
    let calc := calculateGlobalAngle s in
    angle (skeleton s') = calc (name (skeleton s)) - calc "Navel"
    /\ (forall (q : ref) (i : nat),
          valid (skeleton s) (q ++ [i]) ->
          angle (deref (skeleton s') (q ++ [i]))
          = calc (name (deref (skeleton s) (q ++ [i]))) - calc (name (deref (skeleton s) q)))
    /\ (forall q : ref,
          static (deref (skeleton s') q) = static (deref (skeleton s) q)
          /\ globalPos (deref (skeleton s') q) = globalPos (deref (skeleton s) q)
          /\ globalAngle (deref (skeleton s') q) = globalAngle (deref (skeleton s) q))
    /\ topology (skeleton s') = topology (skeleton s).
Proof.
  intros s s' calc. unfold s', updateSkeletonAnglesFromPhysics. cbn [skeleton set_skeleton].
  fold calc. split; [apply traverse_fields|]. split; [|split].
  - intros q i V. now apply traverse_child_angle.
  - intros q. destruct (deref_traverse calc q (skeleton s) (calc "Navel")) as (pa' & ->).
    apply traverse_fields.
  - apply traverse_topology.
Qed.

Lemma updateSkeletonAnglesFromPhysics_angles_witness :
  let s :=
    mkAppState (legRig 100 100) Collapse 0 0 [] []
      (mkHeap (fun _ => mkPoint 0 0) 0%nat)
      [Physics.mkPhysicsPoint 0 0 0 0 false; Physics.mkPhysicsPoint 0 100 0 100 false;
       Physics.mkPhysicsPoint 100 100 100 100 false]
      [] noAnimation None None None (mkDOMRect 800 600) true
      [("R_Hip", (0%nat, 1%nat)); ("R_Calf", (1%nat, 2%nat))] in
  angle (deref (skeleton (updateSkeletonAnglesFromPhysics s)) [0; 0]%nat)
  = atan2 (100 - 100) (100 - 0) - atan2 (100 - 0) (0 - 0).
Proof.
  intros s.
  exact (proj1 (proj2 (updateSkeletonAnglesFromPhysics_angles s)) [0%nat] 0%nat I).
Defined.

(** ** Visibility *)

Lemma setV_overwrites (v w : string -> bool) (b : Bone) : setV w (setV v b) = setV w b.
Proof.
  induction b as [b IH] using Bone_tree_ind.
  destruct b as [n len a ta m cs z vis gp ga]; cbn in *. f_equal.
  rewrite map_map. induction IH as [|c cs Hc _ IHcs]; cbn; [reflexivity|].
  now rewrite Hc, IHcs.
Qed.

Lemma deref_setV (v : string -> bool) (q : ref) :
  forall b : Bone, deref (setV v b) q = setV v (deref b q).
Proof.
  induction q as [|i q IH]; intros b; [reflexivity|].
  destruct b as [n len a ta m cs z vis gp ga]; cbn.
  rewrite nth_error_map. destruct (nth_error cs i) as [c|]; cbn; [apply IH | reflexivity].
Qed.

Lemma setV_fields (v : string -> bool) (b : Bone) :
  visible (setV v b) = Some (v (name b)) /\ angle (setV v b) = angle b
  /\ name (setV v b) = name b.
Proof. now destruct b. Qed.

(** Assigning [visible] below a bone changes nothing but [visible] flags. *)
Lemma update_setV_pose (v w : string -> bool) (r : ref) :
  forall t : Bone, setV w (update t r (setV v)) = setV w t.
Proof.
  induction r as [|i r IH]; intros t; cbn.
  - apply setV_overwrites.
  - destruct t as [n len a ta m cs z vis gp ga]; cbn. f_equal.
    now apply map_updNth_same.
Qed.

Lemma deref_update_below (f : Bone -> Bone) (r q : ref) :
  forall t : Bone, valid t r -> deref (update t r f) (r ++ q) = deref (f (deref t r)) q.
Proof.
  induction r as [|i r IH]; intros t; cbn; [reflexivity|].
  rewrite nth_error_updNth, Nat.eqb_refl.
  destruct (nth_error (children t) i) as [c|]; cbn; [apply IH | contradiction].
Qed.

Lemma deref_app (r q : ref) :
  forall t : Bone, valid t r -> deref t (r ++ q) = deref (deref t r) q.
Proof.
  induction r as [|i r IH]; intros t; cbn; [reflexivity|].
  destruct (nth_error (children t) i) as [c|]; [apply IH | contradiction].
Qed.

Lemma deref_update_outside (f : Bone -> Bone) (r : ref) :
  forall (q : ref) (t : Bone),
    valid t q -> (forall q', q <> r ++ q') ->
    visible (deref (update t r f) q) = visible (deref t q).
Proof.
  induction r as [|i r IH]; intros q t Vq Out.
  - now elim (Out q).
  - destruct q as [|j q]; [reflexivity|].
    cbn in *. rewrite nth_error_updNth.
    destruct (Nat.eqb_spec j i) as [->|N].
    + destruct (nth_error (children t) i) as [c|]; [|contradiction].
      cbn. apply IH; [exact Vq|]. intros q' ->. now apply (Out q').
    + destruct (nth_error (children t) j) as [c|]; [reflexivity | contradiction].
Qed.

(** X21.  [toggleBoneVisibility] changes nothing but [visible] flags: every
    bone of the subtree of the bone found gets the negation of that bone's
    own flag (an absent flag counts as not visible), whatever its own flag
    was, every bone outside the subtree keeps its flag, and an unknown name
    leaves the skeleton as it is. *)
Theorem toggleBoneVisibility_effect :
  forall (s : AppState) (boneName : string),
    let s' := toggleBoneVisibility s boneName in
    (forall w, setV w (skeleton s') = setV w (skeleton s))
    /\ (findBone (skeleton s) boneName = None -> skeleton s' = skeleton s)
    /\ (forall r,
          findBone (skeleton s) boneName = Some r ->
          (forall q,
             visible (deref (skeleton s') (r ++ q))
             = Some (notVisible (deref (skeleton s) r)))
          /\ (forall q,
                valid (skeleton s) q -> (forall q', q <> r ++ q') ->
                visible (deref (skeleton s') q) = visible (deref (skeleton s) q))).
Proof.
  intros s nm s'. unfold s', toggleBoneVisibility. rewrite deepClone_id.
  destruct (findBone (skeleton s) nm) as [r|] eqn:Hr; cbn [skeleton set_skeleton].
  - destruct (findBone_spec _ _ _ Hr) as [Vr _].
    split; [intros w; apply update_setV_pose|]. split; [discriminate|].
    intros r0 [= <-]. split.
    + intros q. rewrite deref_update_below by exact Vr.
      rewrite deref_setV. apply setV_fields.
    + intros q Vq Out. now apply deref_update_outside.
  - split; [reflexivity|]. split; [reflexivity | discriminate].
Qed.

Lemma toggleBoneVisibility_effect_witness :
  visible (deref (skeleton (toggleBoneVisibility rigState "R_Hip")) [0; 0; 0]%nat) = Some true
  /\ visible (deref (skeleton (toggleBoneVisibility
                                 (toggleBoneVisibility rigState "R_Hip") "R_Calf"))
                    [0; 0; 0]%nat) = Some false.
Proof.
  split.
  - exact (proj1 (proj2 (proj2 (toggleBoneVisibility_effect rigState "R_Hip"))
                   [0%nat] eq_refl) [0; 0]%nat).
  - exact (proj1 (proj2 (proj2 (toggleBoneVisibility_effect
                                  (toggleBoneVisibility rigState "R_Hip") "R_Calf"))
                   [0; 0]%nat eq_refl) [0%nat]).
Defined.

(** X22.  [isolateGroup] of a bone that belongs to an anatomical group makes
    visible exactly the bones whose name is listed for that group and hides
    every other bone of the tree, changes nothing but [visible] flags, and
    does nothing for a bone without a group. *)
Theorem isolateGroup_effect :
  forall (s : AppState) (boneName : string),
    (boneToGroupMap boneName = None -> isolateGroup s boneName = s)
    /\ (forall g0 g,
          boneToGroupMap boneName = Some g0 -> anatomicalGroups g0 = Some g ->
          (forall q,
             visible (deref (skeleton (isolateGroup s boneName)) q)
             = Some (includes g (name (deref (skeleton s) q))))
          /\ (forall w, setV w (skeleton (isolateGroup s boneName)) = setV w (skeleton s))).
Proof.
  intros s nm. unfold isolateGroup. split.
  - now intros ->.
  - intros g0 g -> ->. cbn [skeleton set_skeleton]. rewrite deepClone_id. split.
    + intros q. rewrite deref_setV. apply setV_fields.
    + intros w. apply setV_overwrites.
Qed.

Lemma isolateGroup_effect_witness :
  visible (deref (skeleton (isolateGroup rigState "R_Hip")) [0%nat]) = Some true
  /\ visible (deref (skeleton (isolateGroup rigState "R_Hip")) [0; 0]%nat) = Some false.
Proof.
  destruct (proj2 (isolateGroup_effect rigState "R_Hip") "R_LEG" _ eq_refl eq_refl)
    as [V _].
  split; [exact (V [0%nat]) | exact (V [0; 0]%nat)].
Defined.

(** ** The solver pass and the render as a whole *)

Lemma solveIfTarget_frame (h : Heap) (targets : LockMap) (nm : string) (root t : Bone) :
  solveIfTarget h targets nm root = Done t \/ solveIfTarget h targets nm root = Threw t ->
  topology t = topology root
  /\ forall q : ref,
      valid root q ->
      static (deref t q) = static (deref root q)
      /\ ((mapHas targets nm = true ->
           forall n1 n2, getIKChainNames nm = Some [n1; n2] ->
                         name (deref root q) <> n1 /\ name (deref root q) <> n2) ->
          angle (deref t q) = angle (deref root q)).
Proof.
  unfold solveIfTarget. intros Hout.
  destruct (mapGet targets nm) as [e|] eqn:Hget.
  - assert (Hhas : mapHas targets nm = true) by (apply mapHas_mapGet; eauto).
    destruct (solveTwoBoneIK_cases root nm (cells h (position e)))
      as [[E|E] | [(gp & _ & E) | (n1 & n2 & b1 & b2 & gp & a1 & a2 & Hc & H1 & H2 & _ & E)]];
      rewrite E in Hout; destruct Hout as [[= <-] | [= <-]]; auto.
    + split; [apply topology_compute|]. intros q _.
      split; [apply static_deref_compute | intros _; apply static_deref_compute].
    + split; [rewrite !topology_update_setAngle; apply topology_compute|].
      intros q Vq.
      set (res := computeGlobalPositions root (x (start gp)) (y (start gp)) 0).
      destruct (deref_update_setAngle a2 q b2 (update res b1 (setAngle a1)))
        as (S2 & _ & _ & A2).
      destruct (deref_update_setAngle a1 q b1 res) as (S1 & _ & _ & A1).
      destruct (static_deref_compute q root (x (start gp)) (y (start gp)) 0) as [S0 A0].
      fold res in S0, A0.
      split; [congruence|].
      intros Hother. destruct (Hother Hhas n1 n2 Hc) as [N1 N2].
      destruct (findBone_spec _ _ _ H1) as [_ Nm1].
      destruct (findBone_spec _ _ _ H2) as [_ Nm2].
      assert (Vres : valid res q) by now apply valid_compute.
      rewrite A2, A1, A0; auto using valid_update, setAngle_keepsChildren; congruence.
  - destruct Hout as [[= <-] | [=]]. auto.
Qed.

(** X23.  A run of [solveAllIK], whether it returns or throws, keeps the
    topology and, on every bone, every field that is neither the angle nor a
    derived one; a bone keeps its angle unless its name is one of the two
    chain names of an effector that is a key of the target map.  So a limb
    without a lock is never bent. *)
Theorem solveAllIK_frame :
  forall (h : Heap) (root : Bone) (targets : LockMap) (t : Bone),
    solveAllIK h root targets = Done t \/ solveAllIK h root targets = Threw t ->
    topology t = topology root
    /\ forall q : ref,
        valid root q ->
        static (deref t q) = static (deref root q)
        /\ ((forall e n1 n2,
               mapHas targets e = true -> getIKChainNames e = Some [n1; n2] ->
               name (deref root q) <> n1 /\ name (deref root q) <> n2) ->
            angle (deref t q) = angle (deref root q)).
Proof.
  intros h root targets.
  set (F := fun t : Bone =>
              topology t = topology root
              /\ forall q : ref,
                  valid root q ->
                  static (deref t q) = static (deref root q)
                  /\ ((forall e n1 n2,
                         mapHas targets e = true -> getIKChainNames e = Some [n1; n2] ->
                         name (deref root q) <> n1 /\ name (deref root q) <> n2) ->
                      angle (deref t q) = angle (deref root q))).
  assert (Step : forall o nm,
             (forall t, o = Done t \/ o = Threw t -> F t) ->
             forall t, andThen o (solveIfTarget h targets nm) = Done t
                       \/ andThen o (solveIfTarget h targets nm) = Threw t -> F t).
  { intros o nm Ho t Hout. destruct o as [t1 | t1 |]; cbn in Hout.
    - destruct (Ho t1 (or_introl eq_refl)) as [T1 Q1].
      destruct (solveIfTarget_frame h targets nm t1 t Hout) as [T2 Q2].
      split; [congruence|]. intros q Vq.
      destruct (Q1 q Vq) as [S1 A1].
      destruct (Q2 q (valid_topology q root t1 (eq_sym T1) Vq)) as [S2 A2].
      split; [congruence|]. intros C.
      rewrite A2, A1; auto.
      intros Hhas n1 n2 Hc. unfold static in S1. injection S1 as -> _ _ _ _ _ _.
      eauto.
    - apply Ho. destruct Hout as [[=] | [= <-]]. now right.
    - destruct Hout as [[=] | [=]]. }
  assert (Refl : F root) by (split; [reflexivity | intros q _; auto]).
  intros t Hout. unfold solveAllIK in Hout.
  destruct targets as [|e0 targets0]; [destruct Hout as [[= <-] | [=]]; exact Refl|].
  revert t Hout. do 3 apply Step.
  intros t Hout. change (andThen (Done root) (solveIfTarget h (e0 :: targets0) "L_Foot") = Done t
                         \/ andThen (Done root) (solveIfTarget h (e0 :: targets0) "L_Foot")
                            = Threw t) in Hout.
  revert t Hout. apply Step. intros t [[= <-] | [=]]. exact Refl.
Qed.

Lemma solveAllIK_frame_witness :
  exists t,
    (solveAllIK (mkHeap (fun _ => mkPoint 250 0) 1%nat) (legRig 100 100)
                [("R_Foot", mkLockEntry 0%nat)] = Done t
     \/ solveAllIK (mkHeap (fun _ => mkPoint 250 0) 1%nat) (legRig 100 100)
                   [("R_Foot", mkLockEntry 0%nat)] = Threw t)
    /\ angle (deref t [0; 0; 0]%nat) = 0.
Proof.
  destruct (solveAllIK_returns_or_throws (mkHeap (fun _ => mkPoint 250 0) 1%nat)
              (legRig 100 100) [("R_Foot", mkLockEntry 0%nat)]) as (t & Hout).
  exists t. split; [exact Hout|].
  destruct (proj2 (solveAllIK_frame _ _ _ t Hout) [0; 0; 0]%nat I) as [_ A].
  apply A. intros e n1 n2 Hhas. unfold mapHas in Hhas. cbn [existsb fst] in Hhas.
  destruct (String.eqb_spec "R_Foot" e) as [<-|]; [|discriminate].
  intros Hc. cbn in Hc. injection Hc as <- <-. split; cbn; discriminate.
Defined.

Lemma compute_setGlobalPos (gp : option GlobalPos) (b : Bone) (px py pa : R) :
  computeGlobalPositions (setGlobalPos gp b) px py pa = computeGlobalPositions b px py pa.
Proof. now destruct b. Qed.

(** Which point objects the foot clamp writes: those a Foot-keyed entry
    refers to. *)
Lemma clampFeet_cells (floorY : R) (targets : LockMap) :
  forall (h : Heap) (l : loc),
    cells (clampFeet floorY targets h) l
    = if existsb (fun e => endsWith (fst e) "Foot" && Nat.eqb l (position (snd e))) targets
      then mkPoint (x (cells h l)) floorY
      else cells h l.
Proof.
  unfold clampFeet. induction targets as [|[k0 e0] targets IH]; intros h l;
    cbn [fold_left existsb fst snd]; [reflexivity|].
  rewrite IH.
  destruct (endsWith k0 "Foot"); cbn [andb orb store cells]; [|reflexivity].
  destruct (Nat.eqb l (position e0)); cbn [orb]; [|reflexivity].
  now destruct (existsb _ targets).
Qed.

(** X24.  What an interactive render leaves behind.  Without a drawing
    context it does nothing at all.  With one, on a skeleton whose bones
    have pairwise distinct names, it returns or throws and the state it
    leaves has the skeleton, the mode, the navel offsets, the particles and
    the animation record it started with (the solver works on a copy); the
    lock map has the same keys and the same entry objects, but of the point
    objects those that an entry with a key ending in Foot refers to have
    [y] overwritten with the floor height, and every other point object is
    as before.  With no lock set the skeleton drawn is the live one resolved
    from the navel position. *)
Theorem drawInteractiveModel_keeps_pose :
  forall s : AppState,
    (ctx s = false -> drawInteractiveModel s = Done (s, None))
    /\ (ctx s = true -> NoDup (names (skeleton s)) ->
        let floorY := height (parentRect s) * 0.85 in
        exists s',
          stateOf (drawInteractiveModel s) = Some s'
          /\ skeleton s' = skeleton s
          /\ motionMode s' = motionMode s
          /\ navelOffsetX s' = navelOffsetX s /\ navelOffsetY s' = navelOffsetY s
          /\ physicsPoints s' = physicsPoints s /\ physicsSticks s' = physicsSticks s
          /\ animationState s' = animationState s
          /\ lockedBones s' = lockedBones s
          /\ forall l : loc,
               cells (heap s') l
               = if existsb (fun e => endsWith (fst e) "Foot"
                                      && Nat.eqb l (position (snd e))) (lockedBones s)
                 then mkPoint (x (cells (heap s) l)) floorY
                 else cells (heap s) l)
    /\ (ctx s = true -> lockedBones s = [] ->
        let floorY := height (parentRect s) * 0.85 in
        let navelX := width (parentRect s) / 2 + navelOffsetX s in
        let navelY := (floorY - getLegLength) - navelOffsetY s in
        exists s',
          drawInteractiveModel s
          = Done (s', Some (computeGlobalPositions (skeleton s) navelX navelY 0))).
Proof.
  intros s. split; [|split].
  - intros H. unfold drawInteractiveModel. now rewrite H.
  - intros Hctx Hnd floorY.
    rewrite <- names_deepClone in Hnd.
    destruct (buildLockedChainCache_ends _ Hnd (lockedBones s) []) as (cache & Hcache).
    eexists. split; [apply (drawInteractiveModel_state s cache Hctx Hcache)|].
    cbn [skeleton motionMode navelOffsetX navelOffsetY physicsPoints physicsSticks
           animationState lockedBones heap set_heap set_lockedChainCache].
    repeat (split; [reflexivity|]).
    intros l. apply clampFeet_cells.
  - intros Hctx Hl floorY navelX navelY.
    unfold drawInteractiveModel. rewrite Hctx, Hl. cbn [negb buildLockedChainCache].
    cbn [lockedBones set_lockedChainCache set_heap]. rewrite Hl.
    cbn [solveAllIK]. rewrite compute_setGlobalPos, deepClone_id.
    eexists. reflexivity.
Qed.

Lemma drawInteractiveModel_keeps_pose_witness :
  cells (heap pinnedRigState) 0%nat = mkPoint 400 0
  /\ exists s',
       stateOf (drawInteractiveModel pinnedRigState) = Some s'
       /\ skeleton s' = legRig 150 150
       /\ mapGet (lockedBones s') "R_Foot" = Some (mkLockEntry 0%nat)
       /\ cells (heap s') 0%nat = mkPoint 400 (600 * 0.85).
Proof.
  split; [reflexivity|].
  destruct (proj1 (proj2 (drawInteractiveModel_keeps_pose pinnedRigState))
              eq_refl (legRig_names 150 150))
    as (s' & E & Sk & _ & _ & _ & _ & _ & _ & L & C).
  exists s'. split; [exact E|]. split; [exact Sk|]. split.
  - rewrite L. reflexivity.
  - rewrite (C 0%nat). reflexivity.
Defined.

(** ** A render with one lock *)

Lemma andThen_Done {A : Type} (o : outcome A) : andThen o (fun a => Done a) = o.
Proof. now destruct o. Qed.

(** With a single target the pass over the four effectors is one call of
    the solver (which does nothing for a key that is no effector). *)
Lemma solveAllIK_single (h : Heap) (root : Bone) (e : string) (entry : LockEntry) :
  solveAllIK h root [(e, entry)] = solveTwoBoneIK root e (cells h (position entry)).
Proof.
  unfold solveAllIK, solveIfTarget, mapGet. cbn [find fst snd].
  destruct (String.eqb_spec e "L_Foot") as [->|N1];
    [cbn [option_map snd andThen String.eqb Ascii.eqb Bool.eqb andb find];
     now rewrite ?andThen_Done|].
  destruct (String.eqb_spec e "R_Foot") as [->|N2];
    [cbn [option_map snd andThen String.eqb Ascii.eqb Bool.eqb andb find];
     now rewrite ?andThen_Done|].
  destruct (String.eqb_spec e "L_Hand") as [->|N3];
    [cbn [option_map snd andThen String.eqb Ascii.eqb Bool.eqb andb find];
     now rewrite ?andThen_Done|].
  destruct (String.eqb_spec e "R_Hand") as [->|N4];
    [cbn [option_map snd andThen String.eqb Ascii.eqb Bool.eqb andb find];
     now rewrite ?andThen_Done|].
  cbn [option_map andThen].
  unfold solveTwoBoneIK, getIKChainNames.
  apply String.eqb_neq in N1, N2, N3, N4. now rewrite N1, N2, N3, N4.
Qed.

(** X25.  With exactly one lock an interactive render is one call of the
    solver: on a skeleton whose bones have pairwise distinct names, the
    render runs [solveTwoBoneIK] once, for the locked key, on the live pose
    placed at the navel position, against the pin after the foot clamp (the
    pin with [y] replaced by the floor height if the key ends in Foot); it
    hands the solved tree, resolved from the navel position, to the drawing
    code, or throws where the solver throws. *)
Theorem drawInteractiveModel_single_lock :
  forall (s : AppState) (e : string) (entry : LockEntry),
    ctx s = true ->
    lockedBones s = [(e, entry)] ->
    NoDup (names (skeleton s)) ->
    let floorY := height (parentRect s) * 0.85 in
    let navelX := width (parentRect s) / 2 + navelOffsetX s in
    let navelY := (floorY - getLegLength) - navelOffsetY s in
    let pin := cells (heap s) (position entry) in
    let target := if endsWith e "Foot" then mkPoint (x pin) floorY else pin in
    let frame :=
      setGlobalPos (Some (mkGlobalPos (mkPoint navelX navelY) (mkPoint navelX navelY)))
                   (skeleton s) in
    exists s',
      match solveTwoBoneIK frame e target with
      | Done solved =>
          drawInteractiveModel s
          = Done (s', Some (computeGlobalPositions solved navelX navelY 0))
      | Threw _ => drawInteractiveModel s = Threw (s', None)
      | Hung => False
      end.
Proof.
  intros s e entry Hctx Hl Hnd floorY navelX navelY pin target frame.
  rewrite <- names_deepClone in Hnd.
  destruct (buildLockedChainCache_ends _ Hnd (lockedBones s) []) as (cache & Hcache).
  assert (Hclamp : cells (clampFeet floorY (lockedBones s) (heap s)) (position entry) = target).
  { rewrite Hl. unfold clampFeet, target, pin. cbn [fold_left fst snd].
    destruct (endsWith e "Foot"); cbn; [now rewrite Nat.eqb_refl | reflexivity]. }
  assert (Run : solveAllIK (clampFeet floorY (lockedBones s) (heap s)) frame (lockedBones s)
                = solveTwoBoneIK frame e target).
  { rewrite Hl at 2. now rewrite solveAllIK_single, Hclamp. }
  unfold drawInteractiveModel. rewrite Hctx, Hcache. cbn [negb].
  cbn [lockedBones set_lockedChainCache set_heap heap].
  rewrite deepClone_id. fold floorY navelX navelY frame. rewrite Run.
  destruct (solveTwoBoneIK_returns_or_throws frame e target) as (t & [-> | ->]);
    eexists; reflexivity.
Qed.

Lemma drawInteractiveModel_single_lock_witness :
  exists s' solved,
    solveTwoBoneIK
      (setGlobalPos
         (Some (mkGlobalPos (mkPoint (800 / 2 + 0) (600 * 0.85 - getLegLength - 0))
                            (mkPoint (800 / 2 + 0) (600 * 0.85 - getLegLength - 0))))
         (legRig 150 150))
      "R_Foot" (mkPoint 400 (600 * 0.85)) = Done solved
    /\ drawInteractiveModel pinnedRigState
       = Done (s', Some (computeGlobalPositions solved
                           (800 / 2 + 0) (600 * 0.85 - getLegLength - 0) 0)).
Proof.
  destruct (drawInteractiveModel_single_lock pinnedRigState "R_Foot" (mkLockEntry 0%nat)
              eq_refl eq_refl (legRig_names 150 150)) as (s' & H).
  cbv zeta in H.
  change (if endsWith "R_Foot" "Foot"
          then mkPoint (x (cells (heap pinnedRigState) (position (mkLockEntry 0%nat))))
                       (height (parentRect pinnedRigState) * 0.85)
          else cells (heap pinnedRigState) (position (mkLockEntry 0%nat)))
    with (mkPoint 400 (600 * 0.85)) in H.
  change (skeleton pinnedRigState) with (legRig 150 150) in H.
  change (width (parentRect pinnedRigState) / 2 + navelOffsetX pinnedRigState)
    with (800 / 2 + 0) in H.
  change (height (parentRect pinnedRigState) * 0.85 - getLegLength
          - navelOffsetY pinnedRigState)
    with (600 * 0.85 - getLegLength - 0) in H.
  set (fr := setGlobalPos _ (legRig 150 150)) in *.
  destruct (solveTwoBoneIK fr "R_Foot" (mkPoint 400 (600 * 0.85)))
    as [solved | t |] eqn:E.
  - exists s', solved. split; [reflexivity | exact H].
  - exfalso. revert E.
    rewrite (solveTwoBoneIK_chain fr "R_Foot" (mkPoint 400 (600 * 0.85))
               "R_Hip" "R_Calf" [0%nat] [0; 0]%nat [] _ _ _
               eq_refl eq_refl eq_refl eq_refl eq_refl eq_refl eq_refl).
    destruct (Rlt_dec _ _); discriminate.
  - contradiction.
Defined.

(** ** What the visibility toggle does to what is shown *)

Lemma topology_setV (w : string -> bool) (b : Bone) : topology (setV w b) = topology b.
Proof.
  induction b as [b IH] using Bone_tree_ind.
  destruct b as [n len a ta m cs z vis gp ga]; cbn in *. f_equal.
  rewrite map_map. induction IH as [|c cs Hc _ IHcs]; cbn; [reflexivity|].
  now rewrite Hc, IHcs.
Qed.

Lemma topology_update_setV (v : string -> bool) (r : ref) (t : Bone) :
  topology (update t r (setV v)) = topology t.
Proof.
  rewrite <- (topology_setV v (update t r (setV v))), update_setV_pose.
  apply topology_setV.
Qed.

(** X26.  What [isBoneVisible] reports after [toggleBoneVisibility]: a bone
    that carries a [visible] flag reads the other way round afterwards; a
    bone without the flag, which reads as visible, still reads as visible
    after the toggle (the flag it gets is the negation of an absent value). *)
Theorem toggleBoneVisibility_isBoneVisible :
  forall (s : AppState) (boneName : string) (r : ref),
    findBone (skeleton s) boneName = Some r ->
    (forall v, visible (deref (skeleton s) r) = Some v ->
               isBoneVisible (toggleBoneVisibility s boneName) boneName
               = negb (isBoneVisible s boneName))
    /\ (visible (deref (skeleton s) r) = None ->
        isBoneVisible s boneName = true
        /\ isBoneVisible (toggleBoneVisibility s boneName) boneName = true).
Proof.
  intros s nm r Hr.
  destruct (findBone_spec _ _ _ Hr) as [Vr _].
  assert (After : isBoneVisible (toggleBoneVisibility s nm) nm
                  = notVisible (deref (skeleton s) r)).
  { unfold isBoneVisible, toggleBoneVisibility. rewrite deepClone_id, Hr.
    cbn [skeleton set_skeleton].
    rewrite (findBone_topology nm _ (skeleton s)) by apply topology_update_setV.
    rewrite Hr, deref_update_same by exact Vr.
    now destruct (deref (skeleton s) r). }
  assert (Before : isBoneVisible s nm
                   = match visible (deref (skeleton s) r) with
                     | Some v => v
                     | None => true
                     end).
  { unfold isBoneVisible. now rewrite Hr. }
  rewrite After, Before. unfold notVisible. split.
  - now intros v ->.
  - now intros ->.
Qed.

Lemma toggleBoneVisibility_isBoneVisible_witness :
  isBoneVisible rigState "R_Hip" = true
  /\ isBoneVisible (toggleBoneVisibility rigState "R_Hip") "R_Hip" = true
  /\ isBoneVisible (toggleBoneVisibility (toggleBoneVisibility rigState "R_Hip") "R_Hip")
                   "R_Hip" = false.
Proof.
  destruct (proj2 (toggleBoneVisibility_isBoneVisible rigState "R_Hip" [0%nat] eq_refl)
              eq_refl) as [B A].
  split; [exact B|]. split; [exact A|].
  rewrite (proj1 (toggleBoneVisibility_isBoneVisible
                    (toggleBoneVisibility rigState "R_Hip") "R_Hip" [0%nat] eq_refl)
             true eq_refl).
  now rewrite A.
Defined.

(** ** Building the ragdoll *)

Section CollapseInitFacts.
Variable toFixed2 : R -> string.
Variable iv : Point.

Lemma joins_more (pts l : list Physics.PhysicsPoint) (st : Physics.PhysicsStick) :
  joins pts st -> joins (pts ++ l) st.
Proof.
  unfold joins. rewrite length_app. intros (A & B & C). repeat split; [exact A | lia | lia].
Qed.

Lemma grows_refl (b : Builder) : grows iv b b.
Proof.
  unfold grows. split; [auto|]. split; [exists []; now rewrite app_nil_r|].
  split; [exists []; now rewrite app_nil_r | auto].
Qed.

Lemma grows_trans (a b c : Builder) : grows iv a b -> grows iv b c -> grows iv a c.
Proof.
  intros (M1 & (l1 & P1 & F1) & (k1 & S1 & G1) & A1 & B1 & C1)
         (M2 & (l2 & P2 & F2) & (k2 & S2 & G2) & A2 & B2 & C2).
  split; [auto|]. split; [|split; [|repeat split; congruence]].
  - exists (l1 ++ l2). rewrite P2, P1, app_assoc. split; [reflexivity|].
    apply Forall_app; auto.
  - exists (k1 ++ k2). rewrite S2, S1, app_assoc. split; [reflexivity|].
    apply Forall_app. split; [|exact G2].
    rewrite P2. eapply Forall_impl; [|exact G1]. intros st. apply joins_more.
Qed.

Lemma getOrCreatePoint_spec (pos : Point) (b : Builder) :
  indexed toFixed2 b ->
  let r := getOrCreatePoint toFixed2 iv pos b in
  indexed toFixed2 (snd r)
  /\ grows iv b (snd r)
  /\ mapGet (fst (snd r)) (pointKey toFixed2 pos) = Some (fst r)
  /\ (fst r < Datatypes.length (physicsPoints (snd (snd r))))%nat
  /\ boneToPointsMap (snd (snd r)) = boneToPointsMap (snd b).
Proof.
  intros [A B]. unfold getOrCreatePoint.
  destruct (mapGet (fst b) (pointKey toFixed2 pos)) as [i|] eqn:Hk; cbn [fst snd].
  - split; [now split|]. split; [apply grows_refl|]. split; [exact Hk|].
    split; [|reflexivity].
    destruct (A _ _ Hk) as (p & Hp & _). apply nth_error_Some. congruence.
  - set (new := Physics.mkPhysicsPoint (x pos) (y pos) (x pos - x iv * (1 / 60))
                  (y pos - y iv * (1 / 60)) false).
    set (n := Datatypes.length (physicsPoints (snd b))).
    assert (Kn : particleKey toFixed2 new = pointKey toFixed2 pos) by now destruct pos.
    split; [split|].
    + intros k i Hi. cbn [fst snd physicsPoints set_physicsPoints] in Hi |- *.
      destruct (String.eqb_spec k (pointKey toFixed2 pos)) as [->|Nk].
      * rewrite mapGet_mapSet_same in Hi. injection Hi as <-.
        exists new. split; [|exact Kn].
        rewrite nth_error_app2 by (unfold n; lia). fold n.
        now rewrite Nat.sub_diag.
      * rewrite mapGet_mapSet_other in Hi by exact Nk.
        destruct (A _ _ Hi) as (p & Hp & Kp). exists p. split; [|exact Kp].
        rewrite nth_error_app1; [exact Hp|]. apply nth_error_Some. congruence.
    + intros i p. cbn [fst snd physicsPoints set_physicsPoints]. intros Hi.
      destruct (Nat.lt_ge_cases i n) as [Lt|Ge].
      * rewrite nth_error_app1 in Hi by exact Lt.
        pose proof (B _ _ Hi) as Hm.
        rewrite mapGet_mapSet_other; [exact Hm|]. intros E. rewrite E in Hm. congruence.
      * rewrite nth_error_app2 in Hi by exact Ge. fold n in Hi.
        destruct (i - n)%nat as [|m] eqn:Em; cbn in Hi.
        -- injection Hi as <-. rewrite Kn, mapGet_mapSet_same. f_equal. lia.
        -- now destruct m.
    + split; [|split; [apply mapGet_mapSet_same|split; [|reflexivity]]].
      * unfold grows. cbn [fst snd physicsPoints physicsSticks set_physicsPoints skeleton
                            motionMode animationFrameId].
        split; [|split; [|split; [|auto]]].
        -- intros k i Hi. rewrite mapGet_mapSet_other; [exact Hi|].
           intros E. rewrite E in Hi. congruence.
        -- exists [new]. split; [reflexivity|]. constructor; [|constructor].
           unfold fresh. cbn. auto.
        -- exists []. now rewrite app_nil_r.
      * cbn [physicsPoints set_physicsPoints]. rewrite length_app. cbn. fold n. lia.
Qed.

Lemma processOwn_spec (n : string) (len : R) (gp : option GlobalPos) (b : Builder) :
  indexed toFixed2 b ->
  let b' := processOwn toFixed2 iv n len gp b in
  indexed toFixed2 b'
  /\ grows iv b b'
  /\ (forall nm, nm <> n ->
                 mapGet (boneToPointsMap (snd b')) nm = mapGet (boneToPointsMap (snd b)) nm)
  /\ (forall g, gp = Some g ->
                exists i0 i1,
                  mapGet (boneToPointsMap (snd b')) n = Some (i0, i1)
                  /\ mapGet (fst b') (pointKey toFixed2 (start g)) = Some i0
                  /\ mapGet (fst b') (pointKey toFixed2 (end_ g)) = Some i1).
Proof.
  intros Hb. unfold processOwn. destruct gp as [g|].
  2:{ split; [exact Hb|]. split; [apply grows_refl|]. split; [auto | discriminate]. }
  pose proof (getOrCreatePoint_spec (start g) b Hb) as H1.
  destruct (getOrCreatePoint toFixed2 iv (start g) b) as [p0 b1]. cbn [fst snd] in H1.
  destruct H1 as (I1 & G1 & K1 & L1 & M1).
  pose proof (getOrCreatePoint_spec (end_ g) b1 I1) as H2.
  destruct (getOrCreatePoint toFixed2 iv (end_ g) b1) as [p1 b2]. cbn [fst snd] in H2.
  destruct H2 as (I2 & G2 & K2 & L2 & M2).
  pose proof (grows_trans _ _ _ G1 G2) as G.
  assert (L1' : (p0 < Datatypes.length (physicsPoints (snd b2)))%nat).
  { destruct G2 as (_ & (l & -> & _) & _). rewrite length_app. lia. }
  set (s1 := set_boneToPointsMap (mapSet (boneToPointsMap (snd b2)) n (p0, p1)) (snd b2)).
  set (s2 := if Rlt_dec 0 len
             then set_physicsSticks
                    (physicsSticks s1 ++ [Physics.mkPhysicsStick p0 p1 len]) s1
             else s1).
  assert (F : physicsPoints s2 = physicsPoints (snd b2)
              /\ boneToPointsMap s2 = mapSet (boneToPointsMap (snd b2)) n (p0, p1)
              /\ skeleton s2 = skeleton (snd b2)
              /\ motionMode s2 = motionMode (snd b2)
              /\ animationFrameId s2 = animationFrameId (snd b2)
              /\ exists l, physicsSticks s2 = physicsSticks (snd b2) ++ l
                           /\ Forall (joins (physicsPoints (snd b2))) l).
  { unfold s2. destruct (Rlt_dec 0 len) as [Hlen|_]; cbn; repeat split; auto.
    - exists [Physics.mkPhysicsStick p0 p1 len]. split; [reflexivity|].
      constructor; [|constructor]. unfold joins. cbn. auto.
    - exists []. now rewrite app_nil_r. }
  destruct F as (Fp & Fm & Fs & Fo & Fa & (l & Fl & Fj)).
  cbn [fst snd]. split; [|split; [|split]].
  - destruct I2 as [A B]. split; cbn [fst snd]; rewrite Fp; auto.
  - apply (grows_trans _ b2); [exact G|].
    unfold grows. cbn [fst snd]. rewrite Fp, Fs, Fo, Fa.
    split; [auto|]. split; [exists []; now rewrite app_nil_r|].
    split; [exists l; auto | auto].
  - intros nm Hne. rewrite Fm, mapGet_mapSet_other by exact Hne. congruence.
  - intros g' [= <-]. exists p0, p1. rewrite Fm, mapGet_mapSet_same.
    split; [reflexivity|]. split; [|exact K2].
    destruct G2 as (Mono & _). now apply Mono.
Qed.

Lemma entries_stable (b b' : Builder) (bone : Bone) :
  entries toFixed2 b bone ->
  grows iv b b' ->
  (forall nm, In nm (names bone) ->
              mapGet (boneToPointsMap (snd b')) nm = mapGet (boneToPointsMap (snd b)) nm) ->
  entries toFixed2 b' bone.
Proof.
  intros E (Mono & _) Fr q gp V Hg.
  destruct (E q gp V Hg) as (i0 & i1 & A & B & C).
  exists i0, i1. rewrite Fr by now apply name_in_names. auto.
Qed.

(** What the traversal of one bone and its subtree does. *)
Lemma processBone_spec (bone : Bone) :
  forall b : Builder,
    indexed toFixed2 b ->
    let b' := processBone toFixed2 iv bone b in
    indexed toFixed2 b'
    /\ grows iv b b'
    /\ (forall nm, ~ In nm (names bone) ->
                   mapGet (boneToPointsMap (snd b')) nm
                   = mapGet (boneToPointsMap (snd b)) nm)
    /\ (NoDup (names bone) -> entries toFixed2 b' bone).
Proof.
  induction bone as [bone IH] using Bone_tree_ind.
  destruct bone as [n len a ta m cs z vis gp ga]. cbn [children] in IH.
  assert (Kids : forall b : Builder,
             indexed toFixed2 b ->
             let b' := fold_left (fun b child => processBone toFixed2 iv child b) cs b in
             indexed toFixed2 b'
             /\ grows iv b b'
             /\ (forall nm, ~ In nm (List.concat (map names cs)) ->
                            mapGet (boneToPointsMap (snd b')) nm
                            = mapGet (boneToPointsMap (snd b)) nm)
             /\ (NoDup (List.concat (map names cs)) ->
                 forall i c, nth_error cs i = Some c -> entries toFixed2 b' c)).
  { induction IH as [|c cs Hc _ IHcs]; intros b Hb; cbn [fold_left map List.concat].
    - split; [exact Hb|]. split; [apply grows_refl|]. split; [auto|].
      intros _ [|i] c'; discriminate.
    - destruct (Hc b Hb) as (I1 & G1 & F1 & E1).
      destruct (IHcs (processBone toFixed2 iv c b) I1) as (I2 & G2 & F2 & E2).
      split; [exact I2|]. split; [eapply grows_trans; eauto|]. split.
      + intros nm Hn. rewrite in_app_iff in Hn.
        rewrite F2, F1; auto.
      + intros Hnd. apply NoDup_app_remove_l in Hnd as Hr.
        apply NoDup_app_remove_r in Hnd as Hl.
        intros [|i] c' Hi; cbn in Hi.
        * injection Hi as <-. apply (entries_stable (processBone toFixed2 iv c b));
            [now apply E1 | exact G2 |].
          intros nm Hin. apply F2. intros Hin'.
          revert Hnd Hin Hin'. clear. generalize (names c) (List.concat (map names cs)).
          induction l as [|a l IHl]; intros l' Hnd Hin Hin'; [contradiction|].
          cbn in Hnd. inversion Hnd as [|? ? Hna Hnd']; subst.
          destruct Hin as [<-|Hin]; [|eauto].
          apply Hna. apply in_app_iff. now right.
        * now apply (E2 Hr i c'). }
  intros b Hb. cbn [processBone].
  destruct (processOwn_spec n len gp b Hb) as (I1 & G1 & F1 & E1).
  destruct (Kids _ I1) as (I2 & G2 & F2 & E2).
  split; [exact I2|]. split; [eapply grows_trans; eauto|]. split.
  - intros nm Hn. cbn [names] in Hn. rewrite F2, F1; auto.
    + intros ->. apply Hn. now left.
    + intros Hin. apply Hn. now right.
  - intros Hnd. cbn [names] in Hnd. inversion Hnd as [|? ? Hn Hnd']; subst.
    intros q g V Hg. destruct q as [|i q].
    + cbn in Hg |- *. destruct (E1 g Hg) as (i0 & i1 & A & B & C).
      exists i0, i1. rewrite F2 by exact Hn. destruct G2 as (Mono & _). auto.
    + cbn in V, Hg |- *. destruct (nth_error cs i) as [c|] eqn:Hc; [|contradiction].
      exact (E2 Hnd' i c Hc q g V Hg).
Qed.

Lemma names_compute (b : Bone) :
  forall px py pa : R, names (computeGlobalPositions b px py pa) = names b.
Proof.
  induction b as [b IH] using Bone_tree_ind.
  destruct b as [n len a ta m cs z vis gp ga]; cbn in *. intros px py pa. f_equal.
  rewrite map_map. f_equal. apply map_ext_in. intros c Hc.
  rewrite Forall_forall in IH. now apply IH.
Qed.

(** The builder [initializeCollapseFromCurrentPose] ends with. *)
Lemma initializeCollapse_built (s : AppState) :
  let floorY := height (parentRect s) * 0.85 in
  let navelX := width (parentRect s) / 2 + navelOffsetX s in
  let navelY := (floorY - getLegLength) - navelOffsetY s in
  let frame := computeGlobalPositions (skeleton s) navelX navelY 0 in
  exists b : Builder,
    snd b = initializeCollapseFromCurrentPose toFixed2 s iv
    /\ indexed toFixed2 b
    /\ Forall (fresh iv) (physicsPoints (snd b))
    /\ Forall (joins (physicsPoints (snd b))) (physicsSticks (snd b))
    /\ skeleton (snd b) = skeleton s
    /\ motionMode (snd b) = motionMode s
    /\ animationFrameId (snd b) = animationFrameId s
    /\ (NoDup (names (skeleton s)) -> entries toFixed2 b frame).
Proof.
  intros floorY navelX navelY frame.
  set (s0 := set_boneToPointsMap [] (set_physicsSticks [] (set_physicsPoints [] s))).
  assert (I0 : indexed toFixed2 ([], s0)).
  { split; cbn.
    - intros k i [=].
    - intros [|i] p [=]. }
  destruct (processBone_spec frame ([], s0) I0) as (I & G & _ & E).
  exists (processBone toFixed2 iv frame ([], s0)).
  split; [|split; [exact I|]].
  - unfold initializeCollapseFromCurrentPose. fold s0. cbn [skeleton parentRect navelOffsetX
      navelOffsetY s0 set_boneToPointsMap set_physicsSticks set_physicsPoints].
    now rewrite deepClone_id.
  - destruct G as (_ & (l & Hp & Fp) & (k & Hs & Fs) & A & B & C).
    cbn [snd physicsPoints physicsSticks s0 set_boneToPointsMap set_physicsSticks
           set_physicsPoints app] in Hp, Hs.
    rewrite Hp, Hs. rewrite Hp in Fs.
    repeat split; auto.
    intros Hnd. apply E. unfold frame. now rewrite names_compute.
Qed.

Lemma child_starts_where_parent_ends (q : ref) (i : nat) (b : Bone) (px py pa : R)
    (gp gp' : GlobalPos) :
  valid b (q ++ [i]) ->
  globalPos (deref (computeGlobalPositions b px py pa) q) = Some gp ->
  globalPos (deref (computeGlobalPositions b px py pa) (q ++ [i])) = Some gp' ->
  start gp' = end_ gp.
Proof.
  intros V Hg Hg'.
  destruct (valid_app q i b V) as [Vq _].
  assert (Vq' : valid (computeGlobalPositions b px py pa) (q ++ [i])) by now apply valid_compute.
  destruct (valid_app q i _ Vq') as [_ Hc].
  destruct (deref_compute q b px py pa) as (qx & qy & qa & E).
  rewrite E in Hg, Hc. rewrite children_compute, nth_error_map in Hc.
  destruct (nth_error (children (deref b q)) i) as [c|]; [|discriminate].
  cbn in Hc. injection Hc as Hc. rewrite <- Hc in Hg'.
  destruct (deref b q) as [n len a ta m cs z vis g0 ga], c; cbn in *.
  injection Hg as <-. injection Hg' as <-. reflexivity.
Qed.

End CollapseInitFacts.

(** X27.  The particles [initializeCollapseFromCurrentPose] makes: every
    one is unpinned and has its previous position one sixtieth of the
    initial velocity behind its position; no two of them are filed under the
    same position key; every stick has a positive length and joins two
    particles of the array; the pose, the mode and the frame handle are as
    before. *)
Theorem initializeCollapse_particles :
  forall (toFixed2 : R -> string) (s : AppState) (initialVelocity : Point),
    let s' := initializeCollapseFromCurrentPose toFixed2 s initialVelocity in
    Forall (fresh initialVelocity) (physicsPoints s')
    /\ NoDup (map (particleKey toFixed2) (physicsPoints s'))
    /\ Forall (joins (physicsPoints s')) (physicsSticks s')
    /\ skeleton s' = skeleton s
    /\ motionMode s' = motionMode s
    /\ animationFrameId s' = animationFrameId s.
Proof.
  intros toFixed2 s iv s'.
  destruct (initializeCollapse_built toFixed2 iv s)
    as (b & Eb & [_ Ib] & Fp & Fs & A & B & C & _).
  fold s' in Eb. rewrite Eb in *.
  repeat split; auto.
  apply NoDup_nth_error. intros i j Hi Hij.
  rewrite length_map in Hi. rewrite !nth_error_map in Hij.
  destruct (nth_error (physicsPoints s') i) as [p|] eqn:Hp;
    [|apply nth_error_None in Hp; lia].
  destruct (nth_error (physicsPoints s') j) as [p'|] eqn:Hp'; [|discriminate].
  cbn in Hij. injection Hij as Hk.
  pose proof (Ib _ _ Hp) as H1. pose proof (Ib _ _ Hp') as H2.
  rewrite Hk in H1. congruence.
Qed.

(** X28.  With bone names that are pairwise distinct, every bone of the
    skeleton gets an entry in [boneToPointsMap] whose two particles are
    filed under the position keys of the start and of the end of the bone
    in the pose resolved from the navel position. *)
Theorem initializeCollapse_bones :
  forall (toFixed2 : R -> string) (s : AppState) (initialVelocity : Point) (q : ref),
    NoDup (names (skeleton s)) ->
    valid (skeleton s) q ->
    let s' := initializeCollapseFromCurrentPose toFixed2 s initialVelocity in
    let floorY := height (parentRect s) * 0.85 in
    let navelX := width (parentRect s) / 2 + navelOffsetX s in
    let navelY := (floorY - getLegLength) - navelOffsetY s in
    let frame := computeGlobalPositions (skeleton s) navelX navelY 0 in
    exists gp i0 i1 p0 p1,
      globalPos (deref frame q) = Some gp
      /\ mapGet (boneToPointsMap s') (name (deref (skeleton s) q)) = Some (i0, i1)
      /\ nth_error (physicsPoints s') i0 = Some p0
      /\ nth_error (physicsPoints s') i1 = Some p1
      /\ particleKey toFixed2 p0 = pointKey toFixed2 (start gp)
      /\ particleKey toFixed2 p1 = pointKey toFixed2 (end_ gp).
Proof.
  intros toFixed2 s iv q Hnd V s' floorY navelX navelY frame.
  destruct (initializeCollapse_built toFixed2 iv s)
    as (b & Eb & [Ia _] & _ & _ & _ & _ & _ & E).
  fold s' in Eb. fold floorY navelX navelY frame in E.
  destruct (resolved_everywhere q (skeleton s) navelX navelY 0) as (gp & ga & Hg & _).
  fold frame in Hg.
  destruct (E Hnd q gp (valid_compute q _ _ _ _ V) Hg) as (i0 & i1 & M & K0 & K1).
  destruct (Ia _ _ K0) as (p0 & P0 & Q0). destruct (Ia _ _ K1) as (p1 & P1 & Q1).
  rewrite Eb in M, P0, P1.
  destruct (static_deref_compute q (skeleton s) navelX navelY 0) as [St _].
  fold frame in St. unfold static in St. injection St as Hname _ _ _ _ _ _.
  rewrite Hname in M.
  exists gp, i0, i1, p0, p1. auto 10.
Qed.

Lemma rigState_names : NoDup (names (skeleton rigState)).
Proof. cbn. repeat constructor; cbn; intuition discriminate. Qed.

Lemma toFixed_two_integer (x : R) (z : Z) :
  (0 <= z)%Z -> x = IZR z -> toFixed_two x = String.append (digits z) ".00".
Proof.
  intros Hz ->. unfold toFixed_two.
  apply IZR_le in Hz as Hr.
  destruct (Rlt_dec (IZR z) 0) as [H|_]; [lra|].
  assert (E : Int_part (IZR z * 100 + 1 / 2) = (z * 100)%Z).
  { symmetry. apply Int_part_spec. rewrite mult_IZR. split; lra. }
  rewrite E, Z.div_mul, Z.mod_mul by lia.
  replace ((z * 100) mod 10)%Z with 0%Z
    by (replace (z * 100)%Z with (z * 10 * 10)%Z by ring; now rewrite Z.mod_mul).
  reflexivity.
Qed.

(** A bone whose two end points have different position keys lies between
    two different particles. *)
Lemma distinct_ends_distinct_particles (toFixed2 : R -> string) (iv : Point) (s : AppState)
    (q : ref) (gp : GlobalPos) (a b : nat) :
  NoDup (names (skeleton s)) ->
  valid (skeleton s) q ->
  globalPos (deref (computeGlobalPositions (skeleton s)
                      (width (parentRect s) / 2 + navelOffsetX s)
                      (height (parentRect s) * 0.85 - getLegLength - navelOffsetY s) 0) q)
  = Some gp ->
  pointKey toFixed2 (start gp) <> pointKey toFixed2 (end_ gp) ->
  mapGet (boneToPointsMap (initializeCollapseFromCurrentPose toFixed2 s iv))
         (name (deref (skeleton s) q)) = Some (a, b) ->
  a <> b.
Proof.
  intros Hnd V Hg Hk M.
  destruct (initializeCollapse_built toFixed2 iv s)
    as (bd & Eb & [Ia _] & _ & _ & _ & _ & _ & E).
  destruct (E Hnd q gp (valid_compute q _ _ _ _ V) Hg) as (i0 & i1 & M' & K0 & K1).
  destruct (static_deref_compute q (skeleton s)
              (width (parentRect s) / 2 + navelOffsetX s)
              (height (parentRect s) * 0.85 - getLegLength - navelOffsetY s) 0)
    as [St _].
  unfold static in St. injection St as Hn _ _ _ _ _ _.
  rewrite Hn, Eb, M in M'. injection M' as <- <-.
  intros <-.
  destruct (Ia _ _ K0) as (p & P & Q). destruct (Ia _ _ K1) as (p' & P' & Q').
  rewrite P in P'. injection P' as <-. congruence.
Qed.

(** In the rig on an 800 by 600 canvas R_Hip runs from x = 400 to
    x = 500: its two ends have different keys. *)
Lemma rig_hip_keys (gp : GlobalPos) :
  globalPos (deref (computeGlobalPositions (skeleton rigState)
                      (width (parentRect rigState) / 2 + navelOffsetX rigState)
                      (height (parentRect rigState) * 0.85 - getLegLength
                       - navelOffsetY rigState) 0) [0%nat])
  = Some gp ->
  pointKey toFixed_two (start gp) <> pointKey toFixed_two (end_ gp).
Proof.
  cbn -[getLegLength cos sin]. intros [= <-]. unfold pointKey. cbn [x y start end_].
  rewrite (toFixed_two_integer (800 / 2 + 0 + cos (0 + 0) * 0) 400)
    by (try lia; lra).
  replace (0 + 0 + 0) with 0 by ring. rewrite cos_0.
  rewrite (toFixed_two_integer (800 / 2 + 0 + cos (0 + 0) * 0 + 1 * 100) 500)
    by (try lia; lra).
  cbn [digits]. discriminate.
Qed.

Lemma initializeCollapse_bones_witness :
  exists gp i0 i1 p0 p1,
    (globalPos (deref (computeGlobalPositions (legRig 100 100)
                         (800 / 2 + 0) ((600 * 0.85 - getLegLength) - 0) 0) [0%nat]) = Some gp
     /\ mapGet (boneToPointsMap
                  (initializeCollapseFromCurrentPose toFixed_two rigState (mkPoint 0 0)))
               "R_Hip" = Some (i0, i1)
     /\ nth_error (physicsPoints
                     (initializeCollapseFromCurrentPose toFixed_two rigState (mkPoint 0 0)))
                  i0 = Some p0
     /\ nth_error (physicsPoints
                     (initializeCollapseFromCurrentPose toFixed_two rigState (mkPoint 0 0)))
                  i1 = Some p1
     /\ particleKey toFixed_two p0 = pointKey toFixed_two (start gp)
     /\ particleKey toFixed_two p1 = pointKey toFixed_two (end_ gp))
    /\ i0 <> i1.
Proof.
  destruct (initializeCollapse_bones toFixed_two rigState (mkPoint 0 0) [0%nat]
              rigState_names I) as (gp & i0 & i1 & p0 & p1 & H).
  exists gp, i0, i1, p0, p1. split; [exact H|].
  destruct H as (Hg & M & _).
  exact (distinct_ends_distinct_particles toFixed_two (mkPoint 0 0) rigState [0%nat] gp i0 i1
           rigState_names I Hg (rig_hip_keys gp Hg) M).
Defined.

(** X29.  With bone names that are pairwise distinct the ragdoll hangs
    together: the particle a bone starts at is the particle its parent ends
    at. *)
Theorem initializeCollapse_joints :
  forall (toFixed2 : R -> string) (s : AppState) (initialVelocity : Point)
         (q : ref) (i : nat) (a b c d : nat),
    NoDup (names (skeleton s)) ->
    valid (skeleton s) (q ++ [i]) ->
    let s' := initializeCollapseFromCurrentPose toFixed2 s initialVelocity in
    mapGet (boneToPointsMap s') (name (deref (skeleton s) q)) = Some (a, b) ->
    mapGet (boneToPointsMap s') (name (deref (skeleton s) (q ++ [i]))) = Some (c, d) ->
    c = b.
Proof.
  intros toFixed2 s iv q i a b c d Hnd V s' Hp Hc.
  destruct (initializeCollapse_built toFixed2 iv s)
    as (bd & Eb & _ & _ & _ & _ & _ & _ & E).
  fold s' in Eb. specialize (E Hnd).
  set (frame := computeGlobalPositions (skeleton s)
                  (width (parentRect s) / 2 + navelOffsetX s)
                  (height (parentRect s) * 0.85 - getLegLength - navelOffsetY s) 0) in *.
  destruct (valid_app q i _ V) as [Vq _].
  destruct (resolved_everywhere q (skeleton s)
              (width (parentRect s) / 2 + navelOffsetX s)
              (height (parentRect s) * 0.85 - getLegLength - navelOffsetY s) 0)
    as (gp & ga & Hg & _).
  destruct (resolved_everywhere (q ++ [i]) (skeleton s)
              (width (parentRect s) / 2 + navelOffsetX s)
              (height (parentRect s) * 0.85 - getLegLength - navelOffsetY s) 0)
    as (gp' & ga' & Hg' & _).
  pose proof (child_starts_where_parent_ends q i _ _ _ _ gp gp' V Hg Hg') as Join.
  fold frame in Hg, Hg'.
  destruct (E q gp (valid_compute q _ _ _ _ Vq) Hg) as (i0 & i1 & M & _ & K1).
  destruct (E (q ++ [i]) gp' (valid_compute _ _ _ _ _ V) Hg') as (j0 & j1 & M' & K0' & _).
  destruct (static_deref_compute q (skeleton s)
              (width (parentRect s) / 2 + navelOffsetX s)
              (height (parentRect s) * 0.85 - getLegLength - navelOffsetY s) 0) as [St _].
  destruct (static_deref_compute (q ++ [i]) (skeleton s)
              (width (parentRect s) / 2 + navelOffsetX s)
              (height (parentRect s) * 0.85 - getLegLength - navelOffsetY s) 0) as [St' _].
  fold frame in St, St'. unfold static in St, St'.
  injection St as Hn _ _ _ _ _ _. injection St' as Hn' _ _ _ _ _ _.
  rewrite Hn, Eb in M. rewrite Hn', Eb in M'.
  rewrite Join in K0'. congruence.
Qed.

Lemma initializeCollapse_entry (toFixed2 : R -> string) (iv : Point) (s : AppState)
    (q : ref) :
  NoDup (names (skeleton s)) ->
  valid (skeleton s) q ->
  exists i0 i1,
    mapGet (boneToPointsMap (initializeCollapseFromCurrentPose toFixed2 s iv))
           (name (deref (skeleton s) q)) = Some (i0, i1).
Proof.
  intros Hnd V.
  destruct (initializeCollapse_built toFixed2 iv s)
    as (b & Eb & _ & _ & _ & _ & _ & _ & E).
  destruct (resolved_everywhere q (skeleton s)
              (width (parentRect s) / 2 + navelOffsetX s)
              (height (parentRect s) * 0.85 - getLegLength - navelOffsetY s) 0)
    as (gp & ga & Hg & _).
  destruct (E Hnd q gp (valid_compute q _ _ _ _ V) Hg) as (i0 & i1 & M & _).
  destruct (static_deref_compute q (skeleton s)
              (width (parentRect s) / 2 + navelOffsetX s)
              (height (parentRect s) * 0.85 - getLegLength - navelOffsetY s) 0)
    as [St _].
  unfold static in St. injection St as Hn _ _ _ _ _ _.
  rewrite Hn, Eb in M. now exists i0, i1.
Qed.

Lemma initializeCollapse_joints_witness :
  exists a b c d,
    mapGet (boneToPointsMap
              (initializeCollapseFromCurrentPose toFixed_two rigState (mkPoint 0 0)))
           "R_Hip" = Some (a, b)
    /\ mapGet (boneToPointsMap
                 (initializeCollapseFromCurrentPose toFixed_two rigState (mkPoint 0 0)))
              "R_Calf" = Some (c, d)
    /\ a <> b
    /\ c = b.
Proof.
  destruct (initializeCollapse_entry toFixed_two (mkPoint 0 0) rigState [0%nat]
              rigState_names I) as (a & b & H1).
  destruct (initializeCollapse_entry toFixed_two (mkPoint 0 0) rigState [0; 0]%nat
              rigState_names I) as (c & d & H2).
  exists a, b, c, d. split; [exact H1|]. split; [exact H2|]. split.
  - destruct (resolved_everywhere [0%nat] (skeleton rigState)
                (width (parentRect rigState) / 2 + navelOffsetX rigState)
                (height (parentRect rigState) * 0.85 - getLegLength - navelOffsetY rigState) 0)
      as (gp & ga & Hg & _).
    exact (distinct_ends_distinct_particles toFixed_two (mkPoint 0 0) rigState [0%nat] gp a b
             rigState_names I Hg (rig_hip_keys gp Hg) H1).
  - apply (initializeCollapse_joints toFixed_two rigState (mkPoint 0 0)
             [0%nat] 0%nat a b c d rigState_names I H1 H2).
Defined.

(** X30.  [setCollapseMode] leaves the component in Collapse mode with a
    frame handle, on the pose it had, and with every particle unpinned and
    at rest (its previous position is its position). *)
Theorem setCollapseMode_at_rest :
  forall (toFixed2 : R -> string) (s : AppState) (handle : nat),
    let s' := setCollapseMode toFixed2 s handle in
    motionMode s' = Collapse
    /\ skeleton s' = skeleton s
    /\ animationFrameId s' <> None
    /\ (animationFrameId s <> None -> animationFrameId s' = animationFrameId s)
    /\ forall p, In p (physicsPoints s') ->
                 Physics.isPinned p = false
                 /\ Physics.oldX p = Physics.x p /\ Physics.oldY p = Physics.y p.
Proof.
  intros toFixed2 s handle s'. unfold s', setCollapseMode.
  destruct (initializeCollapse_built toFixed2 (mkPoint 0 0) (set_motionMode Collapse s))
    as (b & Eb & _ & Fp & _ & A & B & C & _).
  rewrite Eb in Fp, A, B, C. clear Eb b.
  set (s1 := initializeCollapseFromCurrentPose toFixed2 (set_motionMode Collapse s)
               (mkPoint 0 0)) in *.
  assert (Rest : forall p, In p (physicsPoints s1) ->
                           Physics.isPinned p = false
                           /\ Physics.oldX p = Physics.x p /\ Physics.oldY p = Physics.y p).
  { intros p Hin. rewrite Forall_forall in Fp. destruct (Fp p Hin) as (P & X & Y).
    cbn in X, Y. repeat split; [exact P | lra | lra]. }
  cbn in A, B, C.
  destruct (animationFrameId s1) as [h|] eqn:Hh.
  - split; [exact B|]. split; [exact A|]. split; [congruence|].
    split; [intros _; congruence | exact Rest].
  - cbn. split; [exact B|]. split; [exact A|]. split; [discriminate|].
    split; [|exact Rest]. intros N. now elim N.
Qed.

Lemma setCollapseMode_at_rest_witness :
  animationFrameId
    (setCollapseMode toFixed_two (set_animationFrameId (Some 3%nat) rigState) 7)
  = Some 3%nat.
Proof.
  apply (proj1 (proj2 (proj2 (proj2
           (setCollapseMode_at_rest toFixed_two
              (set_animationFrameId (Some 3%nat) rigState) 7))))).
  discriminate.
Defined.
